(** * A shallow embedding of [advanced-vector/vector.h]

    [RawMemory<T>] and [Vector<T>] are modelled over an explicit program
    state: a store of raw allocations (each a list of slots that are either
    uninitialised or hold a live [T]), a store of [Vector] objects by
    address, and the counters an instrumented element type would keep
    (constructions by kind, destructions, assignments) together with the
    allocation counters of [operator new] / [operator delete].

    Every member function is a computation in a state monad with three
    outcomes: normal return, a C++ exception in flight (the state is kept,
    as after stack unwinding), and undefined behaviour (a failed [assert],
    a read of an uninitialised slot, an access outside an allocation).

    Conventions.
    - [size_t] values are natural numbers, and the doubling of the growth
      paths wraps around as [size_t] does.
    - [operator new] is a parameter of the model, the class [Allocator]:
      it serves a request, throws [std::bad_alloc], or, when the byte count
      [n * sizeof(T)] wraps around, returns a block that is too small.
      [LP64] is the allocator of a machine with a 64-bit [size_t], and
      [unbounded] the one that serves every request in full.  The
      statements of the section [Allocation] hold for every allocator and
      say what they assume of it; the others are about [unbounded].
    - A block is owned by one [RawMemory] at a time ([RawMemory] cannot be
      copied), and [operator new] returns an address that is neither null
      nor in use.
    - The only element operation that may throw is the copy constructor,
      as decided by [copy_throws]; move construction and the assignments
      are modelled as succeeding.
    - An argument handed to [PushBack], [EmplaceBack], [Emplace] or
      [Insert] is an object outside the vector's own storage and is passed
      by its value. *)

From stdpp Require Import gmap list.

(** ** The element type [T] and its traits *)

Class ElementType (T : Type) := {
  (** [T()], the value-initialised element *)
  value_init : T;
  (** the state a move leaves in its source *)
  moved_from : T → T;
  (** [std::is_nothrow_move_constructible_v<T>] *)
  is_nothrow_move_constructible : bool;
  (** [std::is_copy_constructible_v<T>] *)
  is_copy_constructible : bool;
  (** [copy_throws k x]: the copy constructor call number [k] (counted from
      0 over the whole run), copying the value [x], throws *)
  copy_throws : nat → T → bool;
}.

(** ** Instrumentation counters *)

Record Stats := mkStats {
  n_alloc : nat;        (* successful [operator new] calls *)
  n_dealloc : nat;      (* [operator delete] calls on a non-null block *)
  n_ctor_value : nat;   (* [T()] *)
  n_ctor_args : nat;    (* [T(args...)] other than copy and move *)
  n_copy_call : nat;    (* copy constructor calls, throwing ones included *)
  n_ctor_copy : nat;    (* completed copy constructions *)
  n_ctor_move : nat;    (* move constructions *)
  n_dtor : nat;         (* destructor calls *)
  n_assign_copy : nat;  (* copy assignments *)
  n_assign_move : nat;  (* move assignments *)
}.

Definition stats_add (a b : Stats) : Stats :=
  mkStats (n_alloc a + n_alloc b) (n_dealloc a + n_dealloc b)
          (n_ctor_value a + n_ctor_value b) (n_ctor_args a + n_ctor_args b)
          (n_copy_call a + n_copy_call b) (n_ctor_copy a + n_ctor_copy b)
          (n_ctor_move a + n_ctor_move b) (n_dtor a + n_dtor b)
          (n_assign_copy a + n_assign_copy b) (n_assign_move a + n_assign_move b).

Infix "⊕" := stats_add (at level 50, left associativity).

Definition stats_zero : Stats := mkStats 0 0 0 0 0 0 0 0 0 0.
Definition d_alloc : Stats := mkStats 1 0 0 0 0 0 0 0 0 0.
Definition d_dealloc : Stats := mkStats 0 1 0 0 0 0 0 0 0 0.
Definition d_ctor_value : Stats := mkStats 0 0 1 0 0 0 0 0 0 0.
Definition d_ctor_args : Stats := mkStats 0 0 0 1 0 0 0 0 0 0.
Definition d_copy_call : Stats := mkStats 0 0 0 0 1 0 0 0 0 0.
Definition d_ctor_copy : Stats := mkStats 0 0 0 0 0 1 0 0 0 0.
Definition d_ctor_move : Stats := mkStats 0 0 0 0 0 0 1 0 0 0.
Definition d_dtor : Stats := mkStats 0 0 0 0 0 0 0 1 0 0.
Definition d_assign_copy : Stats := mkStats 0 0 0 0 0 0 0 0 1 0.
Definition d_assign_move : Stats := mkStats 0 0 0 0 0 0 0 0 0 1.

(** All element constructions, whatever the constructor. *)
Definition constructions (s : Stats) : nat :=
  n_ctor_value s + n_ctor_args s + n_ctor_copy s + n_ctor_move s.

(** ** Pointers *)

(** A [T*]: the allocation it points into and the slot offset.  Block 0 is
    never allocated: [mkPtr 0 0] is the null pointer. *)
Record Ptr := mkPtr { blk : nat; off : nat }.

#[global] Instance Ptr_eq_dec : EqDecision Ptr.
Proof. solve_decision. Defined.

Definition nullptr : Ptr := mkPtr 0 0.

Definition ptr_add (p : Ptr) (k : nat) : Ptr := mkPtr (blk p) (off p + k).

Infix "+ₚ" := ptr_add (at level 50, left associativity).

(** ** [size_t] *)

(** Sizes, capacities and indices are natural numbers.  [size_t] has
    [SIZE_T_BITS] bits.  The one computation of the vector whose result can
    leave that range while its operands are sizes of existing blocks is the
    doubling [size_ * 2] of the growth paths; it is computed as the machine
    computes it, modulo [2 ^ SIZE_T_BITS]. *)
Definition SIZE_T_BITS : N := 64.

(** [a * b] in [size_t] *)
Definition size_t_mul (a b : nat) : nat :=
  N.to_nat ((N.of_nat a * N.of_nat b) mod 2 ^ SIZE_T_BITS).

Arguments size_t_mul : simpl never.

(** [n] is a value of [size_t] *)
Definition fits (n : nat) : Prop := (N.of_nat n < 2 ^ SIZE_T_BITS)%N.

(** ** Objects *)

Record RawMemory := mkRaw { buffer_ : Ptr; capacity_ : nat }.

Record Vector := mkVec { data_ : RawMemory; size_ : nat }.

(** ** Outcomes *)

Inductive Res (A : Type) : Type :=
| Ok (a : A)
| Throw
| Undef.

Arguments Ok {A} a.
Arguments Throw {A}.
Arguments Undef {A}.

(** ** [RawMemory] objects handed to one another *)

(** The members of [RawMemory] that take another [RawMemory] by reference
    touch the two objects and no memory; they are modelled over the
    [RawMemory] objects of a program, by address.  A member called on an
    address that holds no object is undefined ([None]).

    [RawMemory(RawMemory&& other) noexcept], constructing the object at
    [this]: *)
Definition RawMemory_move_ctor (this other : nat) (rs : gmap nat RawMemory) :
    option (gmap nat RawMemory) :=
  o ← rs !! other;
  Some (<[other := mkRaw nullptr 0]>
          (<[this := mkRaw (buffer_ o) (capacity_ o)]> rs)).

(** [RawMemory::Swap(RawMemory& other) noexcept] *)
Definition RawMemory_Swap (this other : nat) (rs : gmap nat RawMemory) :
    option (gmap nat RawMemory) :=
  a ← rs !! this;
  o ← rs !! other;
  Some (<[other := mkRaw (buffer_ a) (capacity_ a)]>
          (<[this := mkRaw (buffer_ o) (capacity_ o)]> rs)).

(** [RawMemory& operator=(RawMemory&& other) noexcept] *)
Definition RawMemory_move_assign (this other : nat) (rs : gmap nat RawMemory) :
    option (gmap nat RawMemory) :=
  if decide (this ≠ other) then RawMemory_Swap this other rs
  else _ ← rs !! this; Some rs.

(** No block is held by two [RawMemory] objects. *)
Definition unique_owners (rs : gmap nat RawMemory) : Prop :=
  ∀ a b ra rb, a ≠ b → rs !! a = Some ra → rs !! b = Some rb →
    buffer_ ra ≠ nullptr → buffer_ ra ≠ buffer_ rb.

Section Model.
Context {T : Type} {ET : ElementType T}.

(** ** Program state *)

Record State := mkState {
  (** raw allocations: block address to slots; [None] is an uninitialised
      slot, [Some x] a live element *)
  blocks : gmap nat (list (option T));
  (** the [Vector] objects, by address *)
  objs : gmap nat Vector;
  stats : Stats;
}.

Definition M (A : Type) : Type := State → Res A * State.

#[global] Instance M_ret : MRet M := λ A a st, (Ok a, st).

#[global] Instance M_bind : MBind M := λ A B f m st,
  match m st with
  | (Ok a, st') => f a st'
  | (Throw, st') => (Throw, st')
  | (Undef, st') => (Undef, st')
  end.

Definition throw {A} : M A := λ st, (Throw, st).
Definition undef {A} : M A := λ st, (Undef, st).

(** [try { m } catch (...) { cleanup; throw; }].  The handlers of this
    program are destructors and the rollback loops of the standard
    algorithms, which do not throw. *)
Definition on_throw {A} (m : M A) (cleanup : M unit) : M A := λ st,
  match m st with
  | (Throw, st') =>
      match cleanup st' with
      | (Ok _, st'') => (Throw, st'')
      | (_, st'') => (Undef, st'')
      end
  | r => r
  end.

(** A local object whose destructor [cleanup] runs when its scope is left,
    normally or by an exception. *)
Definition finally {A} (m : M A) (cleanup : M unit) : M A :=
  a ← on_throw m cleanup; cleanup;; mret a.

Definition stat {A} (f : Stats → A) : M A := λ st, (Ok (f (stats st)), st).

Definition bump (d : Stats) (st : State) : State :=
  mkState (blocks st) (objs st) (stats st ⊕ d).

Definition tick (d : Stats) : M unit := λ st, (Ok tt, bump d st).

(** ** Memory *)

Definition cell (st : State) (p : Ptr) : option (option T) :=
  blocks st !! blk p ≫= λ cs, cs !! off p.

(** Reading [*p]: the slot must hold a live element. *)
Definition load (p : Ptr) : M T := λ st,
  match cell st p with
  | Some (Some x) => (Ok x, st)
  | _ => (Undef, st)
  end.

(** The state after writing the slot at [p] *)
Definition write (p : Ptr) (c : option T) (st : State) : State :=
  mkState (alter (λ cs, <[off p := c]> cs) (blk p) (blocks st)) (objs st) (stats st).

(** Writing the slot at [p], which must lie inside its allocation. *)
Definition store (p : Ptr) (c : option T) : M unit := λ st,
  match cell st p with
  | Some _ => (Ok tt, write p c st)
  | None => (Undef, st)
  end.

(** [p - k] *)
Definition ptr_sub (p : Ptr) (k : nat) : M Ptr :=
  if decide (k ≤ off p) then mret (mkPtr (blk p) (off p - k)) else undef.

(** [p - q], for pointers into one allocation with [q] not after [p] *)
Definition ptr_diff (p q : Ptr) : M nat :=
  if decide (blk p = blk q ∧ off q ≤ off p) then mret (off p - off q) else undef.

(** ** [operator new]

    [RawMemory::Allocate(n)] calls [operator new(n * sizeof(T))].  The
    product is computed in [size_t], and [operator new] either throws
    [std::bad_alloc] or returns a block of that many bytes; both depend on
    the platform.  [operator_new st n] is the outcome of that call for a
    request of [n] elements in the state [st]: [None] when it throws,
    [Some k] when it returns a block with room for [k] elements. *)
Class Allocator := {
  operator_new : State → nat → option nat;
}.

(** The allocator of a machine with a 64-bit [size_t] on which [sizeof(T)]
    is [sizeof_T] and [operator new] serves the requests of at most
    [max_request] bytes: the byte count is [n * sizeof(T)] modulo
    [2 ^ 64], and the block has room for as many elements as its bytes
    hold. *)
Definition LP64 (sizeof_T max_request : nat) : Allocator :=
  {| operator_new := λ _ n,
       let bytes := size_t_mul n sizeof_T in
       if decide (bytes ≤ max_request) then Some (bytes `div` sizeof_T)
       else None |}.

(** The allocator that serves every request in full: memory without
    bound. *)
Definition unbounded : Allocator := {| operator_new := λ _ n, Some n |}.

Context {alloc : Allocator}.

(** [RawMemory::Allocate] *)
Definition Allocate (n : nat) : M Ptr := λ st,
  if decide (n ≠ 0) then
    match operator_new st n with
    | Some k =>
        let b := fresh ({[0]} ∪ dom (blocks st)) in
        (Ok (mkPtr b 0),
         mkState (<[b := replicate k None]> (blocks st)) (objs st)
                 (stats st ⊕ d_alloc))
    | None => (Throw, st)
    end
  else (Ok nullptr, st).

(** [RawMemory::Deallocate]: [operator delete], a no-op on the null pointer *)
Definition Deallocate (buf : Ptr) : M unit := λ st,
  if decide (buf = nullptr) then (Ok tt, st)
  else
    match blocks st !! blk buf with
    | Some _ =>
        if decide (off buf = 0)
        then (Ok tt, mkState (delete (blk buf) (blocks st)) (objs st) (stats st ⊕ d_dealloc))
        else (Undef, st)
    | None => (Undef, st)
    end.

(** [explicit RawMemory(size_t capacity)] for a local or a member *)
Definition RawMemory_new (capacity : nat) : M RawMemory :=
  buf ← Allocate capacity; mret (mkRaw buf capacity).

(** [~RawMemory()] *)
Definition RawMemory_delete (rm : RawMemory) : M unit := Deallocate (buffer_ rm).

(** [RawMemory::operator[]] with its assertion; yields the slot's address *)
Definition RawMemory_at (rm : RawMemory) (index : nat) : M Ptr :=
  if decide (index < capacity_ rm) then mret (buffer_ rm +ₚ index) else undef.

(** ** Element lifetime *)

(** [new (dst) T{*src}] *)
Definition copy_construct (dst src : Ptr) : M unit :=
  x ← load src;
  k ← stat n_copy_call;
  tick d_copy_call;;
  if copy_throws k x then throw
  else store dst (Some x);; tick d_ctor_copy.

(** [new (dst) T{std::move( *src)}] *)
Definition move_construct (dst src : Ptr) : M unit :=
  x ← load src;
  store dst (Some x);;
  store src (Some (moved_from x));;
  tick d_ctor_move.

(** [new (p) T()] *)
Definition value_construct (p : Ptr) : M unit :=
  store p (Some value_init);; tick d_ctor_value.

(** [p->~T()] *)
Definition destroy_at (p : Ptr) : M unit :=
  _ ← load p; store p None;; tick d_dtor.

(** [*dst = *src] *)
Definition copy_assign (dst src : Ptr) : M unit :=
  x ← load src; _ ← load dst;
  store dst (Some x);; tick d_assign_copy.

(** [*dst = std::move( *src)] *)
Definition move_assign (dst src : Ptr) : M unit :=
  x ← load src; _ ← load dst;
  store dst (Some x);;
  store src (Some (moved_from x));;
  tick d_assign_move.

(** The forwarded constructor arguments of [PushBack], [EmplaceBack],
    [Emplace] and [Insert]: an lvalue of type [T] (copy), an rvalue of type
    [T] (move), or anything else from which [T] is built with value [x]. *)
Inductive Arg :=
| CopyOf (x : T)
| MoveOf (x : T)
| FromArgs (x : T).

Definition arg_value (a : Arg) : T :=
  match a with CopyOf x | MoveOf x | FromArgs x => x end.

(** Running the constructor [T(std::forward<Args>(args)...)] *)
Definition build (a : Arg) : M T :=
  match a with
  | CopyOf x =>
      k ← stat n_copy_call;
      tick d_copy_call;;
      if copy_throws k x then throw else tick d_ctor_copy;; mret x
  | MoveOf x => tick d_ctor_move;; mret x
  | FromArgs x => tick d_ctor_args;; mret x
  end.

(** [new (p) T(std::forward<Args>(args)...)] *)
Definition construct_at (p : Ptr) (a : Arg) : M unit :=
  x ← build a; store p (Some x).

(** [*dst = tmp] and [*dst = std::move(tmp)] for a local [T tmp] *)
Definition copy_assign_local (dst : Ptr) (tmp : T) : M unit :=
  _ ← load dst; store dst (Some tmp);; tick d_assign_copy.

Definition move_assign_local (dst : Ptr) (tmp : T) : M unit :=
  _ ← load dst; store dst (Some tmp);; tick d_assign_move.

(** The destructor of a local [T] *)
Definition destroy_local : M unit := tick d_dtor.

(** ** The standard algorithms the vector calls *)

(** [std::destroy_n(first, n)] *)
Fixpoint destroy_n (first : Ptr) (n : nat) : M unit :=
  match n with
  | 0 => mret tt
  | S n' => destroy_at first;; destroy_n (first +ₚ 1) n'
  end.

(** The loop of [std::uninitialized_copy_n] / [std::uninitialized_move_n]:
    [done] elements are already built at [d_first]; when building the next
    one throws, the [done] elements built so far are destroyed and the
    exception is rethrown. *)
Fixpoint uninitialized_from (ctor : Ptr → Ptr → M unit)
    (first d_first : Ptr) (done n : nat) : M unit :=
  match n with
  | 0 => mret tt
  | S n' =>
      on_throw (ctor (d_first +ₚ done) (first +ₚ done)) (destroy_n d_first done);;
      uninitialized_from ctor first d_first (S done) n'
  end.

Definition uninitialized_copy_n (first : Ptr) (n : nat) (d_first : Ptr) : M unit :=
  uninitialized_from copy_construct first d_first 0 n.

Definition uninitialized_move_n (first : Ptr) (n : nat) (d_first : Ptr) : M unit :=
  uninitialized_from move_construct first d_first 0 n.

(** [std::uninitialized_copy(first, last, d_first)] and its move twin *)
Definition uninitialized_copy (first last d_first : Ptr) : M unit :=
  n ← ptr_diff last first; uninitialized_copy_n first n d_first.

Definition uninitialized_move (first last d_first : Ptr) : M unit :=
  n ← ptr_diff last first; uninitialized_move_n first n d_first.

(** [std::uninitialized_value_construct_n(first, n)] *)
Definition uninitialized_value_construct_n (first : Ptr) (n : nat) : M unit :=
  uninitialized_from (λ dst _, value_construct dst) first first 0 n.

(** The forward assignment loop of [std::copy] / [std::move] *)
Fixpoint assign_forward (assign : Ptr → Ptr → M unit)
    (first : Ptr) (n : nat) (d_first : Ptr) : M unit :=
  match n with
  | 0 => mret tt
  | S n' => assign d_first first;; assign_forward assign (first +ₚ 1) n' (d_first +ₚ 1)
  end.

(** The backward assignment loop of [std::copy_backward] /
    [std::move_backward] *)
Fixpoint assign_backward (assign : Ptr → Ptr → M unit)
    (last : Ptr) (n : nat) (d_last : Ptr) : M unit :=
  match n with
  | 0 => mret tt
  | S n' =>
      l ← ptr_sub last 1;
      d ← ptr_sub d_last 1;
      assign d l;;
      assign_backward assign l n' d
  end.

Definition std_copy (first last d_first : Ptr) : M unit :=
  n ← ptr_diff last first; assign_forward copy_assign first n d_first.

Definition std_move (first last d_first : Ptr) : M unit :=
  n ← ptr_diff last first; assign_forward move_assign first n d_first.

Definition std_copy_backward (first last d_last : Ptr) : M unit :=
  n ← ptr_diff last first; assign_backward copy_assign last n d_last.

Definition std_move_backward (first last d_last : Ptr) : M unit :=
  n ← ptr_diff last first; assign_backward move_assign last n d_last.

(** ** [Vector<T>]: access to the object at address [this] *)

Definition vec (this : nat) : M Vector := λ st,
  match objs st !! this with
  | Some v => (Ok v, st)
  | None => (Undef, st)
  end.

Definition set_vec (this : nat) (v : Vector) : M unit := λ st,
  (Ok tt, mkState (blocks st) (<[this := v]> (objs st)) (stats st)).

(** The end of the lifetime of the object at [this] *)
Definition drop_vec (this : nat) : M unit := λ st,
  (Ok tt, mkState (blocks st) (delete this (objs st)) (stats st)).

(** The address of a new local [Vector] *)
Definition local_vec : M nat := λ st, (Ok (fresh (dom (objs st))), st).

Definition set_size (this : nat) (n : nat) : M unit :=
  v ← vec this; set_vec this (mkVec (data_ v) n).

(** [data_.Swap(temp)] for a local [RawMemory temp]; yields the new [temp] *)
Definition data_Swap (this : nat) (temp : RawMemory) : M RawMemory :=
  v ← vec this; set_vec this (mkVec temp (size_ v));; mret (data_ v).

(** The [if constexpr] condition of every transplant:
    [is_nothrow_move_constructible_v<T> || !is_copy_constructible_v<T>] *)
Definition move_if_safe : bool :=
  is_nothrow_move_constructible || negb is_copy_constructible.

(** ** [Vector<T>]: member functions *)

Definition Size (this : nat) : M nat := v ← vec this; mret (size_ v).

Definition Capacity (this : nat) : M nat := v ← vec this; mret (capacity_ (data_ v)).

Definition begin_ (this : nat) : M Ptr := v ← vec this; mret (buffer_ (data_ v)).

Definition end_ (this : nat) : M Ptr :=
  v ← vec this; mret (buffer_ (data_ v) +ₚ size_ v).

(** [operator[]]: the reference it returns is the slot's address *)
Definition subscript (this : nat) (index : nat) : M Ptr :=
  v ← vec this;
  if decide (index < size_ v) then RawMemory_at (data_ v) index else undef.

(** [Vector() noexcept = default] *)
Definition Vector_default (this : nat) : M unit :=
  set_vec this (mkVec (mkRaw nullptr 0) 0).

(** [Vector(size_t size)] *)
Definition Vector_sized (this : nat) (size : nat) : M unit :=
  data ← RawMemory_new size;
  on_throw (uninitialized_value_construct_n (buffer_ data) size)
           (RawMemory_delete data);;
  set_vec this (mkVec data size).

(** [Vector(const Vector& other)] *)
Definition Vector_copy (this other : nat) : M unit :=
  o ← vec other;
  data ← RawMemory_new (size_ o);
  on_throw (uninitialized_copy_n (buffer_ (data_ o)) (size_ o) (buffer_ data))
           (RawMemory_delete data);;
  set_vec this (mkVec data (size_ o)).

(** [Vector::Swap]: [other.data_.Swap(data_); std::swap(size_, other.size_)] *)
Definition Swap (this other : nat) : M unit :=
  v ← vec this; o ← vec other;
  set_vec other v;; set_vec this o.

(** [Vector(Vector&& other) noexcept] *)
Definition Vector_move (this other : nat) : M unit :=
  set_vec this (mkVec (mkRaw nullptr 0) 0);; Swap this other.

(** [~Vector()], followed by the destructor of the member [data_] *)
Definition Vector_dtor (this : nat) : M unit :=
  v ← vec this;
  destroy_n (buffer_ (data_ v)) (size_ v);;
  RawMemory_delete (data_ v);;
  drop_vec this.

Definition Reserve (this : nat) (new_capacity : nat) : M unit :=
  v ← vec this;
  if decide (new_capacity ≤ capacity_ (data_ v)) then mret tt
  else
    new_data ← RawMemory_new new_capacity;
    on_throw
      (if move_if_safe
       then uninitialized_move_n (buffer_ (data_ v)) (size_ v) (buffer_ new_data)
       else uninitialized_copy_n (buffer_ (data_ v)) (size_ v) (buffer_ new_data))
      (RawMemory_delete new_data);;
    destroy_n (buffer_ (data_ v)) (size_ v);;
    new_data ← data_Swap this new_data;
    RawMemory_delete new_data.

Definition Resize (this : nat) (new_size : nat) : M unit :=
  Reserve this new_size;;
  v ← vec this;
  (if decide (new_size < size_ v)
   then destroy_n (buffer_ (data_ v) +ₚ new_size) (size_ v - new_size)
   else uninitialized_value_construct_n (buffer_ (data_ v) +ₚ size_ v)
                                        (new_size - size_ v));;
  set_size this new_size.

(** [operator=(Vector&& rhs) noexcept]; the reference it returns is [this] *)
Definition assign_move (this rhs : nat) : M nat :=
  (if decide (this ≠ rhs) then Swap this rhs else mret tt);;
  mret this.

(** [operator=(const Vector& rhs)] *)
Definition assign_copy (this rhs : nat) : M nat :=
  (if decide (this ≠ rhs) then
     r ← vec rhs;
     v ← vec this;
     if decide (capacity_ (data_ v) < size_ r) then
       tmp ← local_vec;
       Vector_copy tmp rhs;;
       Swap this tmp;;
       Vector_dtor tmp
     else
       (if decide (size_ r ≤ size_ v) then
          std_copy (buffer_ (data_ r)) (buffer_ (data_ r) +ₚ size_ r)
                   (buffer_ (data_ v));;
          destroy_n (buffer_ (data_ v) +ₚ size_ r) (size_ v - size_ r)
        else
          std_copy (buffer_ (data_ r)) (buffer_ (data_ r) +ₚ size_ v)
                   (buffer_ (data_ v));;
          uninitialized_copy_n (buffer_ (data_ r) +ₚ size_ v) (size_ r - size_ v)
                               (buffer_ (data_ v) +ₚ size_ v));;
       set_size this (size_ r)
   else mret tt);;
  mret this.

Definition PopBack (this : nat) : M unit :=
  e ← end_ this;
  p ← ptr_sub e 1;
  destroy_at p;;
  v ← vec this;
  set_size this (size_ v - 1).

(** [PushBackImpl(U&& value)].  The local [temp] is released by stack
    unwinding when the construction of the new element or the transplant
    throws, and at the end of its scope otherwise. *)
Definition PushBackImpl (this : nat) (value : Arg) : M unit :=
  v ← vec this;
  cap ← Capacity this;
  (if decide (size_ v = cap) then
     temp ← RawMemory_new (if decide (size_ v = 0) then 1 else size_t_mul (size_ v) 2);
     on_throw
       (construct_at (buffer_ temp +ₚ size_ v) value;;
        if move_if_safe
        then uninitialized_move_n (buffer_ (data_ v)) (size_ v) (buffer_ temp)
        else uninitialized_copy_n (buffer_ (data_ v)) (size_ v) (buffer_ temp))
       (RawMemory_delete temp);;
     destroy_n (buffer_ (data_ v)) (size_ v);;
     temp ← data_Swap this temp;
     RawMemory_delete temp
   else construct_at (buffer_ (data_ v) +ₚ size_ v) value);;
  set_size this (S (size_ v)).

(** [PushBack(const T& value)] *)
Definition PushBack_copy (this : nat) (value : T) : M unit :=
  PushBackImpl this (CopyOf value).

(** [PushBack(T&& value)] *)
Definition PushBack_move (this : nat) (value : T) : M unit :=
  PushBackImpl this (MoveOf value).

(** [EmplaceBack(Args&&... args)]; the reference it returns is the address
    of the new last element *)
Definition EmplaceBack (this : nat) (args : Arg) : M Ptr :=
  v ← vec this;
  cap ← Capacity this;
  (if decide (size_ v = cap) then
     temp ← RawMemory_new (if decide (size_ v = 0) then 1 else size_t_mul (size_ v) 2);
     on_throw
       (construct_at (buffer_ temp +ₚ size_ v) args;;
        if move_if_safe
        then uninitialized_move_n (buffer_ (data_ v)) (size_ v) (buffer_ temp)
        else uninitialized_copy_n (buffer_ (data_ v)) (size_ v) (buffer_ temp))
       (RawMemory_delete temp);;
     destroy_n (buffer_ (data_ v)) (size_ v);;
     temp ← data_Swap this temp;
     RawMemory_delete temp
   else construct_at (buffer_ (data_ v) +ₚ size_ v) args);;
  set_size this (S (size_ v));;
  w ← vec this;
  ptr_sub (buffer_ (data_ w) +ₚ size_ w) 1.

(** [Emplace(const_iterator pos, Args&&... args)] *)
Definition Emplace (this : nat) (pos : Ptr) (args : Arg) : M Ptr :=
  b ← begin_ this;
  pos_index ← ptr_diff pos b;
  v ← vec this;
  cap ← Capacity this;
  e ← end_ this;
  if decide (size_ v < cap) then
    if decide (pos = e) then
      construct_at e args;;
      set_size this (S (size_ v));;
      e' ← end_ this;
      ptr_sub e' 1
    else
      tmp ← build args;
      finally
        (last ← ptr_sub e 1;
         (if move_if_safe then
            uninitialized_move last e e;;
            std_move_backward pos last e;;
            slot ← RawMemory_at (data_ v) pos_index;
            move_assign_local slot tmp
          else
            copy_construct e last;;
            uninitialized_copy last e e;;
            std_copy_backward pos last e;;
            slot ← RawMemory_at (data_ v) pos_index;
            copy_assign_local slot tmp);;
         set_size this (S (size_ v));;
         b' ← begin_ this;
         mret (b' +ₚ pos_index))
        destroy_local
  else
    temp ← RawMemory_new (if decide (size_ v = 0) then 1 else size_t_mul (size_ v) 2);
    let new_ptr := buffer_ temp in
    on_throw
      (construct_at (new_ptr +ₚ pos_index) args;;
       (if decide (pos ≠ b) then
          if move_if_safe then uninitialized_move b pos new_ptr
          else uninitialized_copy b pos new_ptr
        else mret tt);;
       (if decide (pos ≠ e) then
          if move_if_safe then uninitialized_move pos e (new_ptr +ₚ pos_index +ₚ 1)
          else uninitialized_copy pos e (new_ptr +ₚ pos_index +ₚ 1)
        else mret tt))
      (RawMemory_delete temp);;
    destroy_n b (size_ v);;
    temp ← data_Swap this temp;
    set_size this (S (size_ v));;
    b' ← begin_ this;
    RawMemory_delete temp;;
    mret (b' +ₚ pos_index).

Definition Erase (this : nat) (pos : Ptr) : M Ptr :=
  b ← begin_ this;
  pos_index ← ptr_diff pos b;
  e ← end_ this;
  (if move_if_safe then std_move (pos +ₚ 1) e pos
   else std_copy (pos +ₚ 1) e pos);;
  last ← ptr_sub e 1;
  destroy_at last;;
  v ← vec this;
  set_size this (size_ v - 1);;
  b' ← begin_ this;
  mret (b' +ₚ pos_index).

(** [Insert(const_iterator pos, const T& value)] *)
Definition Insert_copy (this : nat) (pos : Ptr) (value : T) : M Ptr :=
  Emplace this pos (CopyOf value).

(** [Insert(const_iterator pos, T&& value)] *)
Definition Insert_move (this : nat) (pos : Ptr) (value : T) : M Ptr :=
  Emplace this pos (MoveOf value).

(** ** Observing a vector *)

(** [read st this index]: the element read through [operator[]], when
    that read is defined. *)
Definition read (st : State) (this : nat) (index : nat) : option T :=
  match (p ← subscript this index; load p) st with
  | (Ok x, _) => Some x
  | _ => None
  end.

(** [contents st this]: the elements read at the indices
    [0 .. Size() - 1], when the vector at [this] exists and each of these
    reads is defined. *)
Definition contents (st : State) (this : nat) : option (list T) :=
  v ← objs st !! this;
  mapM (read st this) (seq 0 (size_ v)).

(** ** Specification vocabulary *)

(** [wp m st Q E]: run from [st], the computation [m] has no undefined
    behaviour, and it either returns a value and a state satisfying [Q] or
    throws in a state satisfying [E]. *)
Definition wp {A} (m : M A) (st : State) (Q : A → State → Prop) (E : State → Prop) : Prop :=
  match m st with
  | (Ok a, st') => Q a st'
  | (Throw, st') => E st'
  | (Undef, _) => False
  end.

(** Some copy constructor call throws. *)
Definition fired : Prop := ∃ k x, copy_throws k x = true.

(** [owns st this b xs cap]: the vector at [this] has buffer [b], capacity
    [cap] and length [length xs]; slot [i] of the buffer holds [xs !! i]
    when [i < length xs] and is uninitialised when [length xs ≤ i < cap]. *)
Definition owns (st : State) (this : nat) (b : nat) (xs : list T) (cap : nat) : Prop :=
  objs st !! this = Some (mkVec (mkRaw (mkPtr b 0) cap) (length xs)) ∧
  length xs ≤ cap ∧
  (cap = 0 ↔ b = 0) ∧
  ∀ i, i < cap → cell st (mkPtr b i) = Some (xs !! i).

(** [n] times the same increment *)
Definition stats_scale (n : nat) (d : Stats) : Stats :=
  mkStats (n * n_alloc d) (n * n_dealloc d) (n * n_ctor_value d) (n * n_ctor_args d)
          (n * n_copy_call d) (n * n_ctor_copy d) (n * n_ctor_move d) (n * n_dtor d)
          (n * n_assign_copy d) (n * n_assign_move d).

(** Applying [f] to the element a slot holds, if it holds one *)
Definition cell_map (f : T → T) (c : option (option T)) : option (option T) :=
  match c with
  | Some (Some x) => Some (Some (f x))
  | _ => c
  end.

(** [mem_post st st' δ f]: from [st] to [st'] no [Vector] object changed,
    the counters grew by [δ], and the slots of [st'] are given by [f]. *)
Definition mem_post (st st' : State) (δ : Stats) (f : Ptr → option (option T)) : Prop :=
  objs st' = objs st ∧ stats st' = stats st ⊕ δ ∧ ∀ p, cell st' p = f p.

(** The contract shared by the element operations that carry a value from
    [src] to [dst]: the copy and move constructors ([needs_live = false],
    the destination is raw storage or not) and the copy and move
    assignments ([needs_live = true], the destination holds an element).
    [after] is what the operation leaves in the source, [δ] what a
    completed call counts, and [δt] what a throwing call counts when the
    operation can throw at all. *)
Definition transfers (needs_live : bool) (op : Ptr → Ptr → M unit)
    (after : T → T) (δ : Stats) (δt : option Stats) : Prop :=
  ∀ dst src x st (Q : unit → State → Prop) (E : State → Prop),
    cell st src = Some (Some x) →
    (if needs_live then ∃ y, cell st dst = Some (Some y) else is_Some (cell st dst)) →
    (∀ st', mem_post st st' δ (λ p,
        if decide (blk p = blk src ∧ off p = off src) then Some (Some (after x))
        else if decide (blk p = blk dst ∧ off p = off dst) then Some (Some x)
        else cell st p) → Q tt st') →
    (∀ δ' st', δt = Some δ' → mem_post st st' δ' (cell st) → fired → E st') →
    wp (op dst src) st Q E.

(** What the constructor call [T(std::forward<Args>(args)...)] counts when
    it completes *)
Definition arg_stats (a : Arg) : Stats :=
  match a with
  | CopyOf _ => d_copy_call ⊕ d_ctor_copy
  | MoveOf _ => d_ctor_move
  | FromArgs _ => d_ctor_args
  end.

(** What the transplant of one element counts when it completes *)
Definition transplant_stats : Stats :=
  if move_if_safe then d_ctor_move else d_copy_call ⊕ d_ctor_copy.

(** What releasing a buffer of capacity [cap] counts *)
Definition release_stats (cap : nat) : Stats :=
  if decide (cap = 0) then stats_zero else d_dealloc.

(** What the transplant leaves in the source slot *)
Definition transplant_after : T → T :=
  if move_if_safe then moved_from else id.

(** What [Emplace] counts when the capacity suffices: inserting at the end
    is one construction; inserting before [len] builds a local [tmp],
    extends the tail (one move construction, or the two copy constructions
    of the copy branch), assigns [len - i] times and destroys [tmp]. *)
Definition emplace_in_place_stats (a : Arg) (i len : nat) : Stats :=
  if decide (i = len) then arg_stats a
  else arg_stats a
       ⊕ (if move_if_safe
          then d_ctor_move ⊕ stats_scale (len - i) d_assign_move
          else stats_scale 2 (d_copy_call ⊕ d_ctor_copy)
               ⊕ stats_scale (len - i) d_assign_copy)
       ⊕ d_dtor.

(** ** Programs and scenarios the properties speak about *)

(** One append: [PushBack(const T&)] or [PushBack(T&&)] *)
Inductive Append :=
| ByCopy (x : T)
| ByMove (x : T).

Definition append_value (a : Append) : T :=
  match a with ByCopy x | ByMove x => x end.

Definition do_append (this : nat) (a : Append) : M unit :=
  match a with
  | ByCopy x => PushBack_copy this x
  | ByMove x => PushBack_move this x
  end.

(** A sequence of appends, in order *)
Fixpoint appends (this : nat) (l : list Append) : M unit :=
  match l with
  | [] => mret tt
  | a :: l' => do_append this a;; appends this l'
  end.

(** The operations that may reallocate.  An insert position is given by
    its index: the iterator passed is [begin() + i]. *)
Inductive GrowthOp :=
| DoReserve (new_capacity : nat)
| DoPushBack (value : Arg)
| DoEmplaceBack (args : Arg)
| DoEmplace (i : nat) (args : Arg).

Definition run_growth (this : nat) (op : GrowthOp) : M unit :=
  match op with
  | DoReserve n => Reserve this n
  | DoPushBack a => PushBackImpl this a
  | DoEmplaceBack a => EmplaceBack this a;; mret tt
  | DoEmplace i a => pos ← begin_ this; Emplace this (pos +ₚ i) a;; mret tt
  end.

(** [reallocates op len cap]: on a vector of length [len] and capacity
    [cap] the operation [op] is well-formed and takes its growth path, and
    the doubled capacity, where one is computed, is a value of [size_t]. *)
Definition reallocates (op : GrowthOp) (len cap : nat) : Prop :=
  match op with
  | DoReserve n => cap < n
  | DoPushBack _ | DoEmplaceBack _ => len = cap ∧ fits (2 * cap)
  | DoEmplace i _ => len = cap ∧ i ≤ len ∧ fits (2 * cap)
  end.

(** What the construction of the new element counts *)
Definition new_element_stats (op : GrowthOp) : Stats :=
  match op with
  | DoReserve _ => stats_zero
  | DoPushBack a | DoEmplaceBack a | DoEmplace _ a => arg_stats a
  end.

(** The mutators of one vector.  Positions are given by index: the
    iterator passed is [begin() + i]. *)
Inductive Op :=
| OpPushBack (value : Arg)
| OpEmplaceBack (args : Arg)
| OpEmplace (i : nat) (args : Arg)
| OpErase (i : nat)
| OpPopBack
| OpResize (new_size : nat)
| OpReserve (new_capacity : nat).

Definition run_op (this : nat) (op : Op) : M unit :=
  match op with
  | OpPushBack a => PushBackImpl this a
  | OpEmplaceBack a => EmplaceBack this a;; mret tt
  | OpEmplace i a => pos ← begin_ this; Emplace this (pos +ₚ i) a;; mret tt
  | OpErase i => pos ← begin_ this; Erase this (pos +ₚ i);; mret tt
  | OpPopBack => PopBack this
  | OpResize n => Resize this n
  | OpReserve n => Reserve this n
  end.

(** The preconditions of the mutators on a vector of length [len] *)
Definition op_defined (op : Op) (len : nat) : Prop :=
  match op with
  | OpEmplace i _ => i ≤ len
  | OpErase i => i < len
  | OpPopBack => 0 < len
  | _ => True
  end.

(** [Emplace] strictly before the end of a vector with spare capacity *)
Definition inserts_in_place (op : Op) (len cap : nat) : Prop :=
  match op with
  | OpEmplace i _ => i < len ∧ len < cap
  | _ => False
  end.

(** The data-model invariant of the vector at [this]: its length does not
    exceed its capacity, the slots below the length hold live elements and
    the slots from the length up to the capacity are uninitialised. *)
Definition vector_invariant (st : State) (this : nat) : Prop :=
  ∃ b xs cap, owns st this b xs cap.

(** The state of a program that has not allocated or counted anything *)
Definition initial_state : State := mkState ∅ ∅ stats_zero.

(** ** Sequences of mutators *)

(** The mutators of a list, in order; the first exception ends the run *)
Fixpoint run_ops (this : nat) (ops : list Op) : M unit :=
  match ops with
  | [] => mret tt
  | op :: ops' => run_op this op;; run_ops this ops'
  end.

(** The length a mutator leaves on a vector of length [len] *)
Definition op_length (op : Op) (len : nat) : nat :=
  match op with
  | OpPushBack _ | OpEmplaceBack _ | OpEmplace _ _ => S len
  | OpErase _ | OpPopBack => len - 1
  | OpResize n => n
  | OpReserve _ => len
  end.

(** The capacity a mutator leaves on a vector of length [len] and capacity
    [cap] *)
Definition op_capacity (op : Op) (len cap : nat) : nat :=
  match op with
  | OpPushBack _ | OpEmplaceBack _ | OpEmplace _ _ =>
      if decide (len = cap) then (if decide (cap = 0) then 1 else cap * 2) else cap
  | OpErase _ | OpPopBack => cap
  | OpResize n | OpReserve n => if decide (n ≤ cap) then cap else n
  end.

(** The constructions of a mutator that no destruction will match: the
    copy branch of [Emplace] strictly before the end of a vector with spare
    capacity constructs twice at [end()]. *)
Definition op_leak (op : Op) (len cap : nat) : nat :=
  match op with
  | OpEmplace i _ =>
      if decide (i < len ∧ len < cap) then (if move_if_safe then 0 else 1) else 0
  | _ => 0
  end.

(** The preconditions of a sequence of mutators that starts on a vector of
    length [len]; every doubled length is a value of [size_t]. *)
Fixpoint ops_defined (ops : list Op) (len : nat) : Prop :=
  match ops with
  | [] => True
  | op :: ops' =>
      op_defined op len ∧ fits (2 * len) ∧ ops_defined ops' (op_length op len)
  end.

Fixpoint ops_length (ops : list Op) (len : nat) : nat :=
  match ops with
  | [] => len
  | op :: ops' => ops_length ops' (op_length op len)
  end.

Fixpoint ops_capacity (ops : list Op) (len cap : nat) : nat :=
  match ops with
  | [] => cap
  | op :: ops' => ops_capacity ops' (op_length op len) (op_capacity op len cap)
  end.

Fixpoint ops_leaks (ops : list Op) (len cap : nat) : nat :=
  match ops with
  | [] => 0
  | op :: ops' =>
      op_leak op len cap + ops_leaks ops' (op_length op len) (op_capacity op len cap)
  end.

(** A vector from its default construction to its destruction *)
Definition whole_life (this : nat) (ops : list Op) : M unit :=
  Vector_default this;; run_ops this ops;; Vector_dtor this.

(** The request a mutator makes of [operator new] on a vector of length
    [len] and capacity [cap], if it makes one *)
Definition op_request (op : Op) (len cap : nat) : option nat :=
  match op with
  | OpPushBack _ | OpEmplaceBack _ =>
      if decide (len = cap)
      then Some (if decide (len = 0) then 1 else size_t_mul len 2) else None
  | OpEmplace _ _ =>
      if decide (len < cap) then None
      else Some (if decide (len = 0) then 1 else size_t_mul len 2)
  | OpResize n | OpReserve n => if decide (n ≤ cap) then None else Some n
  | OpErase _ | OpPopBack => None
  end.

(** [served st op len cap]: in the state [st], [operator new] serves the
    request of [op], if it makes one, in full. *)
Definition served (st : State) (op : Op) (len cap : nat) : Prop :=
  ∀ n, op_request op len cap = Some n → operator_new st n = Some n.

(** [served_or_refused st op len cap]: [operator new] serves the request
    of [op] in full or throws; it does not return a block that is too
    small. *)
Definition served_or_refused (st : State) (op : Op) (len cap : nat) : Prop :=
  ∀ n, op_request op len cap = Some n →
    operator_new st n = Some n ∨ operator_new st n = None.

(** Every request of a sequence of mutators is served in full, whatever
    the state it is made in. *)
Fixpoint ops_served (ops : list Op) (len cap : nat) : Prop :=
  match ops with
  | [] => True
  | op :: ops' =>
      (∀ st, served st op len cap) ∧
      ops_served ops' (op_length op len) (op_capacity op len cap)
  end.

(** The live elements and blocks the counters of [s] account for, beyond
    those of [s0] *)
Definition live_elements (s0 s : Stats) : Z :=
  (Z.of_nat (constructions s) - Z.of_nat (constructions s0))
  - (Z.of_nat (n_dtor s) - Z.of_nat (n_dtor s0)).

Definition live_blocks (s0 s : Stats) : Z :=
  (Z.of_nat (n_alloc s) - Z.of_nat (n_alloc s0))
  - (Z.of_nat (n_dealloc s) - Z.of_nat (n_dealloc s0)).

(** The blocks a vector of capacity [cap] holds *)
Definition blocks_held (cap : nat) : Z := if decide (cap = 0) then 0 else 1.

End Model.

#[global] Existing Instance unbounded | 100.

(** ** Concrete element types and scenarios *)

(** An instrumented element type over [nat] whose move constructor is not
    [noexcept] and whose copy constructor call number [k] throws. *)
Definition Throwing (k : nat) : ElementType nat :=
  {| value_init := 0;
     moved_from := λ _, 0;
     is_nothrow_move_constructible := false;
     is_copy_constructible := true;
     copy_throws := λ n _, bool_decide (n = k) |}.

(** The same type with a copy constructor that never throws. *)
Definition Copying : ElementType nat :=
  {| value_init := 0;
     moved_from := λ _, 0;
     is_nothrow_move_constructible := false;
     is_copy_constructible := true;
     copy_throws := λ _ _, false |}.

(** An element type over [nat] with a [noexcept] move constructor. *)
Definition Movable : ElementType nat :=
  {| value_init := 0;
     moved_from := λ _, 0;
     is_nothrow_move_constructible := true;
     is_copy_constructible := true;
     copy_throws := λ _ _, false |}.

(** [v.Reserve(4); v.PushBack(10); v.PushBack(20); v.PushBack(30)] on a
    default-constructed vector [v] at address 1: contents [10; 20; 30],
    capacity 4. *)
Definition three_of_four (ET : ElementType nat) : State :=
  snd ((Vector_default 1;; Reserve 1 4;;
        PushBack_move 1 10;; PushBack_move 1 20;; PushBack_move 1 30)
       initial_state).

(** [v.Reserve(2); v.PushBack(10)] on a default-constructed vector at
    address 1: contents [10], capacity 2. *)
Definition one_of_two (ET : ElementType nat) : State :=
  snd ((Vector_default 1;; Reserve 1 2;; PushBack_move 1 10) initial_state).

(** [v.PushBack(10); v.PushBack(20)] on a default-constructed vector at
    address 1: contents [10; 20], capacity 2, no room left. *)
Definition two_of_two (ET : ElementType nat) : State :=
  snd ((Vector_default 1;; PushBack_move 1 10;; PushBack_move 1 20)
       initial_state).

(** The states reached from these by single operations. *)

(** A default-constructed vector at address 1 *)
Definition empty_vector : State :=
  snd (Vector_default (T := nat) 1 initial_state).

(** [v.PushBack(a); v.PushBack(std::move(b)); v.PushBack(c)] with values
    5, 6, 7 on [empty_vector] *)
Definition after_appends : State :=
  snd (appends (ET := Copying) 1 [ByCopy 5; ByMove 6; ByCopy 7] empty_vector).

(** [v.Reserve(8)] on [three_of_four] *)
Definition after_reserve : State :=
  snd (Reserve (ET := Copying) 1 8 (three_of_four Copying)).

(** [v.Resize(5)] on [three_of_four] *)
Definition after_resize : State :=
  snd (Resize (ET := Copying) 1 5 (three_of_four Copying)).

(** [v.PushBack(x)] with value 30 on [two_of_two] *)
Definition after_growing_push : State :=
  snd (run_growth (ET := Copying) 1 (DoPushBack (CopyOf 30)) (two_of_two Copying)).

(** [v.Emplace(v.begin() + 1, x)] with value 15 on [two_of_two] *)
Definition after_growing_emplace : State :=
  snd (run_growth (ET := Copying) 1 (DoEmplace 1 (CopyOf 15)) (two_of_two Copying)).

(** [v.Insert(v.begin() + 1, x)] with value 15 on [three_of_four] *)
Definition after_insert : State :=
  snd (Emplace (ET := Copying) 1 (mkPtr 1 1) (CopyOf 15) (three_of_four Copying)).

(** [v.Erase(v.begin() + 1)] on [three_of_four] *)
Definition after_erase : State :=
  snd (Erase (ET := Copying) 1 (mkPtr 1 1) (three_of_four Copying)).

(** [v.PushBack(std::move(x))] on [two_of_two], where the first copy of the
    transplant throws *)
Definition after_failed_push : State :=
  snd (PushBack_move (ET := Throwing 1) 1 30 (two_of_two (Throwing 1))).

(** [v.Insert(v.begin(), x)] on [one_of_two], where the third copy
    constructor call of the insert throws *)
Definition after_failed_insert : State :=
  snd (Insert_copy (ET := Throwing 2) 1 (mkPtr 1 0) 5 (one_of_two (Throwing 2))).

(** Two vectors: one at address 1 with contents [10; 20; 30] and capacity
    4, one at address 2 with contents [7] and capacity 4. *)
Definition two_vectors (ET : ElementType nat) : State :=
  snd ((Vector_default 1;; Reserve 1 4;;
        PushBack_move 1 10;; PushBack_move 1 20;; PushBack_move 1 30;;
        Vector_default 2;; Reserve 2 4;; PushBack_move 2 7)
       initial_state).

(** A run through every mutator: two appends, the second of which
    reallocates, a [Reserve], an insert before the end with spare
    capacity, an [Erase], a [Resize] beyond the capacity and a
    [PopBack]. *)
Definition sample_ops : list (@Op nat) :=
  [OpPushBack (CopyOf 1); OpPushBack (MoveOf 2); OpReserve 4;
   OpEmplace 1 (CopyOf 3); OpErase 0; OpResize 5; OpPopBack].

(** A machine on which an element takes 8 bytes and [operator new] serves
    the requests of at most 1024 bytes *)
Definition machine : @Allocator nat := LP64 8 1024.

(** Two [RawMemory] objects, at addresses 1 and 2, each with a block of
    its own *)
Definition two_buffers : gmap nat RawMemory :=
  <[1 := mkRaw (mkPtr 1 0) 4]> (<[2 := mkRaw (mkPtr 2 0) 2]> ∅).

(** The contents of the vector at [this], observed in the middle of a
    program *)
Definition snapshot (this : nat) : M (T := nat) (option (list nat)) :=
  λ st, (Ok (contents st this), st).

(** Start empty; append 1, 2, 3; erase at index 1; insert 9 before index 1;
    resize to 1; destroy.  The result lists the contents after the erase,
    after the insert and after the resize. *)
Definition end_to_end (ET : ElementType nat) : M (list (option (list nat))) :=
  Vector_default 1;;
  PushBack_copy 1 1;; PushBack_copy 1 2;; PushBack_copy 1 3;;
  p ← begin_ 1; Erase 1 (p +ₚ 1);;
  c1 ← snapshot 1;
  p ← begin_ 1; Insert_copy 1 (p +ₚ 1) 9;;
  c2 ← snapshot 1;
  Resize 1 1;;
  c3 ← snapshot 1;
  Vector_dtor 1;;
  mret [c1; c2; c3].

(** The constructors and the assignments: [Vector a(3); Vector b(a);
    b.PushBack(7); a = b; Vector c(std::move(b)); c.PopBack(); c.PopBack();
    a = c; a = std::move(c);] and the three destructors.  The result lists
    [a] and [b] after the append, [a] after the first assignment, [b] and
    [c] after the move construction, [a] after the second assignment, and
    [a] and [c] after the move assignment. *)
Definition lifecycle (ET : ElementType nat) : M (list (option (list nat))) :=
  Vector_sized 1 3;;
  Vector_copy 2 1;;
  PushBack_copy 2 7;;
  c1 ← snapshot 1; c2 ← snapshot 2;
  assign_copy 1 2;;
  c3 ← snapshot 1;
  Vector_move 3 2;;
  c4 ← snapshot 2; c5 ← snapshot 3;
  PopBack 3;; PopBack 3;;
  assign_copy 1 3;;
  c6 ← snapshot 1;
  assign_move 1 3;;
  c7 ← snapshot 1; c8 ← snapshot 3;
  Vector_dtor 1;; Vector_dtor 2;; Vector_dtor 3;;
  mret [c1; c2; c3; c4; c5; c6; c7; c8].

(** * Properties *)

(** Rewriting with the slot descriptions of the intermediate states. *)
Ltac cells :=
  repeat match goal with
  | H : ∀ q, cell ?s q = _ |- context [cell ?s _] => rewrite H
  end; simpl.

Ltac cell_cases :=
  cells; repeat case_decide; simpl in *; destruct_and?; simplify_eq;
  try done; try lia.

Ltac cell_index :=
  try (f_equal; f_equal; lia); try (f_equal; f_equal; f_equal; lia).

(** Two counter records are equal when they agree field by field. *)
Lemma stats_eq (a b : Stats) :
  n_alloc a = n_alloc b → n_dealloc a = n_dealloc b →
  n_ctor_value a = n_ctor_value b → n_ctor_args a = n_ctor_args b →
  n_copy_call a = n_copy_call b → n_ctor_copy a = n_ctor_copy b →
  n_ctor_move a = n_ctor_move b → n_dtor a = n_dtor b →
  n_assign_copy a = n_assign_copy b → n_assign_move a = n_assign_move b →
  a = b.
Proof. destruct a, b; simpl; intros; subst; reflexivity. Qed.

Ltac stats_fields :=
  cbn [n_alloc n_dealloc n_ctor_value n_ctor_args n_copy_call n_ctor_copy
       n_ctor_move n_dtor n_assign_copy n_assign_move
       stats_add stats_scale stats_zero d_alloc d_dealloc d_ctor_value
       d_ctor_args d_copy_call d_ctor_copy d_ctor_move d_dtor d_assign_copy
       d_assign_move arg_stats].

(** Equations between counter records. *)
Ltac stats_solve :=
  repeat match goal with
  | H : stats _ = _ |- _ => rewrite H; clear H
  end;
  apply stats_eq; stats_fields; lia.

(** A case distinction on a decision the goal contains *)
Ltac goal_decide :=
  match goal with |- context [decide ?P] => destruct (decide P) end.

(** Equations between the live elements and blocks of two counter
    records *)
Ltac ledger :=
  repeat match goal with
  | H : fits _ |- _ => clear H
  | H : _ → fits _ |- _ => clear H
  end;
  unfold live_elements, live_blocks, blocks_held, constructions,
    transplant_stats, release_stats, emplace_in_place_stats, op_leak in *;
  repeat match goal with
  | H : stats _ = _ |- _ => rewrite H; clear H
  end;
  repeat case_decide;
  repeat match goal with
  | |- context [move_if_safe] => destruct move_if_safe
  | |- context [arg_stats ?a] => is_var a; destruct a
  end;
  stats_fields; lia.

Section Calculus.
Context {T : Type} {ET : ElementType T}.
Implicit Types (st : @State T) (p q : Ptr) (c : option T) (δ : Stats).

(** ** Counters *)

Lemma stats_add_assoc (a b c : Stats) : a ⊕ b ⊕ c = a ⊕ (b ⊕ c).
Proof. stats_solve. Qed.

Lemma stats_add_zero (a : Stats) : a ⊕ stats_zero = a.
Proof. stats_solve. Qed.

Lemma stats_scale_S n δ : stats_scale (S n) δ = δ ⊕ stats_scale n δ.
Proof. stats_solve. Qed.

(** ** [size_t] *)

Lemma size_t_mul_small a b : fits (a * b) → size_t_mul a b = a * b.
Proof.
  unfold fits, size_t_mul. intros Hfit.
  rewrite <- Nat2N.inj_mul, N.mod_small by done. apply Nat2N.id.
Qed.

Lemma doubling_fits n : fits (2 * n) → size_t_mul n 2 = n * 2.
Proof. intros Hfit. apply size_t_mul_small. by rewrite Nat.mul_comm. Qed.

Lemma fits_le m n : fits n → m ≤ n → fits m.
Proof. unfold fits. lia. Qed.

(** ** The weakest-precondition calculus *)

Lemma wp_bind {A B} (m : M A) (f : A → M B) st Q E :
  wp m st (λ a st', wp (f a) st' Q E) E → wp (m ≫= f) st Q E.
Proof.
  unfold wp, mbind, M_bind. destruct (m st) as [[a| |] st']; auto.
Qed.

Lemma wp_ret {A} (a : A) st (Q : A → State → Prop) E : Q a st → wp (mret a) st Q E.
Proof. done. Qed.

Lemma wp_mono {A} (m : M A) st (Q Q' : A → State → Prop) (E E' : State → Prop) :
  wp m st Q E → (∀ a st', Q a st' → Q' a st') → (∀ st', E st' → E' st') →
  wp m st Q' E'.
Proof.
  unfold wp. destruct (m st) as [[a| |] st']; auto.
Qed.

Lemma wp_on_throw {A} (m : M A) cleanup st Q E :
  wp m st Q (λ st', wp cleanup st' (λ _ st'', E st'') (λ _, False)) →
  wp (on_throw m cleanup) st Q E.
Proof.
  unfold wp, on_throw. destruct (m st) as [[a| |] st']; auto.
  destruct (cleanup st') as [[| |] st'']; auto.
Qed.

Lemma wp_finally {A} (m : M A) cleanup st Q E :
  wp m st (λ a st', wp cleanup st' (λ _ st'', Q a st'') (λ _, False))
          (λ st', wp cleanup st' (λ _ st'', E st'') (λ _, False)) →
  wp (finally m cleanup) st Q E.
Proof.
  intros H. unfold finally. apply wp_bind, wp_on_throw.
  eapply wp_mono; [apply H| |]; simpl; intros; [|done].
  apply wp_bind. eapply wp_mono; [eassumption| |done].
  intros; by apply wp_ret.
Qed.

Lemma wp_throw {A} st (Q : A → State → Prop) (E : State → Prop) : E st → wp throw st Q E.
Proof. done. Qed.

(** A type whose copy constructor never throws makes every [Throw]
    alternative below impossible. *)
Lemma silent_copy_never_fires : (∀ k x, copy_throws k x = false) → ¬ fired.
Proof. intros Hsilent (k & x & Hx). by rewrite Hsilent in Hx. Qed.

(** What a [wp] fact says about a run. *)
Lemma wp_run {A} (m : M A) st Q E r st' :
  wp m st Q E → m st = (r, st') →
  (∃ a, r = Ok a ∧ Q a st') ∨ (r = Throw ∧ E st').
Proof.
  unfold wp. intros H Hrun. rewrite Hrun in H. destruct r; eauto; done.
Qed.

(** ** Slots *)

Lemma cell_write p c st q :
  is_Some (cell st p) →
  cell (write p c st) q =
    if decide (blk q = blk p ∧ off q = off p) then Some c else cell st q.
Proof.
  intros [c0 Hc]. unfold cell, write in *. simpl.
  destruct (blocks st !! blk p) as [cs|] eqn:Hb; simpl in Hc; [|done].
  rewrite lookup_alter. case_decide as Hblk.
  - rewrite Hb. simpl. rewrite list_lookup_insert.
    apply lookup_lt_Some in Hc.
    repeat case_decide; destruct_and?; simplify_eq; rewrite <- ?Hblk, ?Hb; simpl;
      try done; try lia; try congruence.
  - case_decide; [|done]. destruct_and?; congruence.
Qed.

Lemma wp_load p x st (Q : T → State → Prop) E :
  cell st p = Some (Some x) → Q x st → wp (load p) st Q E.
Proof. intros Hc HQ. unfold wp, load. by rewrite Hc. Qed.

Lemma wp_store p c st (Q : unit → State → Prop) E :
  is_Some (cell st p) →
  (∀ st', objs st' = objs st → stats st' = stats st →
     (∀ q, cell st' q = if decide (blk q = blk p ∧ off q = off p) then Some c else cell st q) →
     Q tt st') →
  wp (store p c) st Q E.
Proof.
  intros Hc HQ. unfold wp, store. destruct Hc as [c0 Hc]. rewrite Hc.
  apply HQ; [done..|]. intros q. apply cell_write. by rewrite Hc.
Qed.

Lemma wp_tick δ st (Q : unit → State → Prop) E :
  (∀ st', objs st' = objs st → stats st' = stats st ⊕ δ →
     (∀ q, cell st' q = cell st q) → Q tt st') →
  wp (tick δ) st Q E.
Proof. intros HQ. unfold wp, tick. by apply HQ. Qed.

Lemma wp_stat {A} (f : Stats → A) st (Q : A → State → Prop) E :
  Q (f (stats st)) st → wp (stat f) st Q E.
Proof. done. Qed.

Lemma wp_ptr_sub p k st (Q : Ptr → State → Prop) E :
  k ≤ off p → Q (mkPtr (blk p) (off p - k)) st → wp (ptr_sub p k) st Q E.
Proof. intros Hk HQ. unfold ptr_sub. by rewrite decide_True. Qed.

Lemma wp_ptr_diff p q st (Q : nat → State → Prop) E :
  blk p = blk q → off q ≤ off p → Q (off p - off q) st → wp (ptr_diff p q) st Q E.
Proof. intros Hb Ho HQ. unfold ptr_diff. by rewrite decide_True. Qed.

(** ** Allocation *)

Lemma wp_Allocate n st (Q : Ptr → State → Prop) E :
  n ≠ 0 →
  (∀ b st', b ≠ 0 → (∀ i, cell st (mkPtr b i) = None) →
     mem_post st st' d_alloc (λ p,
       if decide (blk p = b) then (if decide (off p < n) then Some None else None)
       else cell st p) →
     Q (mkPtr b 0) st') →
  wp (Allocate n) st Q E.
Proof.
  intros Hn HQ. unfold wp, Allocate. rewrite decide_True by done. simpl.
  set (b := fresh ({[0]} ∪ dom (blocks st))).
  assert (Hfresh : b ∉ ({[0]} ∪ dom (blocks st) : gset nat)) by apply is_fresh.
  assert (Hb0 : b ≠ 0) by set_solver.
  assert (HbN : blocks st !! b = None) by (apply not_elem_of_dom; set_solver).
  apply HQ; [done| |].
  - intros i. unfold cell. simpl. by rewrite HbN.
  - split_and!; [done..|]. intros p. unfold cell. simpl.
    rewrite lookup_insert. repeat case_decide; simplify_eq; simpl; try done.
    + by apply lookup_replicate_2.
    + apply lookup_replicate_None. lia.
Qed.

Lemma wp_Deallocate b st (Q : unit → State → Prop) E :
  b ≠ 0 → is_Some (cell st (mkPtr b 0)) →
  (∀ st', mem_post st st' d_dealloc (λ p, if decide (blk p = b) then None else cell st p) →
     Q tt st') →
  wp (Deallocate (mkPtr b 0)) st Q E.
Proof.
  intros Hb [c Hc] HQ. unfold wp, Deallocate.
  rewrite decide_False by (unfold nullptr; congruence). simpl.
  unfold cell in Hc. simpl in Hc.
  destruct (blocks st !! b) as [cs|] eqn:Hblk; [|done].
  apply HQ. split_and!; [done..|].
  intros p. unfold cell. simpl. rewrite lookup_delete.
  repeat case_decide; simplify_eq; done.
Qed.

Lemma wp_Deallocate_null st (Q : unit → State → Prop) E :
  Q tt st → wp (Deallocate nullptr) st Q E.
Proof. intros HQ. unfold wp, Deallocate. by case_decide. Qed.

(** ** Element lifetime *)

Lemma wp_copy_construct dst src x st (Q : unit → State → Prop) E :
  cell st src = Some (Some x) → is_Some (cell st dst) →
  (∀ st', mem_post st st' (d_copy_call ⊕ d_ctor_copy) (λ p,
      if decide (blk p = blk dst ∧ off p = off dst) then Some (Some x) else cell st p) →
    Q tt st') →
  (∀ st', mem_post st st' d_copy_call (cell st) → fired → E st') →
  wp (copy_construct dst src) st Q E.
Proof.
  intros Hsrc Hdst HQ HE. unfold copy_construct.
  apply wp_bind, (wp_load _ x); [done|]. apply wp_bind, wp_stat.
  apply wp_bind, wp_tick. intros st1 Ho1 Hs1 Hc1.
  destruct (copy_throws _ x) eqn:Hthrow.
  - apply wp_throw, HE; [done|]. by exists (n_copy_call (stats st)), x.
  - apply wp_bind, wp_store; [by rewrite Hc1|]. intros st2 Ho2 Hs2 Hc2.
    apply wp_tick. intros st3 Ho3 Hs3 Hc3. apply HQ. split_and!.
    + congruence.
    + rewrite Hs3, Hs2, Hs1. by rewrite stats_add_assoc.
    + intros p. rewrite Hc3, Hc2, Hc1. done.
Qed.

Lemma copy_construct_transfers :
  transfers false copy_construct id (d_copy_call ⊕ d_ctor_copy) (Some d_copy_call).
Proof.
  intros dst src x st Q E Hsrc Hdst HQ HE.
  apply (wp_copy_construct dst src x);
    [done..| |intros st' Hm Hf; by apply (HE d_copy_call st')].
  intros st' (Ho & Hs & Hc). apply HQ. split_and!; [done..|].
  intros p. rewrite Hc. repeat case_decide; try done.
  destruct p, src; simpl in *; destruct_and?; simplify_eq. done.
Qed.

Lemma move_construct_transfers :
  transfers false move_construct moved_from d_ctor_move None.
Proof.
  intros dst src x st Q E Hsrc Hdst HQ _. unfold move_construct.
  apply wp_bind, (wp_load _ x); [done|].
  apply wp_bind, wp_store; [done|]. intros st1 Ho1 Hs1 Hc1.
  apply wp_bind, wp_store.
  { rewrite Hc1. case_decide; [done|]. by rewrite Hsrc. }
  intros st2 Ho2 Hs2 Hc2.
  apply wp_tick. intros st3 Ho3 Hs3 Hc3. apply HQ. split_and!.
  - congruence.
  - by rewrite Hs3, Hs2, Hs1.
  - intros p. rewrite Hc3, Hc2, Hc1. done.
Qed.

Lemma copy_assign_transfers :
  transfers true copy_assign id d_assign_copy None.
Proof.
  intros dst src x st Q E Hsrc [y Hdst] HQ _. unfold copy_assign.
  apply wp_bind, (wp_load _ x); [done|]. apply wp_bind, (wp_load _ y); [done|].
  apply wp_bind, wp_store; [by rewrite Hdst|]. intros st1 Ho1 Hs1 Hc1.
  apply wp_tick. intros st2 Ho2 Hs2 Hc2. apply HQ. split_and!.
  - congruence.
  - by rewrite Hs2, Hs1.
  - intros p. rewrite Hc2, Hc1. repeat case_decide; try done.
    destruct p, src; simpl in *; destruct_and?; simplify_eq. done.
Qed.

Lemma move_assign_transfers :
  transfers true move_assign moved_from d_assign_move None.
Proof.
  intros dst src x st Q E Hsrc [y Hdst] HQ _. unfold move_assign.
  apply wp_bind, (wp_load _ x); [done|]. apply wp_bind, (wp_load _ y); [done|].
  apply wp_bind, wp_store; [by rewrite Hdst|]. intros st1 Ho1 Hs1 Hc1.
  apply wp_bind, wp_store.
  { rewrite Hc1. case_decide; [done|]. by rewrite Hsrc. }
  intros st2 Ho2 Hs2 Hc2.
  apply wp_tick. intros st3 Ho3 Hs3 Hc3. apply HQ. split_and!.
  - congruence.
  - by rewrite Hs3, Hs2, Hs1.
  - intros p. rewrite Hc3, Hc2, Hc1. repeat case_decide; try done.
Qed.

Lemma wp_destroy_at p x st (Q : unit → State → Prop) E :
  cell st p = Some (Some x) →
  (∀ st', mem_post st st' d_dtor (λ q,
      if decide (blk q = blk p ∧ off q = off p) then Some None else cell st q) →
    Q tt st') →
  wp (destroy_at p) st Q E.
Proof.
  intros Hp HQ. unfold destroy_at.
  apply wp_bind, (wp_load _ x); [done|].
  apply wp_bind, wp_store; [by rewrite Hp|]. intros st1 Ho1 Hs1 Hc1.
  apply wp_tick. intros st2 Ho2 Hs2 Hc2. apply HQ. split_and!.
  - congruence.
  - stats_solve.
  - intros q. by cells.
Qed.

Lemma wp_value_construct p st (Q : unit → State → Prop) E :
  is_Some (cell st p) →
  (∀ st', mem_post st st' d_ctor_value (λ q,
      if decide (blk q = blk p ∧ off q = off p) then Some (Some value_init) else cell st q) →
    Q tt st') →
  wp (value_construct p) st Q E.
Proof.
  intros Hp HQ. unfold value_construct.
  apply wp_bind, wp_store; [done|]. intros st1 Ho1 Hs1 Hc1.
  apply wp_tick. intros st2 Ho2 Hs2 Hc2. apply HQ. split_and!.
  - congruence.
  - stats_solve.
  - intros q. by cells.
Qed.

(** ** The standard algorithms *)

Lemma wp_destroy_n b n : ∀ s st (Q : unit → State → Prop) E,
  (∀ j, j < n → ∃ x, cell st (mkPtr b (s + j)) = Some (Some x)) →
  (∀ st', mem_post st st' (stats_scale n d_dtor) (λ p,
      if decide (blk p = b ∧ s ≤ off p < s + n) then Some None else cell st p) →
    Q tt st') →
  wp (destroy_n (mkPtr b s) n) st Q E.
Proof.
  induction n as [|n IH]; intros s st Q E Hlive HQ; simpl.
  - apply wp_ret, HQ. split_and!; [done|stats_solve|].
    intros p. case_decide; [lia|done].
  - destruct (Hlive 0) as [x Hx]; [lia|]. rewrite Nat.add_0_r in Hx.
    apply wp_bind, (wp_destroy_at _ x); [done|]. intros st1 (Ho1 & Hs1 & Hc1).
    unfold ptr_add; simpl. apply IH.
    + intros j Hj. destruct (Hlive (S j)) as [y Hy]; [lia|]. exists y.
      cells. rewrite decide_False by lia. rewrite <- Hy. f_equal; f_equal; lia.
    + intros st2 (Ho2 & Hs2 & Hc2). apply HQ. split_and!.
      * congruence.
      * stats_solve.
      * intros p. cells. repeat case_decide; try done; lia.
Qed.

Lemma wp_uninitialized_from ctor after δ δt a s b d n :
  transfers false ctor after δ δt →
  ∀ done st (Q : unit → State → Prop) E,
  (∀ j, j < n → ∃ x, cell st (mkPtr a (s + done + j)) = Some (Some x)) →
  (∀ j, j < n → is_Some (cell st (mkPtr b (d + done + j)))) →
  (∀ j, j < done → ∃ x, cell st (mkPtr b (d + j)) = Some (Some x)) →
  (a ≠ b ∨ s + done + n ≤ d ∨ d + done + n ≤ s) →
  (∀ st', mem_post st st' (stats_scale n δ) (λ p,
      if decide (blk p = b ∧ d + done ≤ off p < d + done + n)
      then cell st (mkPtr a (s + (off p - d)))
      else if decide (blk p = a ∧ s + done ≤ off p < s + done + n)
      then cell_map after (cell st p)
      else cell st p) → Q tt st') →
  (∀ δ' st' k, δt = Some δ' → k < n →
     mem_post st st' (stats_scale k δ ⊕ δ' ⊕ stats_scale (done + k) d_dtor) (λ p,
      if decide (blk p = b ∧ d ≤ off p < d + done + k) then Some None
      else if decide (blk p = a ∧ s + done ≤ off p < s + done + k)
      then cell_map after (cell st p)
      else cell st p) → fired → E st') →
  wp (uninitialized_from ctor (mkPtr a s) (mkPtr b d) done n) st Q E.
Proof.
  intros Hctor. induction n as [|n IH]; intros done st Q E Hsrc Hdst Hdone Hdisj HQ HE; simpl.
  - apply wp_ret, HQ. split_and!; [done|stats_solve|].
    intros p. repeat case_decide; try done; lia.
  - destruct (Hsrc 0) as [x Hx]; [lia|]. rewrite Nat.add_0_r in Hx.
    apply wp_bind, wp_on_throw. unfold ptr_add; simpl.
    apply (Hctor _ _ x); [done| |..].
    { specialize (Hdst 0). rewrite Nat.add_0_r in Hdst. apply Hdst. lia. }
    + intros st1 (Ho1 & Hs1 & Hc1). simpl in Hc1. apply IH.
      * intros j Hj. destruct (Hsrc (S j)) as [y Hy]; [lia|]. exists y.
        cells. rewrite !decide_False by lia.
        rewrite <- Hy. f_equal; f_equal; lia.
      * intros j Hj. cells. repeat case_decide; try done.
        destruct (Hdst (S j)) as [y Hy]; [lia|]. exists y.
        rewrite <- Hy. f_equal; f_equal; lia.
      * intros j Hj. cells. rewrite decide_False by lia.
        case_decide; [by eexists|]. apply Hdone. lia.
      * lia.
      * intros st2 (Ho2 & Hs2 & Hc2). apply HQ. split_and!.
        -- congruence.
        -- stats_solve.
        -- intros [pb po]. cells.
           repeat case_decide; simpl in *; destruct_and?; simplify_eq;
             try done; try lia.
           ++ by rewrite Hx.
           ++ rewrite <- Hx. f_equal; f_equal; lia.
      * intros δ' st2 k Hδ Hk (Ho2 & Hs2 & Hc2) Hf.
        apply (HE δ' st2 (S k)); [done|lia| |done].
        split_and!.
        -- congruence.
        -- stats_solve.
        -- intros [pb po]. cells.
           repeat case_decide; simpl in *; destruct_and?; simplify_eq;
             try done; try lia.
           by rewrite Hx.
    + intros δ' st1 Hδ (Ho1 & Hs1 & Hc1) Hf.
      apply wp_destroy_n.
      * intros j Hj. cells. by apply Hdone.
      * intros st2 (Ho2 & Hs2 & Hc2). apply (HE δ' st2 0); [done|lia| |done].
        split_and!.
        -- congruence.
        -- stats_solve.
        -- intros [pb po]. cells.
           repeat case_decide; simpl in *; destruct_and?; simplify_eq;
             try done; try lia.
Qed.

Lemma cell_map_id (c : option (option T)) : cell_map id c = c.
Proof. by destruct c as [[x|]|]. Qed.

Lemma wp_uninitialized_move_n a s b d n st (Q : unit → State → Prop) E :
  (∀ j, j < n → ∃ x, cell st (mkPtr a (s + j)) = Some (Some x)) →
  (∀ j, j < n → is_Some (cell st (mkPtr b (d + j)))) →
  (a ≠ b ∨ s + n ≤ d ∨ d + n ≤ s) →
  (∀ st', mem_post st st' (stats_scale n d_ctor_move) (λ p,
      if decide (blk p = b ∧ d ≤ off p < d + n)
      then cell st (mkPtr a (s + (off p - d)))
      else if decide (blk p = a ∧ s ≤ off p < s + n)
      then cell_map moved_from (cell st p)
      else cell st p) → Q tt st') →
  wp (uninitialized_move_n (mkPtr a s) n (mkPtr b d)) st Q E.
Proof.
  intros Hsrc Hdst Hdisj HQ. unfold uninitialized_move_n.
  apply (wp_uninitialized_from _ _ _ _ a s b d n move_construct_transfers 0).
  - intros j Hj. rewrite Nat.add_0_r. by apply Hsrc.
  - intros j Hj. rewrite Nat.add_0_r. by apply Hdst.
  - intros j Hj. lia.
  - lia.
  - intros st' (Ho & Hs & Hc). apply HQ. split_and!; [done..|].
    intros p. rewrite Hc. rewrite !Nat.add_0_r. done.
  - intros δ' st' k [=].
Qed.

Lemma wp_uninitialized_copy_n a s b d n st (Q : unit → State → Prop) E :
  (∀ j, j < n → ∃ x, cell st (mkPtr a (s + j)) = Some (Some x)) →
  (∀ j, j < n → is_Some (cell st (mkPtr b (d + j)))) →
  (a ≠ b ∨ s + n ≤ d ∨ d + n ≤ s) →
  (∀ st', mem_post st st' (stats_scale n (d_copy_call ⊕ d_ctor_copy)) (λ p,
      if decide (blk p = b ∧ d ≤ off p < d + n)
      then cell st (mkPtr a (s + (off p - d)))
      else cell st p) → Q tt st') →
  (∀ st' k, k < n →
     mem_post st st'
       (stats_scale k (d_copy_call ⊕ d_ctor_copy) ⊕ d_copy_call ⊕ stats_scale k d_dtor)
       (λ p, if decide (blk p = b ∧ d ≤ off p < d + k) then Some None else cell st p) →
     fired → E st') →
  wp (uninitialized_copy_n (mkPtr a s) n (mkPtr b d)) st Q E.
Proof.
  intros Hsrc Hdst Hdisj HQ HE. unfold uninitialized_copy_n.
  apply (wp_uninitialized_from _ _ _ _ a s b d n copy_construct_transfers 0).
  - intros j Hj. rewrite Nat.add_0_r. by apply Hsrc.
  - intros j Hj. rewrite Nat.add_0_r. by apply Hdst.
  - intros j Hj. lia.
  - lia.
  - intros st' (Ho & Hs & Hc). apply HQ. split_and!; [done..|].
    intros p. rewrite Hc. rewrite !Nat.add_0_r, cell_map_id.
    repeat case_decide; done.
  - intros δ' st' k [= <-] Hk (Ho & Hs & Hc) Hf. apply (HE st' k); [done| |done].
    split_and!; [done..|].
    intros p. rewrite Hc. rewrite !Nat.add_0_r, cell_map_id.
    repeat case_decide; done.
Qed.

Lemma wp_uninitialized_value_construct_from b s n : ∀ done st (Q : unit → State → Prop) E,
  (∀ j, j < n → is_Some (cell st (mkPtr b (s + done + j)))) →
  (∀ st', mem_post st st' (stats_scale n d_ctor_value) (λ p,
      if decide (blk p = b ∧ s + done ≤ off p < s + done + n)
      then Some (Some value_init) else cell st p) → Q tt st') →
  wp (uninitialized_from (λ dst _, value_construct dst) (mkPtr b s) (mkPtr b s) done n)
     st Q E.
Proof.
  induction n as [|n IH]; intros done st Q E Hdst HQ; simpl.
  - apply wp_ret, HQ. split_and!; [done|stats_solve|].
    intros p. case_decide; [lia|done].
  - apply wp_bind, wp_on_throw. unfold ptr_add; simpl.
    apply wp_value_construct.
    { specialize (Hdst 0). rewrite Nat.add_0_r in Hdst. apply Hdst. lia. }
    intros st1 (Ho1 & Hs1 & Hc1). simpl in Hc1. apply IH.
    + intros j Hj. cells. case_decide; [done|].
      destruct (Hdst (S j)) as [y Hy]; [lia|]. exists y.
      rewrite <- Hy. f_equal; f_equal; lia.
    + intros st2 (Ho2 & Hs2 & Hc2). apply HQ. split_and!.
      * congruence.
      * stats_solve.
      * intros [pb po]. cells.
        repeat case_decide; simpl in *; destruct_and?; simplify_eq; try done; lia.
Qed.

Lemma wp_uninitialized_value_construct_n b s n st (Q : unit → State → Prop) E :
  (∀ j, j < n → is_Some (cell st (mkPtr b (s + j)))) →
  (∀ st', mem_post st st' (stats_scale n d_ctor_value) (λ p,
      if decide (blk p = b ∧ s ≤ off p < s + n)
      then Some (Some value_init) else cell st p) → Q tt st') →
  wp (uninitialized_value_construct_n (mkPtr b s) n) st Q E.
Proof.
  intros Hdst HQ. unfold uninitialized_value_construct_n.
  apply (wp_uninitialized_value_construct_from b s n 0).
  - intros j Hj. rewrite Nat.add_0_r. by apply Hdst.
  - intros st' (Ho & Hs & Hc). apply HQ. split_and!; [done..|].
    intros p. rewrite Hc. by rewrite !Nat.add_0_r.
Qed.

(** [std::move(first + 1, last, first)] and [std::copy] likewise: the
    elements of a range move one slot to the left. *)
Lemma wp_assign_forward_shift assign after δ b n :
  transfers true assign after δ None →
  ∀ s st (Q : unit → State → Prop) E,
  (∀ j, j ≤ n → ∃ x, cell st (mkPtr b (s + j)) = Some (Some x)) →
  (∀ st', mem_post st st' (stats_scale n δ) (λ p,
      if decide (blk p = b ∧ s ≤ off p < s + n) then cell st (mkPtr b (off p + 1))
      else if decide (blk p = b ∧ off p = s + n ∧ 0 < n) then cell_map after (cell st p)
      else cell st p) → Q tt st') →
  wp (assign_forward assign (mkPtr b (s + 1)) n (mkPtr b s)) st Q E.
Proof.
  intros Hassign. induction n as [|n IH]; intros s st Q E Hlive HQ; simpl.
  - apply wp_ret, HQ. split_and!; [done|stats_solve|].
    intros p. repeat case_decide; try done; lia.
  - destruct (Hlive 1) as [x Hx]; [lia|].
    destruct (Hlive 0) as [y Hy]; [lia|]. rewrite Nat.add_0_r in Hy.
    apply wp_bind. apply (Hassign _ _ x); [done|by exists y| |intros ?? [=]].
    intros st1 (Ho1 & Hs1 & Hc1). simpl in Hc1. unfold ptr_add; simpl. apply IH.
    + intros j Hj. cells. repeat case_decide; try (by eexists).
      all: destruct (Hlive (S j)) as [z Hz]; [lia|]; exists z.
      all: rewrite <- Hz; f_equal; f_equal; lia.
    + intros st2 (Ho2 & Hs2 & Hc2). apply HQ. split_and!.
      * congruence.
      * stats_solve.
      * intros [pb po]. cells.
        repeat case_decide; simpl in *; destruct_and?; simplify_eq;
          try done; try lia.
        all: try (rewrite Hx; done).
        all: try (rewrite <- Hx; f_equal; f_equal; lia).
        all: cell_index.
Qed.

(** [std::move_backward(first, last, last + 1)] and [std::copy_backward]
    likewise: the elements of a range move one slot to the right. *)
Lemma wp_assign_backward_shift assign after δ b s n :
  transfers true assign after δ None →
  ∀ l dl st (Q : unit → State → Prop) E,
  l = s + n → dl = s + n + 1 →
  (∀ j, j ≤ n → ∃ x, cell st (mkPtr b (s + j)) = Some (Some x)) →
  (∀ st', mem_post st st' (stats_scale n δ) (λ p,
      if decide (blk p = b ∧ s < off p ≤ s + n) then cell st (mkPtr b (off p - 1))
      else if decide (blk p = b ∧ off p = s ∧ 0 < n) then cell_map after (cell st p)
      else cell st p) → Q tt st') →
  wp (assign_backward assign (mkPtr b l) n (mkPtr b dl)) st Q E.
Proof.
  intros Hassign. induction n as [|n IH]; intros l dl st Q E -> -> Hlive HQ; simpl.
  - apply wp_ret, HQ. split_and!; [done|stats_solve|].
    intros p. repeat case_decide; try done; lia.
  - destruct (Hlive n) as [x Hx]; [lia|].
    destruct (Hlive (S n)) as [y Hy]; [lia|].
    apply wp_bind, wp_ptr_sub; [simpl; lia|].
    apply wp_bind, wp_ptr_sub; [simpl; lia|]. simpl.
    apply wp_bind. apply (Hassign _ _ x).
    { rewrite <- Hx. f_equal; f_equal; lia. }
    { exists y. rewrite <- Hy. f_equal; f_equal; lia. }
    2: intros ?? [=].
    intros st1 (Ho1 & Hs1 & Hc1). simpl in Hc1. apply IH; [lia..| |].
    + intros j Hj. cells. repeat case_decide; try (by eexists).
      all: destruct (Hlive j) as [z Hz]; [lia|]; by exists z.
    + intros st2 (Ho2 & Hs2 & Hc2). apply HQ. split_and!.
      * congruence.
      * stats_solve.
      * intros [pb po]. cell_cases.
        all: try (rewrite <- Hx; f_equal; f_equal; lia).
        all: try (replace po with (s + n) by lia; rewrite Hx; done).
        all: cell_index.
        all: replace (s + S n - 1) with (s + n) by lia; by rewrite Hx.
Qed.

(** ** [RawMemory] *)

Lemma wp_RawMemory_new n st (Q : RawMemory → State → Prop) E :
  n ≠ 0 →
  (∀ b st', b ≠ 0 → (∀ i, cell st (mkPtr b i) = None) →
     mem_post st st' d_alloc (λ p,
       if decide (blk p = b) then (if decide (off p < n) then Some None else None)
       else cell st p) →
     Q (mkRaw (mkPtr b 0) n) st') →
  wp (RawMemory_new n) st Q E.
Proof.
  intros Hn HQ. unfold RawMemory_new. apply wp_bind, wp_Allocate; [done|].
  intros b st' Hb Hfresh Hpost. apply wp_ret. by apply HQ.
Qed.

Lemma wp_RawMemory_delete b cap st (Q : unit → State → Prop) E :
  (cap = 0 ↔ b = 0) → (cap ≠ 0 → is_Some (cell st (mkPtr b 0))) →
  (∀ st', mem_post st st' (release_stats cap) (λ p,
       if decide (blk p = b ∧ b ≠ 0) then None else cell st p) →
     Q tt st') →
  wp (RawMemory_delete (mkRaw (mkPtr b 0) cap)) st Q E.
Proof.
  intros Hcap Hblock HQ. unfold RawMemory_delete, release_stats in *. simpl.
  destruct (decide (cap = 0)) as [Hz|Hnz].
  - assert (b = 0) as -> by tauto. apply wp_Deallocate_null, HQ.
    split_and!; [done|stats_solve|]. intros p.
    destruct (decide _) as [[_ []]|]; done.
  - assert (b ≠ 0) by tauto. apply wp_Deallocate; [done|by apply Hblock|].
    intros st' (Ho & Hs & Hc). apply HQ. split_and!; [done..|].
    intros p. rewrite Hc. clear HQ. repeat case_decide; try done; tauto.
Qed.

(** ** [Vector] objects *)

Lemma wp_vec this v st (Q : Vector → State → Prop) E :
  objs st !! this = Some v → Q v st → wp (vec this) st Q E.
Proof. intros Hv HQ. unfold wp, vec. by rewrite Hv. Qed.

Lemma wp_set_vec this v st (Q : unit → State → Prop) E :
  (∀ st', objs st' = <[this := v]> (objs st) → stats st' = stats st →
     (∀ p, cell st' p = cell st p) → Q tt st') →
  wp (set_vec this v) st Q E.
Proof. intros HQ. unfold wp, set_vec. by apply HQ. Qed.

Lemma wp_set_size this v n st (Q : unit → State → Prop) E :
  objs st !! this = Some v →
  (∀ st', objs st' = <[this := mkVec (data_ v) n]> (objs st) → stats st' = stats st →
     (∀ p, cell st' p = cell st p) → Q tt st') →
  wp (set_size this n) st Q E.
Proof.
  intros Hv HQ. unfold set_size. apply wp_bind, (wp_vec _ v); [done|].
  by apply wp_set_vec.
Qed.

Lemma wp_data_Swap this v temp st (Q : RawMemory → State → Prop) E :
  objs st !! this = Some v →
  (∀ st', objs st' = <[this := mkVec temp (size_ v)]> (objs st) → stats st' = stats st →
     (∀ p, cell st' p = cell st p) → Q (data_ v) st') →
  wp (data_Swap this temp) st Q E.
Proof.
  intros Hv HQ. unfold data_Swap. apply wp_bind, (wp_vec _ v); [done|].
  apply wp_bind, wp_set_vec. intros st' Ho Hs Hc. apply wp_ret. by apply HQ.
Qed.

(** ** Building an element from forwarded arguments *)

Lemma wp_build (a : Arg) st (Q : T → State → Prop) E :
  (∀ st', mem_post st st' (arg_stats a) (cell st) → Q (arg_value a) st') →
  (∀ st', mem_post st st' d_copy_call (cell st) → fired → E st') →
  wp (build a) st Q E.
Proof.
  intros HQ HE. destruct a as [x|x|x]; simpl.
  - apply wp_bind, wp_stat. apply wp_bind, wp_tick. intros st1 Ho1 Hs1 Hc1.
    destruct (copy_throws _ x) eqn:Hthrow.
    + apply wp_throw, HE; [done|]. by exists (n_copy_call (stats st)), x.
    + apply wp_bind, wp_tick. intros st2 Ho2 Hs2 Hc2. apply wp_ret, HQ.
      split_and!; [congruence|stats_solve|]. intros p. by cells.
  - apply wp_bind, wp_tick. intros st1 Ho1 Hs1 Hc1. apply wp_ret, HQ. done.
  - apply wp_bind, wp_tick. intros st1 Ho1 Hs1 Hc1. apply wp_ret, HQ. done.
Qed.

Lemma wp_construct_at p (a : Arg) st (Q : unit → State → Prop) E :
  is_Some (cell st p) →
  (∀ st', mem_post st st' (arg_stats a) (λ q,
      if decide (blk q = blk p ∧ off q = off p) then Some (Some (arg_value a))
      else cell st q) → Q tt st') →
  (∀ st', mem_post st st' d_copy_call (cell st) → fired → E st') →
  wp (construct_at p a) st Q E.
Proof.
  intros Hp HQ HE. unfold construct_at. apply wp_bind, wp_build; [|done].
  intros st1 (Ho1 & Hs1 & Hc1). apply wp_store; [by rewrite Hc1|].
  intros st2 Ho2 Hs2 Hc2. apply HQ. split_and!; [congruence|congruence|].
  intros q. by cells.
Qed.

(** ** What [owns] gives *)

Lemma owns_live st this b xs cap j :
  owns st this b xs cap → j < length xs →
  ∃ x, xs !! j = Some x ∧ cell st (mkPtr b j) = Some (Some x).
Proof.
  intros (Hv & Hle & Hz & Hc) Hj.
  destruct (lookup_lt_is_Some_2 xs j Hj) as [x Hx]. exists x. split; [done|].
  rewrite Hc by lia. by rewrite Hx.
Qed.

Lemma owns_raw st this b xs cap j :
  owns st this b xs cap → length xs ≤ j < cap → cell st (mkPtr b j) = Some None.
Proof.
  intros (Hv & Hle & Hz & Hc) Hj. rewrite Hc by lia.
  f_equal. apply lookup_ge_None. lia.
Qed.

Lemma owns_valid st this b xs cap j :
  owns st this b xs cap → j < cap → is_Some (cell st (mkPtr b j)).
Proof. intros (Hv & Hle & Hz & Hc) Hj. rewrite Hc by lia. by eexists. Qed.

End Calculus.

(** ** [Reserve] *)

Section Reserve.
Context {T : Type} {ET : ElementType T}.
Implicit Types (st : @State T) (p q : Ptr) (xs : list T).

Lemma fresh_block_ne st this b xs cap b1 :
  owns st this b xs cap → b1 ≠ 0 → (∀ i, cell st (mkPtr b1 i) = None) → b1 ≠ b.
Proof.
  intros (Hv & Hle & Hz & Hc) Hb1 Hfresh ->.
  destruct (decide (cap = 0)) as [H0|H0]; [tauto|].
  specialize (Hc 0). rewrite Hfresh in Hc. discriminate Hc. lia.
Qed.

Lemma wp_Reserve_grow this b xs cap n st (Q : unit → State → Prop) E :
  owns st this b xs cap → cap < n →
  (∀ b' st', b' ≠ b → owns st' this b' xs n →
     stats st' = stats st ⊕ d_alloc ⊕ stats_scale (length xs) transplant_stats
                   ⊕ stats_scale (length xs) d_dtor ⊕ release_stats cap →
     Q tt st') →
  (∀ st' k, move_if_safe = false → k < length xs → fired →
     owns st' this b xs cap →
     stats st' = stats st ⊕ d_alloc ⊕ stats_scale k (d_copy_call ⊕ d_ctor_copy)
                   ⊕ d_copy_call ⊕ stats_scale k d_dtor ⊕ d_dealloc →
     E st') →
  wp (Reserve this n) st Q E.
Proof.
  intros Hown Hlt HQ HE. pose proof Hown as (Hv & Hle & Hz & Hc).
  unfold Reserve. apply wp_bind, (wp_vec _ _ _ _ _ Hv). simpl.
  rewrite decide_False by lia.
  apply wp_bind, wp_RawMemory_new; [lia|]. intros b1 st1 Hb1 Hfresh (Ho1 & Hs1 & Hc1).
  pose proof (fresh_block_ne _ _ _ _ _ _ Hown Hb1 Hfresh) as Hne. simpl.
  apply wp_bind, wp_on_throw. unfold transplant_stats in *.
  destruct move_if_safe eqn:Hm.
  - apply wp_uninitialized_move_n.
    { intros j Hj. destruct (owns_live _ _ _ _ _ j Hown Hj) as (x & Hx & Hcx).
      exists x. cell_cases. }
    { intros j Hj. cell_cases. }
    { by left. }
    intros st2 (Ho2 & Hs2 & Hc2).
    apply wp_bind, wp_destroy_n.
    { intros j Hj. destruct (owns_live _ _ _ _ _ j Hown Hj) as (x & Hx & Hcx).
      exists (moved_from x). cell_cases. by rewrite Hcx. }
    intros st3 (Ho3 & Hs3 & Hc3).
    apply wp_bind, (wp_data_Swap _ (mkVec (mkRaw (mkPtr b 0) cap) (length xs))).
    { congruence. }
    intros st4 Ho4 Hs4 Hc4. simpl.
    apply wp_RawMemory_delete; [done| |].
    { intros Hcap. cell_cases. by apply (owns_valid _ _ _ _ _ _ Hown); lia. }
    intros st5 (Ho5 & Hs5 & Hc5). apply (HQ b1); [done| |stats_solve].
    split_and!.
    + rewrite Ho5, Ho4. by rewrite lookup_insert_eq.
    + lia.
    + lia.
    + intros i Hi. cell_cases.
      all: try (f_equal; symmetry; apply lookup_ge_None; lia).
      all: rewrite Nat.sub_0_r; apply Hc; lia.
  - apply wp_uninitialized_copy_n.
    { intros j Hj. destruct (owns_live _ _ _ _ _ j Hown Hj) as (x & Hx & Hcx).
      exists x. cell_cases. }
    { intros j Hj. cell_cases. }
    { by left. }
    + intros st2 (Ho2 & Hs2 & Hc2).
      apply wp_bind, wp_destroy_n.
      { intros j Hj. destruct (owns_live _ _ _ _ _ j Hown Hj) as (x & Hx & Hcx).
        exists x. cell_cases. }
      intros st3 (Ho3 & Hs3 & Hc3).
      apply wp_bind, (wp_data_Swap _ (mkVec (mkRaw (mkPtr b 0) cap) (length xs))).
      { congruence. }
      intros st4 Ho4 Hs4 Hc4. simpl.
      apply wp_RawMemory_delete; [done| |].
      { intros Hcap. cell_cases. by apply (owns_valid _ _ _ _ _ _ Hown); lia. }
      intros st5 (Ho5 & Hs5 & Hc5). apply (HQ b1); [done| |stats_solve].
      split_and!.
      * rewrite Ho5, Ho4. by rewrite lookup_insert_eq.
      * lia.
      * lia.
      * intros i Hi. cell_cases.
        all: try (f_equal; symmetry; apply lookup_ge_None; lia).
        all: rewrite Nat.sub_0_r; apply Hc; lia.
    + intros st2 k Hk (Ho2 & Hs2 & Hc2) Hf.
      apply wp_RawMemory_delete; [lia| |].
      { intros _. cell_cases. }
      intros st3 (Ho3 & Hs3 & Hc3). apply (HE st3 k); [done..| |].
      * split_and!; [congruence|done|done|].
        intros i Hi. cell_cases. by apply Hc.
      * unfold release_stats in Hs3. rewrite decide_False in Hs3 by lia. stats_solve.
Qed.


Lemma Reserve_enough this v n st :
  objs st !! this = Some v → n ≤ capacity_ (data_ v) →
  Reserve this n st = (Ok tt, st).
Proof.
  intros Hv Hn. unfold Reserve, mbind, M_bind, vec. rewrite Hv.
  by rewrite decide_True.
Qed.

End Reserve.

(** ** [PushBack] and [EmplaceBack] *)

Section PushBack.
Context {T : Type} {ET : ElementType T}.
Implicit Types (st : @State T) (p q : Ptr) (xs : list T).

Lemma wp_Capacity this v st (Q : nat → State → Prop) E :
  objs st !! this = Some v → Q (capacity_ (data_ v)) st → wp (Capacity this) st Q E.
Proof. intros Hv HQ. unfold Capacity. by apply wp_bind, (wp_vec _ v). Qed.

Lemma wp_Size this v st (Q : nat → State → Prop) E :
  objs st !! this = Some v → Q (size_ v) st → wp (Size this) st Q E.
Proof. intros Hv HQ. unfold Size. by apply wp_bind, (wp_vec _ v). Qed.

Lemma wp_begin this v st (Q : Ptr → State → Prop) E :
  objs st !! this = Some v → Q (buffer_ (data_ v)) st → wp (begin_ this) st Q E.
Proof. intros Hv HQ. unfold begin_. by apply wp_bind, (wp_vec _ v). Qed.

Lemma wp_end this v st (Q : Ptr → State → Prop) E :
  objs st !! this = Some v → Q (buffer_ (data_ v) +ₚ size_ v) st → wp (end_ this) st Q E.
Proof. intros Hv HQ. unfold end_. by apply wp_bind, (wp_vec _ v). Qed.

Lemma lookup_snoc xs (x : T) i :
  (xs ++ [x]) !! i =
    if decide (i < length xs) then xs !! i
    else if decide (i = length xs) then Some x else None.
Proof.
  repeat case_decide.
  - by apply lookup_app_l.
  - subst. by rewrite lookup_app_r, Nat.sub_diag by lia.
  - apply lookup_ge_None. rewrite length_app. simpl. lia.
Qed.

Lemma wp_PushBackImpl this b xs cap (a : Arg) st (Q : unit → State → Prop) E :
  owns st this b xs cap →
  (length xs = cap → fits (2 * cap)) →
  (∀ b' cap' st', owns st' this b' (xs ++ [arg_value a]) cap' →
     (length xs < cap →
        b' = b ∧ cap' = cap ∧ stats st' = stats st ⊕ arg_stats a) →
     (length xs = cap →
        b' ≠ b ∧ cap' = (if decide (cap = 0) then 1 else cap * 2) ∧
        stats st' = stats st ⊕ d_alloc ⊕ arg_stats a
                      ⊕ stats_scale (length xs) transplant_stats
                      ⊕ stats_scale (length xs) d_dtor ⊕ release_stats cap) →
     Q tt st') →
  (∀ st', fired → owns st' this b xs cap →
     (stats st' = stats st ⊕ d_copy_call
                    ⊕ (if decide (length xs = cap) then d_alloc ⊕ d_dealloc else stats_zero)
      ∨ ∃ k, k < length xs ∧ length xs = cap ∧ move_if_safe = false ∧
          stats st' = stats st ⊕ d_alloc ⊕ arg_stats a
                        ⊕ stats_scale k (d_copy_call ⊕ d_ctor_copy)
                        ⊕ d_copy_call ⊕ stats_scale k d_dtor ⊕ d_dealloc) →
     E st') →
  wp (PushBackImpl this a) st Q E.
Proof.
  intros Hown Hfit HQ HE. pose proof Hown as (Hv & Hle & Hz & Hc).
  unfold PushBackImpl. apply wp_bind, (wp_vec _ _ _ _ _ Hv).
  apply wp_bind, (wp_Capacity _ _ _ _ _ Hv). simpl.
  apply wp_bind. destruct (decide (length xs = cap)) as [Hfull|Hroom].
  - rewrite doubling_fits by (rewrite Hfull; by apply Hfit).
    set (cap' := if decide (length xs = 0) then 1 else length xs * 2).
    assert (Hcap' : length xs < cap')
      by (unfold cap'; destruct (decide (length xs = 0)); lia).
    apply wp_bind, wp_RawMemory_new; [lia|].
    intros b1 st1 Hb1 Hfresh (Ho1 & Hs1 & Hc1).
    pose proof (fresh_block_ne _ _ _ _ _ _ Hown Hb1 Hfresh) as Hne. simpl.
    apply wp_bind, wp_on_throw, wp_bind. unfold ptr_add; simpl.
    apply wp_construct_at.
    { cell_cases. }
    + intros st2 (Ho2 & Hs2 & Hc2). simpl in Hc2. unfold transplant_stats in *.
      destruct move_if_safe eqn:Hm.
      * apply wp_uninitialized_move_n.
        { intros j Hj. destruct (owns_live _ _ _ _ _ j Hown Hj) as (x & Hx & Hcx).
          exists x. cell_cases. }
        { intros j Hj. cell_cases. }
        { by left. }
        intros st3 (Ho3 & Hs3 & Hc3).
        apply wp_bind, wp_destroy_n.
        { intros j Hj. destruct (owns_live _ _ _ _ _ j Hown Hj) as (x & Hx & Hcx).
          exists (moved_from x). cell_cases. by rewrite Hcx. }
        intros st4 (Ho4 & Hs4 & Hc4).
        apply wp_bind, (wp_data_Swap _ (mkVec (mkRaw (mkPtr b 0) cap) (length xs))).
        { congruence. }
        intros st5 Ho5 Hs5 Hc5. simpl.
        apply wp_RawMemory_delete; [done| |].
        { intros Hcap. cell_cases; by apply (owns_valid _ _ _ _ _ _ Hown); lia. }
        intros st6 (Ho6 & Hs6 & Hc6).
        apply (wp_set_size _ (mkVec (mkRaw (mkPtr b1 0) cap') (length xs))).
        { rewrite Ho6, Ho5. by rewrite lookup_insert_eq. }
        intros st7 Ho7 Hs7 Hc7. simpl in Ho7.
        apply (HQ b1 cap').
        -- split_and!.
           ++ rewrite Ho7. rewrite lookup_insert_eq, length_app. simpl.
              do 3 f_equal. lia.
           ++ rewrite length_app. simpl. lia.
           ++ lia.
           ++ intros i Hi. rewrite lookup_snoc. cell_cases.
              rewrite Nat.sub_0_r. apply Hc. lia.
        -- intros. lia.
        -- intros _. split_and!; [done|by subst cap'; subst cap|].
           stats_solve.
      * apply wp_uninitialized_copy_n.
        { intros j Hj. destruct (owns_live _ _ _ _ _ j Hown Hj) as (x & Hx & Hcx).
          exists x. cell_cases. }
        { intros j Hj. cell_cases. }
        { by left. }
        -- intros st3 (Ho3 & Hs3 & Hc3).
           apply wp_bind, wp_destroy_n.
           { intros j Hj. destruct (owns_live _ _ _ _ _ j Hown Hj) as (x & Hx & Hcx).
             exists x. cell_cases. }
           intros st4 (Ho4 & Hs4 & Hc4).
           apply wp_bind, (wp_data_Swap _ (mkVec (mkRaw (mkPtr b 0) cap) (length xs))).
           { congruence. }
           intros st5 Ho5 Hs5 Hc5. simpl.
           apply wp_RawMemory_delete; [done| |].
           { intros Hcap. cell_cases; by apply (owns_valid _ _ _ _ _ _ Hown); lia. }
           intros st6 (Ho6 & Hs6 & Hc6).
           apply (wp_set_size _ (mkVec (mkRaw (mkPtr b1 0) cap') (length xs))).
           { rewrite Ho6, Ho5. by rewrite lookup_insert_eq. }
           intros st7 Ho7 Hs7 Hc7. simpl in Ho7.
           apply (HQ b1 cap').
           ++ split_and!.
              ** rewrite Ho7. rewrite lookup_insert_eq, length_app. simpl.
                 do 3 f_equal. lia.
              ** rewrite length_app. simpl. lia.
              ** lia.
              ** intros i Hi. rewrite lookup_snoc. cell_cases.
                 rewrite Nat.sub_0_r. apply Hc. lia.
           ++ intros. lia.
           ++ intros _. split_and!; [done|by subst cap'; subst cap|].
              stats_solve.
        -- intros st3 k Hk (Ho3 & Hs3 & Hc3) Hf.
           apply wp_RawMemory_delete; [lia| |].
           { intros _. cell_cases. }
           intros st4 (Ho4 & Hs4 & Hc4). apply HE; [done| |].
           ++ split_and!; [congruence|done|done|].
              intros i Hi. cell_cases. by apply Hc.
           ++ right. exists k. split_and!; [done..|].
              unfold release_stats in Hs4. rewrite decide_False in Hs4 by lia.
              stats_solve.
    + intros st2 (Ho2 & Hs2 & Hc2) Hf.
      apply wp_RawMemory_delete; [lia| |].
      { intros _. cell_cases. }
      intros st3 (Ho3 & Hs3 & Hc3). apply HE; [done| |].
      * split_and!; [congruence|done|done|].
        intros i Hi. cell_cases. by apply Hc.
      * left.
        unfold release_stats in Hs3. rewrite decide_False in Hs3 by lia.
        stats_solve.
  - unfold ptr_add; simpl. apply wp_construct_at.
    { by apply (owns_valid _ _ _ _ _ _ Hown); lia. }
    + intros st1 (Ho1 & Hs1 & Hc1). simpl in Hc1.
      apply (wp_set_size _ (mkVec (mkRaw (mkPtr b 0) cap) (length xs))).
      { congruence. }
      intros st2 Ho2 Hs2 Hc2. simpl in Ho2.
      apply (HQ b cap).
      * split_and!.
        -- rewrite Ho2. rewrite lookup_insert_eq, length_app. simpl.
           do 3 f_equal. lia.
        -- rewrite length_app. simpl. lia.
        -- done.
        -- intros i Hi. rewrite lookup_snoc. cell_cases.
           all: try (apply Hc; lia).
           all: rewrite Hc by lia; f_equal; apply lookup_ge_None; lia.
      * intros _. split_and!; [done..|]. stats_solve.
      * intros. lia.
    + intros st1 (Ho1 & Hs1 & Hc1) Hf. apply HE; [done| |].
      * split_and!; [congruence|done|done|].
        intros i Hi. cell_cases. by apply Hc.
      * left. stats_solve.
Qed.

(** [EmplaceBack] runs the body of [PushBackImpl] and then takes the address
    of the last element. *)
Lemma EmplaceBack_PushBackImpl this (a : Arg) st :
  EmplaceBack this a st =
  (PushBackImpl this a;;
   w ← vec this; ptr_sub (buffer_ (data_ w) +ₚ size_ w) 1) st.
Proof.
  unfold EmplaceBack, PushBackImpl. unfold mbind, M_bind.
  destruct (vec this st) as [[v| |] st1]; [|done..].
  destruct (Capacity this st1) as [[c| |] st2]; [|done..].
  match goal with
  | |- context [match ?m st2 with _ => _ end] => destruct (m st2) as [[[]| |] st3]
  end; [|done..].
  by destruct (set_size this (S (size_ v)) st3) as [[[]| |] st4].
Qed.

Lemma wp_EmplaceBack this b xs cap (a : Arg) st (Q : Ptr → State → Prop) E :
  owns st this b xs cap →
  (length xs = cap → fits (2 * cap)) →
  (∀ b' cap' st', owns st' this b' (xs ++ [arg_value a]) cap' →
     (length xs < cap →
        b' = b ∧ cap' = cap ∧ stats st' = stats st ⊕ arg_stats a) →
     (length xs = cap →
        b' ≠ b ∧ cap' = (if decide (cap = 0) then 1 else cap * 2) ∧
        stats st' = stats st ⊕ d_alloc ⊕ arg_stats a
                      ⊕ stats_scale (length xs) transplant_stats
                      ⊕ stats_scale (length xs) d_dtor ⊕ release_stats cap) →
     Q (mkPtr b' (length xs)) st') →
  (∀ st', fired → owns st' this b xs cap →
     (stats st' = stats st ⊕ d_copy_call
                    ⊕ (if decide (length xs = cap) then d_alloc ⊕ d_dealloc else stats_zero)
      ∨ ∃ k, k < length xs ∧ length xs = cap ∧ move_if_safe = false ∧
          stats st' = stats st ⊕ d_alloc ⊕ arg_stats a
                        ⊕ stats_scale k (d_copy_call ⊕ d_ctor_copy)
                        ⊕ d_copy_call ⊕ stats_scale k d_dtor ⊕ d_dealloc) →
     E st') →
  wp (EmplaceBack this a) st Q E.
Proof.
  intros Hown Hfit HQ HE. unfold wp. rewrite EmplaceBack_PushBackImpl.
  apply wp_bind, (wp_PushBackImpl _ _ _ _ _ _ _ _ Hown Hfit); [|done].
  intros b' cap' st' Hown' Hroom Hfull. pose proof Hown' as (Hv & Hle & Hz & Hc).
  apply wp_bind, (wp_vec _ _ _ _ _ Hv). simpl.
  apply wp_ptr_sub; simpl; [rewrite length_app; simpl; lia|].
  replace (length (xs ++ [arg_value a]) - 1) with (length xs)
    by (rewrite length_app; simpl; lia).
  by apply (HQ b' cap').
Qed.

End PushBack.

(** ** [Emplace] *)

Section Emplace.
Context {T : Type} {ET : ElementType T}.
Implicit Types (st : @State T) (p q : Ptr) (xs : list T).

Lemma lookup_insert_middle xs (x : T) i j :
  i ≤ length xs →
  (take i xs ++ x :: drop i xs) !! j =
    if decide (j < i) then xs !! j
    else if decide (j = i) then Some x else xs !! (j - 1).
Proof.
  intros Hi. assert (Hlen : length (take i xs) = i) by (rewrite length_take; lia).
  repeat case_decide.
  - rewrite lookup_app_l by lia. by apply lookup_take_lt.
  - subst. rewrite lookup_app_r by lia. by rewrite Hlen, Nat.sub_diag.
  - rewrite lookup_app_r by lia. rewrite Hlen.
    destruct (j - i) as [|k] eqn:Hk; [lia|]. simpl.
    rewrite lookup_drop. f_equal. lia.
Qed.

Lemma lookup_remove_middle xs i j :
  (take i xs ++ drop (S i) xs) !! j =
    if decide (j < i) then xs !! j else xs !! (S j).
Proof.
  destruct (decide (i ≤ length xs)) as [Hi|Hi].
  - assert (Hlen : length (take i xs) = i) by (rewrite length_take; lia).
    case_decide.
    + rewrite lookup_app_l by lia. by apply lookup_take_lt.
    + rewrite lookup_app_r by lia. rewrite Hlen, lookup_drop. f_equal. lia.
  - rewrite take_ge, drop_ge, app_nil_r by lia. case_decide; [done|].
    rewrite !(proj2 (lookup_ge_None _ _)); [done|lia..].
Qed.

(** A transplant of a range guarded by [if (first != last)], as [Emplace]
    writes it. *)
Lemma wp_transplant_range (G : Prop) `{!Decision G} a s t n b d st
    (Q : unit → State → Prop) E :
  t = s + n → (¬ G → n = 0) →
  (∀ j, j < n → ∃ x, cell st (mkPtr a (s + j)) = Some (Some x)) →
  (∀ j, j < n → is_Some (cell st (mkPtr b (d + j)))) →
  a ≠ b →
  (∀ st', mem_post st st' (stats_scale n transplant_stats) (λ p,
      if decide (blk p = b ∧ d ≤ off p < d + n)
      then cell st (mkPtr a (s + (off p - d)))
      else if decide (blk p = a ∧ s ≤ off p < s + n)
      then cell_map transplant_after (cell st p)
      else cell st p) → Q tt st') →
  (∀ st' k, move_if_safe = false → objs st' = objs st →
     (∀ p, cell st' p =
        if decide (blk p = b ∧ d ≤ off p < d + k) then Some None else cell st p) →
     fired → E st') →
  wp (if decide G
      then if move_if_safe
           then uninitialized_move (mkPtr a s) (mkPtr a t) (mkPtr b d)
           else uninitialized_copy (mkPtr a s) (mkPtr a t) (mkPtr b d)
      else mret tt) st Q E.
Proof.
  intros -> HG Hsrc Hdst Hne HQ HE.
  unfold transplant_stats, transplant_after in *.
  destruct (decide G) as [_|HnG].
  - destruct move_if_safe eqn:Hm.
    + unfold uninitialized_move. apply wp_bind, wp_ptr_diff; simpl; [done|lia|].
      replace (s + n - s) with n by lia.
      apply wp_uninitialized_move_n; [done..|by left|done].
    + unfold uninitialized_copy. apply wp_bind, wp_ptr_diff; simpl; [done|lia|].
      replace (s + n - s) with n by lia.
      apply wp_uninitialized_copy_n; [done..|by left| |].
      * intros st' (Ho & Hs & Hc). apply HQ. split_and!; [done..|].
        intros p. rewrite Hc. repeat case_decide; try done.
        by rewrite cell_map_id.
      * intros st' k Hk (Ho & Hs & Hc) Hf. by apply (HE st' k).
  - rewrite (HG HnG) in *. apply wp_ret, HQ. split_and!; [done| |].
    + destruct move_if_safe; stats_solve.
    + intros p. repeat case_decide; try done; lia.
Qed.

Lemma wp_move_assign_local p y tmp st (Q : unit → State → Prop) E :
  cell st p = Some (Some y) →
  (∀ st', mem_post st st' d_assign_move (λ q,
      if decide (blk q = blk p ∧ off q = off p) then Some (Some tmp) else cell st q) →
    Q tt st') →
  wp (move_assign_local p tmp) st Q E.
Proof.
  intros Hp HQ. unfold move_assign_local. apply wp_bind, (wp_load _ y); [done|].
  apply wp_bind, wp_store; [by rewrite Hp|]. intros st1 Ho1 Hs1 Hc1.
  apply wp_tick. intros st2 Ho2 Hs2 Hc2. apply HQ.
  split_and!; [congruence|stats_solve|]. intros q. by cells.
Qed.

Lemma wp_copy_assign_local p y tmp st (Q : unit → State → Prop) E :
  cell st p = Some (Some y) →
  (∀ st', mem_post st st' d_assign_copy (λ q,
      if decide (blk q = blk p ∧ off q = off p) then Some (Some tmp) else cell st q) →
    Q tt st') →
  wp (copy_assign_local p tmp) st Q E.
Proof.
  intros Hp HQ. unfold copy_assign_local. apply wp_bind, (wp_load _ y); [done|].
  apply wp_bind, wp_store; [by rewrite Hp|]. intros st1 Ho1 Hs1 Hc1.
  apply wp_tick. intros st2 Ho2 Hs2 Hc2. apply HQ.
  split_and!; [congruence|stats_solve|]. intros q. by cells.
Qed.

Lemma wp_Emplace this b xs cap i (a : Arg) st (Q : Ptr → State → Prop) E :
  owns st this b xs cap → i ≤ length xs →
  (length xs = cap → fits (2 * cap)) →
  (∀ b' cap' st', owns st' this b' (take i xs ++ arg_value a :: drop i xs) cap' →
     (length xs < cap →
        b' = b ∧ cap' = cap ∧
        stats st' = stats st ⊕ emplace_in_place_stats a i (length xs)) →
     (length xs = cap →
        b' ≠ b ∧ cap' = (if decide (cap = 0) then 1 else cap * 2) ∧
        stats st' = stats st ⊕ d_alloc ⊕ arg_stats a
                      ⊕ stats_scale (length xs) transplant_stats
                      ⊕ stats_scale (length xs) d_dtor ⊕ release_stats cap) →
     Q (mkPtr b' i) st') →
  (∀ st', fired →
     (owns st' this b xs cap ∨
      (move_if_safe = false ∧ i < length xs < cap ∧ objs st' = objs st ∧
       ∀ j, j < cap → cell st' (mkPtr b j) =
          if decide (j = length xs) then Some (xs !! (length xs - 1))
          else Some (xs !! j))) →
     E st') →
  wp (Emplace this (mkPtr b i) a) st Q E.
Proof.
  intros Hown Hi Hfit HQ HE. pose proof Hown as (Hv & Hle & Hz & Hc).
  unfold Emplace. apply wp_bind, (wp_begin _ _ _ _ _ Hv). simpl.
  apply wp_bind, wp_ptr_diff; simpl; [done|lia|]. rewrite Nat.sub_0_r.
  apply wp_bind, (wp_vec _ _ _ _ _ Hv).
  apply wp_bind, (wp_Capacity _ _ _ _ _ Hv).
  apply wp_bind, (wp_end _ _ _ _ _ Hv). unfold ptr_add; simpl.
  destruct (decide (length xs < cap)) as [Hroom|Hfull].
  - destruct (decide (i = length xs)) as [Hend|Hmid].
    + rewrite decide_True by (by subst).
      apply wp_bind, wp_construct_at.
      { by apply (owns_valid _ _ _ _ _ _ Hown). }
      * intros st1 (Ho1 & Hs1 & Hc1). simpl in Hc1.
        apply wp_bind, (wp_set_size _ (mkVec (mkRaw (mkPtr b 0) cap) (length xs))).
        { congruence. }
        intros st2 Ho2 Hs2 Hc2. simpl in Ho2.
        apply wp_bind, (wp_end _ (mkVec (mkRaw (mkPtr b 0) cap) (S (length xs)))).
        { rewrite Ho2. by rewrite lookup_insert_eq. }
        unfold ptr_add; simpl. apply wp_ptr_sub; simpl; [lia|].
        rewrite Nat.sub_0_r. rewrite <- Hend.
        apply (HQ b cap).
        -- split_and!.
           ++ rewrite Ho2, lookup_insert_eq. do 3 f_equal.
              rewrite length_app, length_take. simpl. rewrite length_drop. lia.
           ++ rewrite length_app, length_take. simpl. rewrite length_drop. lia.
           ++ done.
           ++ intros j Hj. rewrite lookup_insert_middle by done. cell_cases.
              all: try (apply Hc; lia).
              all: rewrite Hc by lia; f_equal.
              all: rewrite !(proj2 (lookup_ge_None _ _)); [done|lia..].
        -- intros _. split_and!; [done..|]. unfold emplace_in_place_stats.
           rewrite decide_True by done. stats_solve.
        -- intros. lia.
      * intros st1 (Ho1 & Hs1 & Hc1) Hf. apply HE; [done|]. left.
        split_and!; [congruence|done|done|].
        intros j Hj. cell_cases. by apply Hc.
    + rewrite decide_False by (intros [=]; lia).
      assert (Hlt : i < length xs) by lia.
      destruct (owns_live _ _ _ _ _ (length xs - 1) Hown) as (xl & Hxl & Hcl); [lia|].
      destruct (owns_live _ _ _ _ _ i Hown) as (xi & Hxi & Hci); [lia|].
      apply wp_bind, wp_build.
      * intros st1 (Ho1 & Hs1 & Hc1).
        apply wp_finally, wp_bind, wp_ptr_sub; simpl; [lia|].
        apply wp_bind. destruct move_if_safe eqn:Hm.
        -- apply wp_bind. unfold uninitialized_move.
           apply wp_bind, wp_ptr_diff; simpl; [done|lia|].
           apply wp_uninitialized_move_n.
           { intros j Hj. exists xl. cell_cases. rewrite <- Hcl. cell_index. }
           { intros j Hj. cell_cases. by apply (owns_valid _ _ _ _ _ _ Hown); lia. }
           { lia. }
           intros st2 (Ho2 & Hs2 & Hc2).
           apply wp_bind. unfold std_move_backward.
           apply wp_bind, wp_ptr_diff; simpl; [done|lia|].
           apply (wp_assign_backward_shift _ _ _ b i (length xs - 1 - i)
                    move_assign_transfers); [lia|lia| |].
           { intros j Hj.
             destruct (owns_live _ _ _ _ _ (i + j) Hown) as (x & Hx & Hcx); [lia|].
             cell_cases; rewrite Hcx; simpl; by eexists. }
           intros st3 (Ho3 & Hs3 & Hc3).
           apply wp_bind. unfold RawMemory_at; simpl. rewrite decide_True by lia.
           apply wp_ret. unfold ptr_add; simpl.
           apply (wp_move_assign_local _ (moved_from xi)).
           { cell_cases; rewrite ?Hci; done. }
           intros st4 (Ho4 & Hs4 & Hc4). simpl in Hc4.
           apply wp_bind, (wp_set_size _ (mkVec (mkRaw (mkPtr b 0) cap) (length xs))).
           { congruence. }
           intros st5 Ho5 Hs5 Hc5. simpl in Ho5.
           apply wp_bind, (wp_begin _ (mkVec (mkRaw (mkPtr b 0) cap) (S (length xs)))).
           { rewrite Ho5. by rewrite lookup_insert_eq. }
           simpl. apply wp_ret. unfold destroy_local. apply wp_tick.
           intros st6 Ho6 Hs6 Hc6.
           apply (HQ b cap).
           ++ split_and!.
              ** rewrite Ho6, Ho5, lookup_insert_eq. do 3 f_equal.
                 rewrite length_app, length_take. simpl. rewrite length_drop. lia.
              ** rewrite length_app, length_take. simpl. rewrite length_drop. lia.
              ** lia.
              ** intros j Hj. rewrite lookup_insert_middle by done. cell_cases.
                 all: try (rewrite Hc by lia; repeat f_equal; lia).
                 all: try (f_equal; symmetry; apply lookup_ge_None; lia).
                 all: rewrite Hc by lia; f_equal.
                 all: rewrite !(proj2 (lookup_ge_None _ _)); [done|lia..].
           ++ intros _. split_and!; [done..|]. unfold emplace_in_place_stats.
              rewrite decide_False by done. rewrite Hm. stats_solve.
           ++ intros. lia.
        -- apply wp_bind. apply (wp_copy_construct _ _ xl).
           { cell_cases. }
           { cell_cases. by apply (owns_valid _ _ _ _ _ _ Hown); lia. }
           ++ intros st2 (Ho2 & Hs2 & Hc2). simpl in Hc2.
              apply wp_bind. unfold uninitialized_copy.
              apply wp_bind, wp_ptr_diff; simpl; [done|lia|].
              apply wp_uninitialized_copy_n.
              { intros j Hj. exists xl. cell_cases. rewrite <- Hcl. cell_index. }
              { intros j Hj. cell_cases. }
              { lia. }
              ** intros st3 (Ho3 & Hs3 & Hc3).
                 apply wp_bind. unfold std_copy_backward.
                 apply wp_bind, wp_ptr_diff; simpl; [done|lia|].
                 apply (wp_assign_backward_shift _ _ _ b i (length xs - 1 - i)
                          copy_assign_transfers); [lia|lia| |].
                 { intros j Hj.
                   destruct (owns_live _ _ _ _ _ (i + j) Hown) as (x & Hx & Hcx); [lia|].
                   cell_cases; rewrite Hcx; simpl; by eexists. }
                 intros st4 (Ho4 & Hs4 & Hc4).
                 apply wp_bind. unfold RawMemory_at; simpl. rewrite decide_True by lia.
                 apply wp_ret. unfold ptr_add; simpl.
                 apply (wp_copy_assign_local _ xi).
                 { cell_cases; rewrite ?Hci; done. }
                 intros st5 (Ho5 & Hs5 & Hc5). simpl in Hc5.
                 apply wp_bind,
                   (wp_set_size _ (mkVec (mkRaw (mkPtr b 0) cap) (length xs))).
                 { congruence. }
                 intros st6 Ho6 Hs6 Hc6. simpl in Ho6.
                 apply wp_bind,
                   (wp_begin _ (mkVec (mkRaw (mkPtr b 0) cap) (S (length xs)))).
                 { rewrite Ho6. by rewrite lookup_insert_eq. }
                 simpl. apply wp_ret. unfold destroy_local. apply wp_tick.
                 intros st7 Ho7 Hs7 Hc7.
                 apply (HQ b cap).
                 --- split_and!.
                     +++ rewrite Ho7, Ho6, lookup_insert_eq. do 3 f_equal.
                         rewrite length_app, length_take. simpl.
                         rewrite length_drop. lia.
                     +++ rewrite length_app, length_take. simpl.
                         rewrite length_drop. lia.
                     +++ lia.
                     +++ intros j Hj. rewrite lookup_insert_middle by done.
                         cell_cases.
                         all: rewrite ?cell_map_id.
                         all: try (rewrite Hc by lia; repeat f_equal; lia).
                         all: try (f_equal; symmetry; apply lookup_ge_None; lia).
                         all: rewrite Hc by lia; f_equal.
                         all: rewrite !(proj2 (lookup_ge_None _ _)); [done|lia..].
                 --- intros _. split_and!; [done..|]. unfold emplace_in_place_stats.
                     rewrite decide_False by done. rewrite Hm. stats_solve.
                 --- intros. lia.
              ** intros st3 k Hk (Ho3 & Hs3 & Hc3) Hf.
                 unfold destroy_local. apply wp_tick. intros st4 Ho4 Hs4 Hc4.
                 apply HE; [done|]. right. split_and!; [done|lia..|congruence|].
                 intros j Hj. cell_cases.
                 all: try (by rewrite Hxl).
                 all: by apply Hc.
           ++ intros st2 (Ho2 & Hs2 & Hc2) Hf.
              unfold destroy_local. apply wp_tick. intros st3 Ho3 Hs3 Hc3.
              apply HE; [done|]. left.
              split_and!; [congruence|done|done|].
              intros j Hj. cell_cases. by apply Hc.
      * intros st1 (Ho1 & Hs1 & Hc1) Hf. apply HE; [done|]. left.
        split_and!; [congruence|done|done|].
        intros j Hj. cell_cases. by apply Hc.
  - assert (Hcap : length xs = cap) by lia.
    rewrite doubling_fits by (rewrite Hcap; by apply Hfit).
    set (cap' := if decide (length xs = 0) then 1 else length xs * 2).
    assert (Hcap' : length xs < cap')
      by (unfold cap'; destruct (decide (length xs = 0)); lia).
    apply wp_bind, wp_RawMemory_new; [lia|].
    intros b1 st1 Hb1 Hfresh (Ho1 & Hs1 & Hc1).
    pose proof (fresh_block_ne _ _ _ _ _ _ Hown Hb1 Hfresh) as Hne. simpl.
    apply wp_bind, wp_on_throw, wp_bind. unfold ptr_add; simpl.
    apply wp_construct_at.
    { cell_cases. }
    + intros st2 (Ho2 & Hs2 & Hc2). simpl in Hc2.
      apply wp_bind. apply (wp_transplant_range _ b 0 i i b1 0); [done| | | |done| |].
      { intros HG. destruct (decide (i = 0)); [done|].
        exfalso. apply HG. intros [=]. lia. }
      { intros j Hj. destruct (owns_live _ _ _ _ _ j Hown) as (x & Hx & Hcx); [lia|].
        exists x. cell_cases. }
      { intros j Hj. cell_cases. }
      * intros st3 (Ho3 & Hs3 & Hc3).
        apply (wp_transplant_range _ b i (length xs) (length xs - i) b1 (i + 1));
          [lia| | | |done| |].
        { intros HG. destruct (decide (i = length xs)); [lia|].
          exfalso. apply HG. intros [=]. lia. }
        { intros j Hj.
          destruct (owns_live _ _ _ _ _ (i + j) Hown) as (x & Hx & Hcx); [lia|].
          exists x. cell_cases. }
        { intros j Hj. cell_cases. }
        -- intros st4 (Ho4 & Hs4 & Hc4).
           apply wp_bind, wp_destroy_n.
           { intros j Hj. destruct (owns_live _ _ _ _ _ j Hown Hj) as (x & Hx & Hcx).
             exists (transplant_after x). cell_cases; by rewrite Hcx. }
           intros st5 (Ho5 & Hs5 & Hc5).
           apply wp_bind, (wp_data_Swap _ (mkVec (mkRaw (mkPtr b 0) cap) (length xs))).
           { congruence. }
           intros st6 Ho6 Hs6 Hc6. simpl.
           apply wp_bind, (wp_set_size _ (mkVec (mkRaw (mkPtr b1 0) cap') (length xs))).
           { rewrite Ho6. by rewrite lookup_insert_eq. }
           intros st7 Ho7 Hs7 Hc7. simpl in Ho7.
           apply wp_bind, (wp_begin _ (mkVec (mkRaw (mkPtr b1 0) cap') (S (length xs)))).
           { rewrite Ho7. by rewrite lookup_insert_eq. }
           simpl. apply wp_bind, wp_RawMemory_delete; [done| |].
           { intros Hcap0. cell_cases; by apply (owns_valid _ _ _ _ _ _ Hown); lia. }
           intros st8 (Ho8 & Hs8 & Hc8). apply wp_ret.
           apply (HQ b1 cap').
           ++ split_and!.
              ** rewrite Ho8, Ho7, lookup_insert_eq. do 3 f_equal.
                 rewrite length_app, length_take. simpl. rewrite length_drop. lia.
              ** rewrite length_app, length_take. simpl. rewrite length_drop. lia.
              ** lia.
              ** intros j Hj. rewrite lookup_insert_middle by done. cell_cases.
                 all: try (rewrite Hc by lia; repeat f_equal; lia).
                 all: f_equal; symmetry; apply lookup_ge_None; lia.
           ++ intros. lia.
           ++ intros _. split_and!; [done|by subst cap'; subst cap|].
              unfold transplant_stats in *. destruct move_if_safe; stats_solve.
        -- intros st4 k Hm Ho4 Hc4 Hf.
           apply wp_RawMemory_delete; [lia| |].
           { intros _. cell_cases; by apply (owns_valid _ _ _ _ _ _ Hown); lia. }
           intros st5 (Ho5 & Hs5 & Hc5). apply HE; [done|]. left.
           split_and!; [congruence|done|done|].
           intros j Hj. unfold transplant_after in *. rewrite Hm in *.
           cell_cases. all: rewrite ?cell_map_id; by apply Hc.
      * intros st3 k Hm Ho3 Hc3 Hf.
        apply wp_RawMemory_delete; [lia| |].
        { intros _. cell_cases. }
        intros st4 (Ho4 & Hs4 & Hc4). apply HE; [done|]. left.
        split_and!; [congruence|done|done|].
        intros j Hj. cell_cases. by apply Hc.
    + intros st2 (Ho2 & Hs2 & Hc2) Hf.
      apply wp_RawMemory_delete; [lia| |].
      { intros _. cell_cases. }
      intros st3 (Ho3 & Hs3 & Hc3). apply HE; [done|]. left.
      split_and!; [congruence|done|done|].
      intros j Hj. cell_cases. by apply Hc.
Qed.

End Emplace.

(** ** [Erase] *)

Section Erase.
Context {T : Type} {ET : ElementType T}.
Implicit Types (st : @State T) (p q : Ptr) (xs : list T).

Lemma wp_Erase this b xs cap i st (Q : Ptr → State → Prop) E :
  owns st this b xs cap → i < length xs →
  (∀ st', owns st' this b (take i xs ++ drop (S i) xs) cap →
     stats st' = stats st
       ⊕ stats_scale (length xs - 1 - i)
           (if move_if_safe then d_assign_move else d_assign_copy)
       ⊕ d_dtor →
     Q (mkPtr b i) st') →
  wp (Erase this (mkPtr b i)) st Q E.
Proof.
  intros Hown Hi HQ. pose proof Hown as (Hv & Hle & Hz & Hc).
  unfold Erase. apply wp_bind, (wp_begin _ _ _ _ _ Hv). simpl.
  apply wp_bind, wp_ptr_diff; simpl; [done|lia|]. rewrite Nat.sub_0_r.
  apply wp_bind, (wp_end _ _ _ _ _ Hv). unfold ptr_add; simpl.
  assert (Hshift : ∀ assign after δ, transfers true assign after δ None →
    wp (n ← ptr_diff (mkPtr b (length xs)) (mkPtr b (i + 1));
        assign_forward assign (mkPtr b (i + 1)) n (mkPtr b i)) st
      (λ _ st1, mem_post st st1 (stats_scale (length xs - 1 - i) δ) (λ p,
         if decide (blk p = b ∧ i ≤ off p < length xs - 1)
         then cell st (mkPtr b (off p + 1))
         else if decide (blk p = b ∧ off p = length xs - 1 ∧ i < length xs - 1)
         then cell_map after (cell st p)
         else cell st p)) E).
  { intros assign after δ Hassign.
    apply wp_bind, wp_ptr_diff; simpl; [done|lia|].
    replace (length xs - (i + 1)) with (length xs - 1 - i) by lia.
    apply (wp_assign_forward_shift _ _ _ b (length xs - 1 - i) Hassign).
    - intros j Hj.
      destruct (owns_live _ _ _ _ _ (i + j) Hown) as (x & Hx & Hcx); [lia|].
      by exists x.
    - intros st1 (Ho1 & Hs1 & Hc1). split_and!; [done..|].
      intros p. rewrite Hc1.
      repeat case_decide; try done; lia. }
  apply wp_bind.
  assert (Hcont : ∀ after δ st1,
    mem_post st st1 (stats_scale (length xs - 1 - i) δ) (λ p,
         if decide (blk p = b ∧ i ≤ off p < length xs - 1)
         then cell st (mkPtr b (off p + 1))
         else if decide (blk p = b ∧ off p = length xs - 1 ∧ i < length xs - 1)
         then cell_map after (cell st p)
         else cell st p) →
    (∀ st', owns st' this b (take i xs ++ drop (S i) xs) cap →
       stats st' = stats st ⊕ stats_scale (length xs - 1 - i) δ ⊕ d_dtor →
       Q (mkPtr b i) st') →
    wp (last ← ptr_sub (mkPtr b (length xs)) 1;
        destroy_at last;;
        v ← vec this;
        set_size this (size_ v - 1);;
        b' ← begin_ this;
        mret (b' +ₚ i)) st1 Q E).
  { intros after δ st1 (Ho1 & Hs1 & Hc1) HQ'.
    apply wp_bind, wp_ptr_sub; simpl; [lia|].
    destruct (owns_live _ _ _ _ _ (length xs - 1) Hown) as (xl & Hxl & Hcl); [lia|].
    assert (∃ y, cell st1 (mkPtr b (length xs - 1)) = Some (Some y)) as [y Hy].
    { cell_cases; rewrite Hcl; simpl; by eexists. }
    apply wp_bind, (wp_destroy_at _ y); [done|].
    intros st2 (Ho2 & Hs2 & Hc2). simpl in Hc2.
    apply wp_bind, (wp_vec _ (mkVec (mkRaw (mkPtr b 0) cap) (length xs))).
    { congruence. }
    apply wp_bind, (wp_set_size _ (mkVec (mkRaw (mkPtr b 0) cap) (length xs))).
    { congruence. }
    intros st3 Ho3 Hs3 Hc3. simpl in Ho3.
    apply wp_bind, (wp_begin _ (mkVec (mkRaw (mkPtr b 0) cap) (length xs - 1))).
    { rewrite Ho3. by rewrite lookup_insert_eq. }
    simpl. apply wp_ret. unfold ptr_add; simpl. apply HQ'; [|stats_solve].
    split_and!.
    - rewrite Ho3, lookup_insert_eq. do 3 f_equal.
      rewrite length_app, length_take, length_drop. lia.
    - rewrite length_app, length_take, length_drop. lia.
    - done.
    - intros j Hj. rewrite lookup_remove_middle. cell_cases.
      all: try (rewrite Hc by lia; repeat f_equal; lia).
      all: try (f_equal; symmetry; apply lookup_ge_None; lia).
      all: rewrite Hc by lia; f_equal.
      all: rewrite !(proj2 (lookup_ge_None _ _)); [done|lia..]. }
  destruct move_if_safe.
  - unfold std_move. eapply wp_mono; [apply (Hshift _ _ _ move_assign_transfers)| |done].
    intros [] st1 Hpost. simpl. by apply (Hcont moved_from d_assign_move).
  - unfold std_copy. eapply wp_mono; [apply (Hshift _ _ _ copy_assign_transfers)| |done].
    intros [] st1 Hpost. simpl. by apply (Hcont id d_assign_copy).
Qed.

End Erase.

(** ** [Resize] *)

Section Resize.
Context {T : Type} {ET : ElementType T}.
Implicit Types (st : @State T) (p q : Ptr) (xs : list T).

Lemma run_bind {A B} (m : M A) (f : A → M B) st :
  (m ≫= f) st =
  match m st with
  | (Ok a, st') => f a st'
  | (Throw, st') => (Throw, st')
  | (Undef, st') => (Undef, st')
  end.
Proof. reflexivity. Qed.

Lemma lookup_resized xs n (x : T) j :
  (take n xs ++ replicate (n - length xs) x) !! j =
    if decide (j < n) then (if decide (j < length xs) then xs !! j else Some x)
    else None.
Proof.
  destruct (decide (n ≤ length xs)) as [Hn|Hn].
  - replace (n - length xs) with 0 by lia. simpl. rewrite app_nil_r.
    repeat case_decide; try lia.
    + by apply lookup_take_lt.
    + apply lookup_take_ge. lia.
  - rewrite take_ge by lia. repeat case_decide.
    + by apply lookup_app_l.
    + rewrite lookup_app_r by lia. apply lookup_replicate_2. lia.
    + apply lookup_ge_None. rewrite length_app, length_replicate. lia.
Qed.

(** The part of [Resize] after the call of [Reserve] *)
Lemma wp_Resize_tail this b xs cap n st (Q : unit → State → Prop) E :
  owns st this b xs cap → n ≤ cap →
  (∀ st', owns st' this b (take n xs ++ replicate (n - length xs) value_init) cap →
     stats st' = stats st ⊕ stats_scale (length xs - n) d_dtor
                   ⊕ stats_scale (n - length xs) d_ctor_value →
     Q tt st') →
  wp (v ← vec this;
      (if decide (n < size_ v)
       then destroy_n (buffer_ (data_ v) +ₚ n) (size_ v - n)
       else uninitialized_value_construct_n (buffer_ (data_ v) +ₚ size_ v)
                                            (n - size_ v));;
      set_size this n) st Q E.
Proof.
  intros Hown Hn HQ. pose proof Hown as (Hv & Hle & Hz & Hc).
  assert (Hlen : length (take n xs ++ replicate (n - length xs) value_init) = n).
  { rewrite length_app, length_take, length_replicate. lia. }
  apply wp_bind, (wp_vec _ _ _ _ _ Hv). simpl. unfold ptr_add; simpl.
  apply wp_bind. destruct (decide (n < length xs)) as [Hshrink|Hgrow].
  - apply wp_destroy_n.
    { intros j Hj.
      destruct (owns_live _ _ _ _ _ (n + j) Hown) as (x & Hx & Hcx); [lia|].
      by exists x. }
    intros st1 (Ho1 & Hs1 & Hc1).
    apply (wp_set_size _ (mkVec (mkRaw (mkPtr b 0) cap) (length xs))).
    { congruence. }
    intros st2 Ho2 Hs2 Hc2. simpl in Ho2. apply HQ.
    + split_and!.
      * rewrite Ho2, lookup_insert_eq. by rewrite Hlen.
      * lia.
      * done.
      * intros j Hj. rewrite lookup_resized. cell_cases.
        all: try (rewrite Hc by lia; repeat f_equal; lia).
        all: rewrite Hc by lia; f_equal; apply lookup_ge_None; lia.
    + replace (n - length xs) with 0 in * by lia. stats_solve.
  - apply wp_uninitialized_value_construct_n.
    { intros j Hj. by apply (owns_valid _ _ _ _ _ _ Hown); lia. }
    intros st1 (Ho1 & Hs1 & Hc1).
    apply (wp_set_size _ (mkVec (mkRaw (mkPtr b 0) cap) (length xs))).
    { congruence. }
    intros st2 Ho2 Hs2 Hc2. simpl in Ho2. apply HQ.
    + split_and!.
      * rewrite Ho2, lookup_insert_eq. by rewrite Hlen.
      * lia.
      * done.
      * intros j Hj. rewrite lookup_resized. cell_cases.
        all: try (rewrite Hc by lia; repeat f_equal; lia).
        all: rewrite Hc by lia; f_equal; apply lookup_ge_None; lia.
    + replace (length xs - n) with 0 in * by lia. stats_solve.
Qed.

Lemma wp_Resize this b xs cap n st (Q : unit → State → Prop) E :
  owns st this b xs cap →
  (∀ b' cap' st',
     owns st' this b' (take n xs ++ replicate (n - length xs) value_init) cap' →
     (n ≤ cap → b' = b ∧ cap' = cap ∧
        stats st' = stats st ⊕ stats_scale (length xs - n) d_dtor
                      ⊕ stats_scale (n - length xs) d_ctor_value) →
     (cap < n → b' ≠ b ∧ cap' = n) →
     Q tt st') →
  (∀ st', fired → move_if_safe = false → cap < n → owns st' this b xs cap → E st') →
  wp (Resize this n) st Q E.
Proof.
  intros Hown HQ HE. pose proof Hown as (Hv & Hle & Hz & Hc).
  unfold Resize. apply wp_bind.
  destruct (decide (n ≤ cap)) as [Hn|Hn].
  - unfold wp at 1. rewrite (Reserve_enough _ _ _ _ Hv) by done.
    apply (wp_Resize_tail _ _ _ _ _ _ _ _ Hown Hn).
    intros st' Hown' Hs'. apply (HQ b cap); [done| |intros; lia]. done.
  - apply (wp_Reserve_grow _ _ _ _ _ _ _ _ Hown); [lia| |].
    + intros b1 st1 Hne Hown1 Hs1.
      apply (wp_Resize_tail _ _ _ _ _ _ _ _ Hown1); [lia|].
      intros st' Hown' Hs'. apply (HQ b1 n); [done|intros; lia|done].
    + intros st' k Hm Hk Hf Hown' Hs'. apply HE; [done..|lia|done].
Qed.

(** [Resize] to the current length: nothing changes, the counters
    included. *)
Lemma Resize_same this b xs cap st :
  owns st this b xs cap → Resize this (length xs) st = (Ok tt, st).
Proof.
  intros (Hv & Hle & Hz & Hc). unfold Resize. rewrite run_bind.
  rewrite (Reserve_enough _ _ _ _ Hv) by done.
  rewrite run_bind. unfold vec at 1. rewrite Hv. simpl.
  rewrite decide_False by lia. rewrite run_bind, Nat.sub_diag. simpl.
  unfold set_size. rewrite run_bind. unfold vec. rewrite Hv. simpl.
  unfold set_vec. rewrite insert_id by done. by destruct st.
Qed.

End Resize.

(** ** Reading a vector that [owns] describes *)

Section Observations.
Context {T : Type} {ET : ElementType T}.
Implicit Types (st : @State T) (p q : Ptr) (xs : list T).

Lemma owns_Size st this b xs cap :
  owns st this b xs cap → Size this st = (Ok (length xs), st).
Proof. intros (Hv & _). unfold Size, mbind, M_bind, vec. by rewrite Hv. Qed.

Lemma owns_Capacity st this b xs cap :
  owns st this b xs cap → Capacity this st = (Ok cap, st).
Proof. intros (Hv & _). unfold Capacity, mbind, M_bind, vec. by rewrite Hv. Qed.

Lemma owns_begin st this b xs cap :
  owns st this b xs cap → begin_ this st = (Ok (mkPtr b 0), st).
Proof. intros (Hv & _). unfold begin_, mbind, M_bind, vec. by rewrite Hv. Qed.

Lemma owns_end st this b xs cap :
  owns st this b xs cap → end_ this st = (Ok (mkPtr b (length xs)), st).
Proof. intros (Hv & _). unfold end_, mbind, M_bind, vec. by rewrite Hv. Qed.

Lemma owns_read st this b xs cap i :
  owns st this b xs cap → read st this i = xs !! i.
Proof.
  intros (Hv & Hle & Hz & Hc). unfold read, subscript, mbind, M_bind, vec.
  rewrite Hv. simpl. destruct (decide (i < length xs)) as [Hi|Hi].
  - unfold RawMemory_at. simpl. rewrite decide_True by lia.
    unfold mret, M_ret, load, ptr_add. simpl. rewrite Hc by lia.
    by destruct (xs !! i).
  - simpl. symmetry. apply lookup_ge_None. lia.
Qed.

Lemma owns_contents st this b xs cap :
  owns st this b xs cap → contents st this = Some xs.
Proof.
  intros Hown. pose proof Hown as (Hv & _). unfold contents. rewrite Hv. simpl.
  apply mapM_Some_2, Forall2_same_length_lookup. split.
  - by rewrite length_seq.
  - intros i j x Hj Hx. apply lookup_seq in Hj as [-> _].
    by rewrite (owns_read _ _ _ _ _ _ Hown).
Qed.

(** Two descriptions of one state agree. *)
Lemma owns_agree st this b xs cap b' xs' cap' :
  owns st this b xs cap → owns st this b' xs' cap' →
  b' = b ∧ xs' = xs ∧ cap' = cap.
Proof.
  intros Hown Hown'.
  pose proof (owns_contents _ _ _ _ _ Hown) as Hc.
  rewrite (owns_contents _ _ _ _ _ Hown') in Hc.
  destruct Hown as (Hv & _), Hown' as (Hv' & _). rewrite Hv in Hv'.
  by simplify_eq.
Qed.

End Observations.

(** ** The specified behaviour of the operations *)

Section Specification.
Context {T : Type} {ET : ElementType T}.
Implicit Types (st : @State T) (p q : Ptr) (xs : list T).

Lemma Vector_default_owns this st :
  ∃ st', Vector_default this st = (Ok tt, st') ∧ owns st' this 0 [] 0 ∧
         stats st' = stats st.
Proof.
  eexists. split; [reflexivity|]. split; [|done].
  split_and!; simpl; [by rewrite lookup_insert_eq|done|done|intros i Hi; lia].
Qed.

Lemma wp_appends this (ops : list Append) : ∀ b xs cap st,
  owns st this b xs cap →
  fits (2 * (length xs + length ops)) →
  wp (appends this ops) st
     (λ _ st', ∃ b' cap', owns st' this b' (xs ++ (append_value <$> ops)) cap')
     (λ _, fired).
Proof.
  induction ops as [|a ops IH]; intros b xs cap st Hown Hfit; simpl.
  - apply wp_ret. exists b, cap. by rewrite app_nil_r.
  - apply wp_bind.
    assert (∃ arg, do_append this a = PushBackImpl this arg ∧
                   arg_value arg = append_value a) as (arg & -> & Harg).
    { destruct a as [x|x]; [by exists (CopyOf x)|by exists (MoveOf x)]. }
    apply (wp_PushBackImpl _ _ _ _ _ _ _ _ Hown); [| |by intros].
    { intros <-. apply (fits_le _ _ Hfit). simpl. lia. }
    intros b' cap' st' Hown' _ _. rewrite Harg in Hown'.
    eapply wp_mono; [apply (IH _ _ _ _ Hown')| |done].
    { apply (fits_le _ _ Hfit). rewrite length_app. simpl. lia. }
    intros _ st'' (b'' & cap'' & Hown''). exists b'', cap''.
    by rewrite <- app_assoc in Hown''.
Qed.

(** C2.  An empty vector, of any capacity, that receives any sequence of
    appends, each a [PushBack] by copy or by move, twice as many of them
    still being a value of [size_t], either ends with a throwing copy
    constructor or returns with [Size()] equal to the number of appends
    and, at each index, the value appended at that position. *)
Theorem appends_from_empty this b cap (ops : list Append) st0 r st :
  owns st0 this b [] cap →
  fits (2 * length ops) →
  appends this ops st0 = (r, st) →
  (r = Ok tt ∧
   Size this st = (Ok (length ops), st) ∧
   ∀ i a, ops !! i = Some a → read st this i = Some (append_value a))
  ∨ (r = Throw ∧ fired).
Proof.
  intros Hown Hfit Hrun.
  destruct (wp_run _ _ _ _ _ _ (wp_appends _ ops _ _ _ _ Hown Hfit) Hrun)
    as [([] & -> & b' & cap' & Hown')|[-> Hf]]; [left|by right].
  simpl in Hown'. split_and!; [done| |].
  - rewrite (owns_Size _ _ _ _ _ Hown'). by rewrite length_fmap.
  - intros i a Ha. rewrite (owns_read _ _ _ _ _ _ Hown').
    by rewrite list_lookup_fmap, Ha.
Qed.

(** C10.  Copy assignment and move assignment of a vector to itself return
    without changing anything. *)
Theorem self_assignment this st :
  assign_copy this this st = (Ok this, st) ∧
  assign_move this this st = (Ok this, st).
Proof.
  unfold assign_copy, assign_move, mbind, M_bind.
  by rewrite !decide_False by (intros H; by apply H).
Qed.

(** Every operation on its growth path: the new capacity, the counters
    and, when the transplant throws, the untouched vector. *)
Lemma wp_run_growth this b xs cap (op : GrowthOp) st :
  owns st this b xs cap → reallocates op (length xs) cap →
  wp (run_growth this op) st
     (λ _ st', ∃ b' ys,
        owns st' this b' ys
          (match op with
           | DoReserve n => n
           | _ => if decide (cap = 0) then 1 else cap * 2
           end) ∧
        stats st' = stats st ⊕ d_alloc ⊕ new_element_stats op
                      ⊕ stats_scale (length xs) transplant_stats
                      ⊕ stats_scale (length xs) d_dtor ⊕ release_stats cap)
     (λ st', fired ∧ owns st' this b xs cap).
Proof.
  intros Hown Hre. destruct op as [n|a|a|i a]; simpl in *.
  - apply (wp_Reserve_grow _ _ _ _ _ _ _ _ Hown Hre); [|by intros].
    intros b1 st1 _ Hown1 Hs1. exists b1, xs. split; [done|]. stats_solve.
  - destruct Hre as [Hre Hfit].
    apply (wp_PushBackImpl _ _ _ _ _ _ _ _ Hown); [done| |by intros].
    intros b1 cap1 st1 Hown1 _ Hfull. destruct (Hfull Hre) as (_ & -> & Hs1).
    by exists b1, (xs ++ [arg_value a]).
  - destruct Hre as [Hre Hfit].
    apply wp_bind, (wp_EmplaceBack _ _ _ _ _ _ _ _ Hown); [done| |by intros].
    intros b1 cap1 st1 Hown1 _ Hfull. destruct (Hfull Hre) as (_ & -> & Hs1).
    apply wp_ret. by exists b1, (xs ++ [arg_value a]).
  - destruct Hre as (Hfull & Hi & Hfit). apply wp_bind.
    unfold wp at 1. rewrite (owns_begin _ _ _ _ _ Hown). unfold ptr_add; simpl.
    apply wp_bind, (wp_Emplace _ _ _ _ _ _ _ _ _ Hown Hi); [done|..].
    + intros b1 cap1 st1 Hown1 _ Hgrow. destruct (Hgrow Hfull) as (_ & -> & Hs1).
      apply wp_ret. by exists b1, (take i xs ++ arg_value a :: drop i xs).
    + intros st1 Hf [Hown1|(_ & Hlt & _)]; [done|lia].
Qed.

(** C3.  An operation on its growth path ([Reserve] above the capacity, or
    [PushBack], [EmplaceBack], [Emplace] on a full vector of length [L]
    whose doubled capacity is a value of [size_t]) that returns has,
    besides the construction of the new element, performed [L] copy
    constructions and no move construction when the move constructor may
    throw and the type is copy-constructible, and [L] move constructions
    and no copy construction otherwise. *)
Theorem transplant_copies_or_moves this b xs cap (op : GrowthOp) st r st' :
  owns st this b xs cap → reallocates op (length xs) cap →
  run_growth this op st = (r, st') →
  (r = Ok tt ∧
   (is_nothrow_move_constructible = false ∧ is_copy_constructible = true →
      n_ctor_copy (stats st') =
        n_ctor_copy (stats st) + n_ctor_copy (new_element_stats op) + length xs ∧
      n_ctor_move (stats st') =
        n_ctor_move (stats st) + n_ctor_move (new_element_stats op)) ∧
   (is_nothrow_move_constructible = true ∨ is_copy_constructible = false →
      n_ctor_move (stats st') =
        n_ctor_move (stats st) + n_ctor_move (new_element_stats op) + length xs ∧
      n_ctor_copy (stats st') =
        n_ctor_copy (stats st) + n_ctor_copy (new_element_stats op)))
  ∨ (r = Throw ∧ fired).
Proof.
  intros Hown Hre Hrun.
  destruct (wp_run _ _ _ _ _ _ (wp_run_growth _ _ _ _ _ _ Hown Hre) Hrun)
    as [([] & -> & b1 & ys & _ & Hs)|[-> [Hf _]]]; [left|by right].
  split; [done|]. rewrite Hs. unfold transplant_stats, move_if_safe, release_stats.
  split.
  - intros [-> ->]. simpl. case_decide; stats_fields; lia.
  - intros [-> | ->]; simpl; rewrite ?orb_true_r;
      case_decide; stats_fields; lia.
Qed.

(** C8.  An append or an insert on a vector whose length equals its
    capacity [cap], with [2 * cap] a value of [size_t], if it returns,
    leaves the capacity [max 1 (2 * cap)]. *)
Theorem growth_doubles this b xs cap (op : GrowthOp) st r st' :
  owns st this b xs cap → reallocates op (length xs) cap →
  (∀ n, op ≠ DoReserve n) →
  run_growth this op st = (r, st') →
  (r = Ok tt ∧ Capacity this st' = (Ok (Nat.max 1 (2 * cap)), st'))
  ∨ (r = Throw ∧ fired).
Proof.
  intros Hown Hre Hop Hrun.
  destruct (wp_run _ _ _ _ _ _ (wp_run_growth _ _ _ _ _ _ Hown Hre) Hrun)
    as [([] & -> & b1 & ys & Hown1 & _)|[-> [Hf _]]]; [left|by right].
  split; [done|]. rewrite (owns_Capacity _ _ _ _ _ Hown1). do 2 f_equal.
  destruct op; [by destruct (Hop new_capacity)|..]; case_decide; lia.
Qed.

(** C4.  Inserting before index [i] of a vector of length [L], with
    [i ≤ L], [2 * L] a value of [size_t] and the iterator [begin() + i],
    by [Emplace] with any constructor arguments, by [Insert(pos, const T&)]
    or by [Insert(pos, T&&)]: each of the three either ends with a throwing
    copy constructor or returns the iterator [begin() + i] of the resulting
    vector, which has length [L + 1], holds the new value at index [i], the
    old elements of [0 .. i) in place and the old elements of [i .. L) one
    index higher; reading through the returned iterator yields the new
    value. *)
Theorem Emplace_inserts this b xs cap i st r st' :
  owns st this b xs cap → i ≤ length xs → fits (2 * length xs) →
  let inserted (v : T) :=
    (∃ b', r = Ok (mkPtr b' i) ∧
       begin_ this st' = (Ok (mkPtr b' 0), st') ∧
       load (mkPtr b' i) st' = (Ok v, st') ∧
       Size this st' = (Ok (S (length xs)), st') ∧
       read st' this i = Some v ∧
       (∀ j, j < i → read st' this j = xs !! j) ∧
       (∀ j, i ≤ j → read st' this (S j) = xs !! j))
    ∨ (r = Throw ∧ fired) in
  (∀ a : Arg, Emplace this (mkPtr b i) a st = (r, st') → inserted (arg_value a)) ∧
  (∀ x, Insert_copy this (mkPtr b i) x st = (r, st') → inserted x) ∧
  (∀ x, Insert_move this (mkPtr b i) x st = (r, st') → inserted x).
Proof.
  intros Hown Hi Hfit inserted.
  assert (Hcore : ∀ a : Arg,
    Emplace this (mkPtr b i) a st = (r, st') → inserted (arg_value a)).
  { intros a Hrun.
    assert (Hwp : wp (Emplace this (mkPtr b i) a) st
      (λ it st1, ∃ b1 cap1, it = mkPtr b1 i ∧
         owns st1 this b1 (take i xs ++ arg_value a :: drop i xs) cap1)
      (λ _, fired)).
    { apply (wp_Emplace _ _ _ _ _ _ _ _ _ Hown Hi); [by intros <-| |by intros].
      intros b1 cap1 st1 Hown1 _ _. by exists b1, cap1. }
    destruct (wp_run _ _ _ _ _ _ Hwp Hrun)
      as [(it & -> & b1 & cap1 & -> & Hown1)|[-> Hf]]; [left|by right].
    assert (Hlen : length (take i xs ++ arg_value a :: drop i xs) = S (length xs)).
    { rewrite length_app, length_take. simpl. rewrite length_drop. lia. }
    exists b1. split_and!; [done|..].
    - by apply (owns_begin _ _ _ _ _ Hown1).
    - destruct Hown1 as (_ & Hle & _ & Hc). unfold load. rewrite Hc by lia.
      rewrite lookup_insert_middle by done.
      rewrite decide_False, decide_True by lia. done.
    - rewrite (owns_Size _ _ _ _ _ Hown1). by rewrite Hlen.
    - rewrite (owns_read _ _ _ _ _ _ Hown1), lookup_insert_middle by done.
      by rewrite decide_False, decide_True by lia.
    - intros j Hj.
      rewrite (owns_read _ _ _ _ _ _ Hown1), lookup_insert_middle by done.
      by rewrite decide_True by lia.
    - intros j Hj.
      rewrite (owns_read _ _ _ _ _ _ Hown1), lookup_insert_middle by done.
      rewrite !decide_False by lia. f_equal. lia. }
  split_and!; [done| |].
  - intros x Hrun. apply (Hcore (CopyOf x) Hrun).
  - intros x Hrun. apply (Hcore (MoveOf x) Hrun).
Qed.

(** C5.  [Erase] at index [i] of a vector of length [L], with [i < L] and
    the iterator [begin() + i], returns the iterator [begin() + i] of the
    resulting vector, which has length [L - 1], holds the old elements of
    [0 .. i) in place and the old elements of [i + 1 .. L) one index
    lower; the returned iterator is [end()] when the last element was
    erased and otherwise refers to the element that followed the erased
    one. *)
Theorem Erase_removes this b xs cap i st r st' :
  owns st this b xs cap → i < length xs →
  Erase this (mkPtr b i) st = (r, st') →
  r = Ok (mkPtr b i) ∧
  begin_ this st' = (Ok (mkPtr b 0), st') ∧
  Size this st' = (Ok (length xs - 1), st') ∧
  (∀ j, j < i → read st' this j = xs !! j) ∧
  (∀ j, i ≤ j → read st' this j = xs !! (S j)) ∧
  (i = length xs - 1 → end_ this st' = (Ok (mkPtr b i), st')) ∧
  (∀ x, xs !! (S i) = Some x → load (mkPtr b i) st' = (Ok x, st')).
Proof.
  intros Hown Hi Hrun.
  assert (Hwp : wp (Erase this (mkPtr b i)) st
    (λ it st1, it = mkPtr b i ∧ owns st1 this b (take i xs ++ drop (S i) xs) cap)
    (λ _, False)).
  { apply (wp_Erase _ _ _ _ _ _ _ _ Hown Hi). by intros. }
  destruct (wp_run _ _ _ _ _ _ Hwp Hrun) as [(it & -> & -> & Hown1)|[_ []]].
  assert (Hlen : length (take i xs ++ drop (S i) xs) = length xs - 1).
  { rewrite length_app, length_take, length_drop. lia. }
  split_and!; [done|..].
  - by apply (owns_begin _ _ _ _ _ Hown1).
  - rewrite (owns_Size _ _ _ _ _ Hown1). by rewrite Hlen.
  - intros j Hj. rewrite (owns_read _ _ _ _ _ _ Hown1), lookup_remove_middle.
    by rewrite decide_True by lia.
  - intros j Hj. rewrite (owns_read _ _ _ _ _ _ Hown1), lookup_remove_middle.
    by rewrite decide_False by lia.
  - intros ->. rewrite (owns_end _ _ _ _ _ Hown1). by rewrite Hlen.
  - intros x Hx. pose proof (lookup_lt_Some _ _ _ Hx) as Hlt.
    destruct Hown1 as (_ & Hle & _ & Hc). unfold load.
    pose proof Hown as (_ & Hle0 & _). rewrite Hc by lia.
    rewrite lookup_remove_middle, decide_False by lia. by rewrite Hx.
Qed.

End Specification.

(** ** Exceptions and the invariant *)

Section Safety.
Context {T : Type} {ET : ElementType T}.
Implicit Types (st : @State T) (p q : Ptr) (xs : list T).

Lemma wp_PopBack this b xs cap st (Q : unit → State → Prop) E :
  owns st this b xs cap → 0 < length xs →
  (∀ st', owns st' this b (take (length xs - 1) xs) cap →
     stats st' = stats st ⊕ d_dtor → Q tt st') →
  wp (PopBack this) st Q E.
Proof.
  intros Hown Hpos HQ. pose proof Hown as (Hv & Hle & Hz & Hc).
  unfold PopBack. apply wp_bind, (wp_end _ _ _ _ _ Hv). unfold ptr_add; simpl.
  apply wp_bind, wp_ptr_sub; simpl; [lia|].
  destruct (owns_live _ _ _ _ _ (length xs - 1) Hown) as (xl & Hxl & Hcl); [lia|].
  apply wp_bind, (wp_destroy_at _ xl); [done|].
  intros st1 (Ho1 & Hs1 & Hc1). simpl in Hc1.
  apply wp_bind, (wp_vec _ (mkVec (mkRaw (mkPtr b 0) cap) (length xs))).
  { congruence. }
  apply (wp_set_size _ (mkVec (mkRaw (mkPtr b 0) cap) (length xs))).
  { congruence. }
  intros st2 Ho2 Hs2 Hc2. simpl in Ho2. apply HQ; [|stats_solve].
  split_and!.
  - rewrite Ho2, lookup_insert_eq. do 3 f_equal. rewrite length_take. lia.
  - rewrite length_take. lia.
  - done.
  - intros j Hj. cell_cases.
    + f_equal. symmetry. apply lookup_take_ge. lia.
    + rewrite Hc by lia. f_equal.
      destruct (decide (j < length xs - 1)).
      * by rewrite lookup_take_lt.
      * rewrite lookup_take_ge by lia. apply lookup_ge_None. lia.
Qed.

(** [Swap] exchanges what two distinct vectors own. *)
Lemma Swap_owns this other b xs cap b' xs' cap' st :
  this ≠ other →
  owns st this b xs cap → owns st other b' xs' cap' →
  ∃ st', Swap this other st = (Ok tt, st') ∧ stats st' = stats st ∧
         owns st' this b' xs' cap' ∧ owns st' other b xs cap.
Proof.
  intros Hne (Hv & Hle & Hz & Hc) (Hv' & Hle' & Hz' & Hc').
  eexists. split.
  { unfold Swap, mbind, M_bind, vec. rewrite Hv, Hv'. reflexivity. }
  split; [done|]. split.
  - split_and!; [|done..]. simpl. by rewrite lookup_insert_eq.
  - split_and!; [|done..]. simpl.
    rewrite lookup_insert_ne by done. by rewrite lookup_insert_eq.
Qed.

(** X27.  For an element type that is copy-constructible, or whose move
    constructor does not throw, an operation on its growth path that
    throws leaves the length, the capacity and the contents of the vector
    as they were.  (A type that can only be moved and whose move
    constructor may throw is transplanted by move; it is outside this
    statement.) *)
Lemma growth_throw_keeps_vector this b xs cap (op : GrowthOp) st st' :
  owns st this b xs cap → reallocates op (length xs) cap →
  is_copy_constructible = true ∨ is_nothrow_move_constructible = true →
  run_growth this op st = (Throw, st') →
  owns st' this b xs cap.
Proof.
  intros Hown Hre _ Hrun.
  destruct (wp_run _ _ _ _ _ _ (wp_run_growth _ _ _ _ _ _ Hown Hre) Hrun)
    as [(? & [=] & _)|[_ [_ Hown']]]. done.
Qed.

(** X28.  A [Reserve] that throws has destroyed every element it
    constructed and released the block it allocated. *)
Lemma Reserve_throw_balanced this b xs cap n st st' :
  owns st this b xs cap →
  Reserve this n st = (Throw, st') →
  constructions (stats st') + n_dtor (stats st) =
    constructions (stats st) + n_dtor (stats st') ∧
  n_alloc (stats st') + n_dealloc (stats st) =
    n_alloc (stats st) + n_dealloc (stats st').
Proof.
  intros Hown Hrun. destruct (decide (n ≤ cap)) as [Hn|Hn].
  { destruct Hown as (Hv & _).
    by rewrite (Reserve_enough _ _ _ _ Hv) in Hrun by done. }
  assert (Hwp : wp (Reserve this n) st (λ _ _, True)
    (λ st1, ∃ k, stats st1 = stats st ⊕ d_alloc
                   ⊕ stats_scale k (d_copy_call ⊕ d_ctor_copy)
                   ⊕ d_copy_call ⊕ stats_scale k d_dtor ⊕ d_dealloc)).
  { apply (wp_Reserve_grow _ _ _ _ _ _ _ _ Hown); [lia|done|].
    intros st1 k _ _ _ _ Hs. by exists k. }
  destruct (wp_run _ _ _ _ _ _ Hwp Hrun) as [(? & [=] & _)|[_ [k Hs]]].
  rewrite Hs. unfold constructions. stats_fields. lia.
Qed.

(** X29.  For an element type that is copy-constructible, or whose move
    constructor does not throw, a [PushBack] that throws leaves the vector
    as it was, and has either destroyed as many elements as it
    constructed, or one fewer: on a full vector of a type that is
    transplanted by copy, the new element built in the new block before
    the transplant is not destroyed when the transplant throws. *)
Lemma PushBackImpl_throw_unbalanced this b xs cap (a : Arg) st st' :
  owns st this b xs cap → fits (2 * length xs) →
  is_copy_constructible = true ∨ is_nothrow_move_constructible = true →
  PushBackImpl this a st = (Throw, st') →
  owns st' this b xs cap ∧
  (constructions (stats st') + n_dtor (stats st) =
     constructions (stats st) + n_dtor (stats st')
   ∨ (length xs = cap ∧ move_if_safe = false ∧
      constructions (stats st') + n_dtor (stats st) =
        constructions (stats st) + n_dtor (stats st') + 1)).
Proof.
  intros Hown Hfit _ Hrun.
  assert (Hwp : wp (PushBackImpl this a) st (λ _ _, True)
    (λ st1, owns st1 this b xs cap ∧
      (constructions (stats st1) + n_dtor (stats st) =
         constructions (stats st) + n_dtor (stats st1)
       ∨ (length xs = cap ∧ move_if_safe = false ∧
          constructions (stats st1) + n_dtor (stats st) =
            constructions (stats st) + n_dtor (stats st1) + 1)))).
  { apply (wp_PushBackImpl _ _ _ _ _ _ _ _ Hown); [by intros <-|done|].
    intros st1 _ Hown1 [Hs|(k & Hk & Hfull & Hm & Hs)]; (split; [done|]).
    - left. rewrite Hs. unfold constructions.
      case_decide; stats_fields; lia.
    - right. split_and!; [done..|]. rewrite Hs. unfold constructions.
      destruct a; stats_fields; lia. }
  destruct (wp_run _ _ _ _ _ _ Hwp Hrun) as [(? & [=] & _)|[_ H]]. done.
Qed.

End Safety.
(** ** The scenarios *)

Lemma empty_vector_owns : owns empty_vector 1 0 [] 0.
Proof.
  split_and!; [by vm_compute|simpl; lia|done|]. intros i Hi. lia.
Qed.

Lemma three_of_four_owns : owns (three_of_four Copying) 1 1 [10; 20; 30] 4.
Proof.
  split_and!; [by vm_compute|simpl; lia|split; intros; lia|].
  intros i Hi. destruct i as [|[|[|[|i]]]]; try lia; by vm_compute.
Qed.

Lemma two_of_two_owns : owns (two_of_two Copying) 1 2 [10; 20] 2.
Proof.
  split_and!; [by vm_compute|simpl; lia|split; intros; lia|].
  intros i Hi. destruct i as [|[|i]]; try lia; by vm_compute.
Qed.

Lemma two_of_two_throwing_owns : owns (two_of_two (Throwing 1)) 1 2 [10; 20] 2.
Proof.
  split_and!; [by vm_compute|simpl; lia|split; intros; lia|].
  intros i Hi. destruct i as [|[|i]]; try lia; by vm_compute.
Qed.

Lemma one_of_two_owns : owns (one_of_two (Throwing 2)) 1 1 [10] 2.
Proof.
  split_and!; [by vm_compute|simpl; lia|split; intros; lia|].
  intros i Hi. destruct i as [|[|i]]; try lia; by vm_compute.
Qed.

(** C1.  Constructions and destructions do not balance after a throwing
    transplant of [PushBack]: on the full vector [10; 20] of a type that is
    transplanted by copy, [PushBack(std::move(x))] whose first transplant
    copy throws leaves length, capacity and contents as they were and
    releases the block it allocated, but the element it move-constructed
    in that block is never destroyed: one construction more, no
    destruction more. *)
Theorem PushBack_throw_leaks_new_element :
  PushBack_move (ET := Throwing 1) 1 30 (two_of_two (Throwing 1))
    = (Throw, after_failed_push) ∧
  contents (two_of_two (Throwing 1)) 1 = Some [10; 20] ∧
  contents after_failed_push 1 = Some [10; 20] ∧
  Capacity 1 after_failed_push = (Ok 2, after_failed_push) ∧
  n_alloc (stats after_failed_push) = n_alloc (stats (two_of_two (Throwing 1))) + 1 ∧
  n_dealloc (stats after_failed_push) = n_dealloc (stats (two_of_two (Throwing 1))) + 1 ∧
  n_ctor_move (stats after_failed_push) =
    n_ctor_move (stats (two_of_two (Throwing 1))) + 1 ∧
  constructions (stats after_failed_push) =
    constructions (stats (two_of_two (Throwing 1))) + 1 ∧
  n_dtor (stats after_failed_push) = n_dtor (stats (two_of_two (Throwing 1))).
Proof. split_and!; by vm_compute. Qed.

(** C9.  The invariant does not survive a throwing insert: on the vector
    [10] of capacity 2 of a type that is shifted by copy,
    [Insert(begin(), x)] whose third copy constructor call throws (the
    second construction at [end()]) leaves the length 1 while slot 1 holds
    a live element: the invariant that held before does not hold
    afterwards. *)
Theorem Insert_throw_leaves_live_slot :
  vector_invariant (one_of_two (Throwing 2)) 1 ∧
  begin_ 1 (one_of_two (Throwing 2))
    = (Ok (mkPtr 1 0), one_of_two (Throwing 2)) ∧
  Insert_copy (ET := Throwing 2) 1 (mkPtr 1 0) 5 (one_of_two (Throwing 2))
    = (Throw, after_failed_insert) ∧
  Size 1 after_failed_insert = (Ok 1, after_failed_insert) ∧
  Capacity 1 after_failed_insert = (Ok 2, after_failed_insert) ∧
  cell after_failed_insert (mkPtr 1 1) = Some (Some 10) ∧
  ¬ vector_invariant after_failed_insert 1.
Proof.
  split_and!; try by vm_compute.
  - exists 1, [10], 2. apply one_of_two_owns.
  - intros (b & xs & cap & Hv & Hle & Hz & Hc).
    assert (Hobj : objs after_failed_insert !! 1
                   = Some (mkVec (mkRaw (mkPtr 1 0) 2) 1)) by (by vm_compute).
    rewrite Hobj in Hv. injection Hv as Hb Hcap Hlen. subst b cap.
    specialize (Hc 1 ltac:(lia)).
    rewrite (proj2 (lookup_ge_None xs 1)) in Hc by lia.
    by vm_compute in Hc.
Qed.

(** ** The theorems at concrete inputs *)

Lemma appends_from_empty_witness :
  owns empty_vector 1 0 [] 0 ∧
  fits (2 * 3) ∧
  appends (ET := Copying) 1 [ByCopy 5; ByMove 6; ByCopy 7] empty_vector
    = (Ok tt, after_appends) ∧
  Size 1 after_appends = (Ok 3, after_appends) ∧
  read after_appends 1 0 = Some 5 ∧
  read after_appends 1 1 = Some 6 ∧
  read after_appends 1 2 = Some 7.
Proof.
  assert (Hfit : fits (2 * 3)) by reflexivity.
  assert (Hrun : appends (ET := Copying) 1 [ByCopy 5; ByMove 6; ByCopy 7]
                   empty_vector = (Ok tt, after_appends)) by (by vm_compute).
  destruct (appends_from_empty (ET := Copying) 1 0 0 [ByCopy 5; ByMove 6; ByCopy 7]
              empty_vector (Ok tt) after_appends empty_vector_owns Hfit Hrun)
    as [(_ & Hsize & Hread)|[Hthrow _]]; [|discriminate Hthrow].
  split_and!; [exact empty_vector_owns|exact Hfit|exact Hrun|exact Hsize|..].
  - exact (Hread 0 (ByCopy 5) eq_refl).
  - exact (Hread 1 (ByMove 6) eq_refl).
  - exact (Hread 2 (ByCopy 7) eq_refl).
Defined.

Lemma transplant_copies_or_moves_witness :
  owns (two_of_two Copying) 1 2 [10; 20] 2 ∧
  reallocates (DoPushBack (CopyOf 30)) 2 2 ∧
  run_growth (ET := Copying) 1 (DoPushBack (CopyOf 30)) (two_of_two Copying)
    = (Ok tt, after_growing_push) ∧
  n_ctor_copy (stats after_growing_push)
    = n_ctor_copy (stats (two_of_two Copying)) + 1 + 2 ∧
  n_ctor_move (stats after_growing_push)
    = n_ctor_move (stats (two_of_two Copying)) + 0.
Proof.
  assert (Hre : reallocates (T := nat) (DoPushBack (CopyOf 30)) 2 2)
    by (split; reflexivity).
  assert (Hrun : run_growth (ET := Copying) 1 (DoPushBack (CopyOf 30))
                   (two_of_two Copying) = (Ok tt, after_growing_push))
    by (by vm_compute).
  destruct (transplant_copies_or_moves (ET := Copying) 1 2 [10; 20] 2
              (DoPushBack (CopyOf 30)) (two_of_two Copying) (Ok tt)
              after_growing_push two_of_two_owns Hre Hrun)
    as [(_ & Hcopy & _)|[Hthrow _]]; [|discriminate Hthrow].
  destruct (Hcopy (conj eq_refl eq_refl)) as [Hc Hm].
  split_and!; [exact two_of_two_owns|exact Hre|exact Hrun|exact Hc|exact Hm].
Defined.

Lemma Emplace_inserts_witness :
  let st := three_of_four Copying in
  let moved := snd (Insert_move (ET := Copying) 1 (mkPtr 1 1) 15 st) in
  owns st 1 1 [10; 20; 30] 4 ∧
  1 ≤ length [10; 20; 30] ∧
  fits (2 * length [10; 20; 30]) ∧
  Emplace (ET := Copying) 1 (mkPtr 1 1) (CopyOf 15) st
    = (Ok (mkPtr 1 1), after_insert) ∧
  begin_ 1 after_insert = (Ok (mkPtr 1 0), after_insert) ∧
  load (mkPtr 1 1) after_insert = (Ok 15, after_insert) ∧
  Size 1 after_insert = (Ok 4, after_insert) ∧
  read after_insert 1 0 = Some 10 ∧
  read after_insert 1 1 = Some 15 ∧
  read after_insert 1 2 = Some 20 ∧
  read after_insert 1 3 = Some 30 ∧
  Insert_copy (ET := Copying) 1 (mkPtr 1 1) 15 st
    = (Ok (mkPtr 1 1), after_insert) ∧
  Insert_move (ET := Copying) 1 (mkPtr 1 1) 15 st = (Ok (mkPtr 1 1), moved) ∧
  Size 1 moved = (Ok 4, moved) ∧
  read moved 1 0 = Some 10 ∧
  read moved 1 1 = Some 15 ∧
  read moved 1 2 = Some 20 ∧
  read moved 1 3 = Some 30.
Proof.
  intros st moved.
  assert (Hi : 1 ≤ length [10; 20; 30]) by (simpl; lia).
  assert (Hfit : fits (2 * length [10; 20; 30])) by reflexivity.
  assert (Hrun : Emplace (ET := Copying) 1 (mkPtr 1 1) (CopyOf 15) st
                 = (Ok (mkPtr 1 1), after_insert)) by (by vm_compute).
  assert (Hcopy : Insert_copy (ET := Copying) 1 (mkPtr 1 1) 15 st
                  = (Ok (mkPtr 1 1), after_insert)) by (by vm_compute).
  assert (Hmove : Insert_move (ET := Copying) 1 (mkPtr 1 1) 15 st
                  = (Ok (mkPtr 1 1), moved)) by (by vm_compute).
  pose proof (Emplace_inserts (ET := Copying) 1 1 [10; 20; 30] 4 1 st
                (Ok (mkPtr 1 1)) after_insert three_of_four_owns Hi Hfit)
    as (HE & HC & _).
  pose proof (Emplace_inserts (ET := Copying) 1 1 [10; 20; 30] 4 1 st
                (Ok (mkPtr 1 1)) moved three_of_four_owns Hi Hfit)
    as (_ & _ & HM).
  destruct (HE (CopyOf 15) Hrun)
    as [(b' & Hit & Hbegin & Hload & Hsize & Hnew & Hbefore & Hafter)
       |[Hthrow _]]; [|discriminate Hthrow].
  destruct (HC 15 Hcopy) as [_|[Hthrow _]]; [|discriminate Hthrow].
  destruct (HM 15 Hmove)
    as [(b2 & _ & _ & _ & Hsize2 & Hnew2 & Hbefore2 & Hafter2)
       |[Hthrow _]]; [|discriminate Hthrow].
  injection Hit as <-.
  split_and!; [exact three_of_four_owns|exact Hi|exact Hfit|exact Hrun
              |exact Hbegin|exact Hload|exact Hsize|..].
  - exact (Hbefore 0 ltac:(lia)).
  - exact Hnew.
  - exact (Hafter 1 ltac:(lia)).
  - exact (Hafter 2 ltac:(lia)).
  - exact Hcopy.
  - exact Hmove.
  - exact Hsize2.
  - exact (Hbefore2 0 ltac:(lia)).
  - exact Hnew2.
  - exact (Hafter2 1 ltac:(lia)).
  - exact (Hafter2 2 ltac:(lia)).
Defined.

Lemma Erase_removes_witness :
  owns (three_of_four Copying) 1 1 [10; 20; 30] 4 ∧
  1 < length [10; 20; 30] ∧
  Erase (ET := Copying) 1 (mkPtr 1 1) (three_of_four Copying)
    = (Ok (mkPtr 1 1), after_erase) ∧
  begin_ 1 after_erase = (Ok (mkPtr 1 0), after_erase) ∧
  Size 1 after_erase = (Ok 2, after_erase) ∧
  read after_erase 1 0 = Some 10 ∧
  read after_erase 1 1 = Some 30 ∧
  load (mkPtr 1 1) after_erase = (Ok 30, after_erase).
Proof.
  assert (Hi : 1 < length [10; 20; 30]) by (simpl; lia).
  assert (Hrun : Erase (ET := Copying) 1 (mkPtr 1 1) (three_of_four Copying)
                 = (Ok (mkPtr 1 1), after_erase)) by (by vm_compute).
  destruct (Erase_removes (ET := Copying) 1 1 [10; 20; 30] 4 1
              (three_of_four Copying) (Ok (mkPtr 1 1)) after_erase
              three_of_four_owns Hi Hrun)
    as (_ & Hbegin & Hsize & Hbefore & Hafter & _ & Hnext).
  split_and!; [exact three_of_four_owns|exact Hi|exact Hrun|exact Hbegin
              |exact Hsize|..].
  - exact (Hbefore 0 ltac:(lia)).
  - exact (Hafter 1 ltac:(lia)).
  - exact (Hnext 30 eq_refl).
Defined.

Lemma growth_doubles_witness :
  owns (two_of_two Copying) 1 2 [10; 20] 2 ∧
  reallocates (DoEmplace 1 (CopyOf 15)) 2 2 ∧
  run_growth (ET := Copying) 1 (DoEmplace 1 (CopyOf 15)) (two_of_two Copying)
    = (Ok tt, after_growing_emplace) ∧
  Capacity 1 after_growing_emplace = (Ok 4, after_growing_emplace).
Proof.
  assert (Hre : reallocates (T := nat) (DoEmplace 1 (CopyOf 15)) 2 2)
    by (split_and!; [reflexivity|simpl; lia|reflexivity]).
  assert (Hop : ∀ n, DoEmplace 1 (CopyOf 15) ≠ DoReserve (T := nat) n)
    by (intros n Heq; discriminate Heq).
  assert (Hrun : run_growth (ET := Copying) 1 (DoEmplace 1 (CopyOf 15))
                   (two_of_two Copying) = (Ok tt, after_growing_emplace))
    by (by vm_compute).
  destruct (growth_doubles (ET := Copying) 1 2 [10; 20] 2
              (DoEmplace 1 (CopyOf 15)) (two_of_two Copying) (Ok tt)
              after_growing_emplace two_of_two_owns Hre Hop Hrun)
    as [(_ & Hcap)|[Hthrow _]]; [|discriminate Hthrow].
  split_and!; [exact two_of_two_owns|exact Hre|exact Hrun|exact Hcap].
Defined.

(** [EmplaceBack] on the same full vector: the element built from the
    arguments is not destroyed either. *)
Example EmplaceBack_throw_leaks :
  ∃ st, EmplaceBack (ET := Throwing 1) 1 (FromArgs 15) (two_of_two (Throwing 1))
          = (Throw, st) ∧
        contents st 1 = Some [10; 20] ∧
        constructions (stats st) = constructions (stats (two_of_two (Throwing 1))) + 1 ∧
        n_dtor (stats st) = n_dtor (stats (two_of_two (Throwing 1))).
Proof. eexists. split_and!; by vm_compute. Qed.

(** [Emplace] before index 1 of the full vector [10; 20], where the copy
    of the suffix throws: neither the new element nor the copy of the
    prefix is destroyed. *)
Example Emplace_throw_leaks :
  ∃ st, Emplace (ET := Throwing 2) 1 (mkPtr 2 1) (MoveOf 15) (two_of_two (Throwing 2))
          = (Throw, st) ∧
        contents st 1 = Some [10; 20] ∧
        constructions (stats st) = constructions (stats (two_of_two (Throwing 2))) + 2 ∧
        n_dtor (stats st) = n_dtor (stats (two_of_two (Throwing 2))).
Proof. eexists. split_and!; by vm_compute. Qed.

(** ** Whole programs *)

(** The end-to-end scenario on a type that is moved: the contents are
    [1; 3], then [1; 9; 3], then [1]; at the end every block is released
    and every construction is matched by a destruction. *)
Example end_to_end_moving :
  ∃ st, end_to_end Movable initial_state
          = (Ok [Some [1; 3]; Some [1; 9; 3]; Some [1]], st) ∧
        blocks st = ∅ ∧ objs st = ∅ ∧
        n_alloc (stats st) = n_dealloc (stats st) ∧
        constructions (stats st) = n_dtor (stats st).
Proof. eexists. split_and!; by vm_compute. Qed.

(** The same scenario on a type that is copied: the contents are the same,
    but the insert before index 1 constructs the slot at [end()] twice, so
    one construction is not matched by a destruction. *)
Example end_to_end_copying :
  ∃ st, end_to_end Copying initial_state
          = (Ok [Some [1; 3]; Some [1; 9; 3]; Some [1]], st) ∧
        blocks st = ∅ ∧ objs st = ∅ ∧
        n_alloc (stats st) = n_dealloc (stats st) ∧
        constructions (stats st) = n_dtor (stats st) + 1.
Proof. eexists. split_and!; by vm_compute. Qed.

(** Constructors, assignments and destructors. *)
Example lifecycle_copying :
  ∃ st, lifecycle Copying initial_state
          = (Ok [Some [0; 0; 0]; Some [0; 0; 0; 7]; Some [0; 0; 0; 7];
                 Some []; Some [0; 0; 0; 7]; Some [0; 0];
                 Some [0; 0]; Some [0; 0]], st) ∧
        blocks st = ∅ ∧ objs st = ∅ ∧
        n_alloc (stats st) = n_dealloc (stats st) ∧
        constructions (stats st) = n_dtor (stats st).
Proof. eexists. split_and!; by vm_compute. Qed.
(** * Construction, destruction, assignment and sequences of operations *)

(** ** Constructors and the destructor *)

Section Construction.
Context {T : Type} {ET : ElementType T}.
Implicit Types (st : @State T) (p q : Ptr) (xs ys : list T).

(** What the counters and the slots of a vector say survives any change
    that leaves its object and its block alone. *)
Lemma owns_frame st st' this b xs cap :
  owns st this b xs cap →
  objs st' !! this = objs st !! this →
  (∀ i, i < cap → cell st' (mkPtr b i) = cell st (mkPtr b i)) →
  owns st' this b xs cap.
Proof.
  intros (Hv & Hle & Hz & Hc) Ho Hcell. split_and!; [congruence|done..|].
  intros i Hi. rewrite Hcell by done. by apply Hc.
Qed.

(** [RawMemory(n)] for any [n]: no block for [n = 0]. *)
Lemma wp_RawMemory_new_any n st (Q : RawMemory → State → Prop) E :
  (∀ b st', (n = 0 ↔ b = 0) → (b ≠ 0 → ∀ i, cell st (mkPtr b i) = None) →
     mem_post st st' (if decide (n = 0) then stats_zero else d_alloc) (λ p,
       if decide (blk p = b ∧ off p < n) then Some None else cell st p) →
     Q (mkRaw (mkPtr b 0) n) st') →
  wp (RawMemory_new n) st Q E.
Proof.
  intros HQ. destruct (decide (n = 0)) as [->|Hn].
  - unfold wp, RawMemory_new, mbind, M_bind, Allocate. simpl.
    apply (HQ 0); [done|done|].
    split_and!; [done|stats_solve|]. intros p. case_decide; [lia|done].
  - apply wp_RawMemory_new; [done|]. intros b st' Hb Hfresh (Ho & Hs & Hc).
    apply HQ; [split; intros; done|done|].
    split_and!; [done..|]. intros p. rewrite Hc.
    destruct p as [pb po]; simpl. repeat case_decide; destruct_and?; simplify_eq;
      try done; try tauto.
Qed.

(** [Vector(size_t size)] *)
Lemma wp_Vector_sized this n st (Q : unit → State → Prop) E :
  (∀ b st', (n = 0 ↔ b = 0) → (b ≠ 0 → ∀ i, cell st (mkPtr b i) = None) →
     objs st' = <[this := mkVec (mkRaw (mkPtr b 0) n) n]> (objs st) →
     stats st' = stats st ⊕ (if decide (n = 0) then stats_zero else d_alloc)
                   ⊕ stats_scale n d_ctor_value →
     (∀ p, cell st' p =
        if decide (blk p = b ∧ off p < n) then Some (Some value_init) else cell st p) →
     Q tt st') →
  wp (Vector_sized this n) st Q E.
Proof.
  intros HQ. unfold Vector_sized.
  apply wp_bind, wp_RawMemory_new_any. intros b st1 Hb Hfresh (Ho1 & Hs1 & Hc1). simpl.
  apply wp_bind, wp_on_throw.
  apply (wp_uninitialized_value_construct_n b 0 n).
  { intros j Hj. rewrite Hc1. simpl. rewrite decide_True by lia. by eexists. }
  intros st2 (Ho2 & Hs2 & Hc2).
  apply wp_set_vec. intros st3 Ho3 Hs3 Hc3.
  apply (HQ b); [done|done|congruence|congruence|].
  intros p. rewrite Hc3, Hc2, Hc1. destruct p as [pb po]; simpl.
  repeat case_decide; destruct_and?; simplify_eq; try done; try lia.
Qed.

(** [Vector(const Vector& other)] *)
Lemma wp_Vector_copy this other b xs cap st (Q : unit → State → Prop) E :
  owns st other b xs cap →
  (∀ b1 st', (length xs = 0 ↔ b1 = 0) →
     (b1 ≠ 0 → b1 ≠ b ∧ ∀ i, cell st (mkPtr b1 i) = None) →
     objs st' = <[this := mkVec (mkRaw (mkPtr b1 0) (length xs)) (length xs)]> (objs st) →
     stats st' = stats st ⊕ (if decide (length xs = 0) then stats_zero else d_alloc)
                   ⊕ stats_scale (length xs) (d_copy_call ⊕ d_ctor_copy) →
     (∀ p, cell st' p =
        if decide (blk p = b1 ∧ off p < length xs) then cell st (mkPtr b (off p))
        else cell st p) →
     Q tt st') →
  (∀ st' k, fired → k < length xs → objs st' = objs st →
     stats st' = stats st ⊕ d_alloc ⊕ stats_scale k (d_copy_call ⊕ d_ctor_copy)
                   ⊕ d_copy_call ⊕ stats_scale k d_dtor ⊕ d_dealloc →
     (∀ p, cell st' p = cell st p) →
     E st') →
  wp (Vector_copy this other) st Q E.
Proof.
  intros Hown HQ HE. pose proof Hown as (Hv & Hle & Hz & Hc).
  unfold Vector_copy. apply wp_bind, (wp_vec _ _ _ _ _ Hv). simpl.
  apply wp_bind, wp_RawMemory_new_any. intros b1 st1 Hb1 Hfresh (Ho1 & Hs1 & Hc1). simpl.
  assert (Hne : b1 ≠ 0 → b1 ≠ b).
  { intros Hnz. apply (fresh_block_ne _ _ _ _ _ _ Hown Hnz). by apply Hfresh. }
  assert (Hdisj : length xs ≠ 0 → b ≠ b1).
  { intros Hlen Heq. apply Hne; [tauto|done]. }
  apply wp_bind, wp_on_throw.
  apply (wp_uninitialized_copy_n b 0 b1 0).
  - intros j Hj. destruct (owns_live _ _ _ _ _ j Hown Hj) as (x & _ & Hx).
    exists x. rewrite Hc1. simpl. rewrite decide_False; [done|].
    intros [Heq _]. apply Hdisj; [lia|done].
  - intros j Hj. rewrite Hc1. simpl. rewrite decide_True by lia. by eexists.
  - destruct (decide (length xs = 0)); [lia|]. left. by apply Hdisj.
  - intros st2 (Ho2 & Hs2 & Hc2).
    apply wp_set_vec. intros st3 Ho3 Hs3 Hc3.
    apply (HQ b1); [done|by auto|congruence|congruence|].
    intros p. rewrite Hc3, Hc2. destruct p as [pb po]; simpl.
    rewrite !Hc1. simpl.
    repeat case_decide; destruct_and?; simplify_eq; try done; try lia.
    all: try (exfalso; apply Hdisj; [lia|done]).
    all: cell_index.
  - intros st2 k Hk (Ho2 & Hs2 & Hc2) Hf.
    assert (Hlen : length xs ≠ 0) by lia.
    assert (Hnz : b1 ≠ 0) by tauto.
    apply wp_RawMemory_delete.
    + tauto.
    + intros _. rewrite Hc2, Hc1. simpl.
      goal_decide; [by eexists|].
      rewrite decide_True by (split; [done|lia]). by eexists.
    + intros st3 (Ho3 & Hs3 & Hc3). apply (HE st3 k); [done|done|congruence| |].
      * rewrite Hs3, Hs2, Hs1. unfold release_stats.
        rewrite !decide_False by done. apply stats_eq; stats_fields; lia.
      * clear HQ HE. intros [pb po]. rewrite Hc3, Hc2, Hc1. simpl.
        repeat goal_decide; destruct_and?; simplify_eq; try done; try tauto; try lia.
        all: symmetry; by apply Hfresh.
Qed.

(** [~Vector()] and the destructor of [data_] *)
Lemma wp_Vector_dtor this b xs cap st (Q : unit → State → Prop) E :
  owns st this b xs cap →
  (∀ st', objs st' = delete this (objs st) →
     stats st' = stats st ⊕ stats_scale (length xs) d_dtor ⊕ release_stats cap →
     (∀ p, cell st' p = if decide (blk p = b ∧ b ≠ 0) then None else cell st p) →
     Q tt st') →
  wp (Vector_dtor this) st Q E.
Proof.
  intros Hown HQ. pose proof Hown as (Hv & Hle & Hz & Hc).
  unfold Vector_dtor. apply wp_bind, (wp_vec _ _ _ _ _ Hv). simpl.
  apply wp_bind, (wp_destroy_n b (length xs) 0).
  { intros j Hj. destruct (owns_live _ _ _ _ _ j Hown Hj) as (x & _ & Hx). by exists x. }
  intros st1 (Ho1 & Hs1 & Hc1).
  apply wp_bind, wp_RawMemory_delete; [done| |].
  { intros Hcap. rewrite Hc1. simpl. goal_decide; [by eexists|].
    apply (owns_valid _ _ _ _ _ _ Hown). lia. }
  intros st2 (Ho2 & Hs2 & Hc2).
  unfold wp, drop_vec. apply HQ; simpl; [congruence|congruence|].
  clear HQ. intros [pb po].
  change (cell st2 (mkPtr pb po) =
          if decide (pb = b ∧ b ≠ 0) then None else cell st (mkPtr pb po)).
  rewrite Hc2, Hc1. simpl.
  repeat goal_decide; destruct_and?; simplify_eq; try done; try tauto.
  assert (b = 0) by (destruct (decide (b = 0)); [done|exfalso; auto]).
  assert (cap = 0) by tauto. lia.
Qed.

(** A block that is not in use is not the block of a vector with
    capacity. *)
Lemma owns_apart st this b xs cap b1 i :
  owns st this b xs cap → i < cap → cell st (mkPtr b1 i) = None → b1 ≠ b.
Proof.
  intros (Hv & Hle & Hz & Hc) Hi Hfresh ->. rewrite Hc in Hfresh by done. done.
Qed.

(** X2.  [Vector(const Vector& other)] either returns a vector with the
    elements of [other] in a block of its own whose capacity is the length
    of [other], not its capacity, after one allocation (none for an empty
    [other]) and one copy construction per element, [other] being as it
    was; or a copy constructor throws, and then no object was created,
    every element built so far was destroyed, the block was released and
    the memory is as before. *)
Theorem Vector_copy_spec this other b xs cap st r st' :
  owns st other b xs cap → this ≠ other →
  Vector_copy this other st = (r, st') →
  (r = Ok tt ∧
   ∃ b1, owns st' this b1 xs (length xs) ∧ owns st' other b xs cap ∧
         (xs ≠ [] → b1 ≠ b) ∧
         stats st' = stats st ⊕ (if decide (length xs = 0) then stats_zero else d_alloc)
                       ⊕ stats_scale (length xs) (d_copy_call ⊕ d_ctor_copy))
  ∨ (r = Throw ∧ fired ∧ objs st' = objs st ∧ (∀ p, cell st' p = cell st p) ∧
     live_elements (stats st) (stats st') = 0%Z ∧
     live_blocks (stats st) (stats st') = 0%Z).
Proof.
  intros Hown Hne Hrun.
  assert (Hwp : wp (Vector_copy this other) st
    (λ _ st1, ∃ b1, owns st1 this b1 xs (length xs) ∧ owns st1 other b xs cap ∧
         (xs ≠ [] → b1 ≠ b) ∧
         stats st1 = stats st ⊕ (if decide (length xs = 0) then stats_zero else d_alloc)
                       ⊕ stats_scale (length xs) (d_copy_call ⊕ d_ctor_copy))
    (λ st1, fired ∧ objs st1 = objs st ∧ (∀ p, cell st1 p = cell st p) ∧
       live_elements (stats st) (stats st1) = 0%Z ∧
       live_blocks (stats st) (stats st1) = 0%Z)).
  { apply (wp_Vector_copy _ _ _ _ _ _ _ _ Hown).
    - intros b1 st1 Hb1 Hfresh Ho Hs Hc. exists b1.
      assert (Hapart : length xs ≠ 0 → b1 ≠ b).
      { intros Hlen. apply Hfresh. tauto. }
      split_and!; [| | |done].
      + split_and!; [by rewrite Ho, lookup_insert_eq|done|done|].
        intros i Hi. rewrite Hc. simpl. rewrite decide_True by done.
        destruct Hown as (_ & Hle & _ & Hcell). apply Hcell. lia.
      + apply (owns_frame _ _ _ _ _ _ Hown).
        * by rewrite Ho, lookup_insert_ne.
        * intros i Hi. rewrite Hc. simpl. goal_decide; [|done].
          destruct_and?. exfalso. apply Hapart; [lia|done].
      + intros Hxs. apply Hapart. by destruct xs.
    - intros st1 k Hf Hk Ho Hs Hc. split_and!; [done..| |].
      + unfold live_elements, constructions. rewrite Hs. stats_fields. lia.
      + unfold live_blocks. rewrite Hs. stats_fields. lia. }
  destruct (wp_run _ _ _ _ _ _ Hwp Hrun) as [([] & -> & H)|[-> H]]; [by left|by right].
Qed.

(** X3.  [Vector(Vector&& other)] takes over the block, the capacity and
    the elements of [other] and leaves [other] empty with capacity 0; no
    element is constructed, assigned or destroyed and no memory is
    allocated or released. *)
Theorem Vector_move_spec this other b xs cap st :
  owns st other b xs cap → this ≠ other →
  ∃ st', Vector_move this other st = (Ok tt, st') ∧
    owns st' this b xs cap ∧ owns st' other 0 [] 0 ∧
    stats st' = stats st ∧ blocks st' = blocks st.
Proof.
  intros (Hv & Hle & Hz & Hc) Hne. eexists. split.
  { unfold Vector_move, Swap, mbind, M_bind, set_vec, vec. simpl.
    rewrite lookup_insert_eq. simpl. rewrite lookup_insert_ne by done.
    rewrite Hv. reflexivity. }
  split_and!; [| |done|done].
  - split_and!; [by simpl; rewrite lookup_insert_eq|done..].
  - split_and!; simpl.
    + rewrite lookup_insert_ne by done. by rewrite lookup_insert_eq.
    + done.
    + done.
    + intros i Hi. lia.
Qed.

(** X4.  The destructor of a vector destroys each of its elements once,
    releases its block, if it has one, and ends the lifetime of the
    object; it always returns. *)
Theorem Vector_dtor_spec this b xs cap st :
  owns st this b xs cap →
  ∃ st', Vector_dtor this st = (Ok tt, st') ∧
    objs st' !! this = None ∧
    (b ≠ 0 → ∀ i, cell st' (mkPtr b i) = None) ∧
    stats st' = stats st ⊕ stats_scale (length xs) d_dtor ⊕ release_stats cap.
Proof.
  intros Hown. destruct (Vector_dtor this st) as [r st'] eqn:Hrun.
  assert (Hwp : wp (Vector_dtor this) st
    (λ _ st1, objs st1 !! this = None ∧
       (b ≠ 0 → ∀ i, cell st1 (mkPtr b i) = None) ∧
       stats st1 = stats st ⊕ stats_scale (length xs) d_dtor ⊕ release_stats cap)
    (λ _, False)).
  { apply (wp_Vector_dtor _ _ _ _ _ _ _ Hown). intros st1 Ho Hs Hc.
    split_and!; [by rewrite Ho, lookup_delete_eq| |done].
    intros Hb i. rewrite Hc. simpl. by rewrite decide_True. }
  destruct (wp_run _ _ _ _ _ _ Hwp Hrun) as [([] & -> & H)|[_ []]].
  by exists st'.
Qed.

End Construction.

(** ** [Swap] and the assignments *)

Section Assignment.
Context {T : Type} {ET : ElementType T}.
Implicit Types (st : @State T) (p q : Ptr) (xs ys : list T).

Lemma wp_Swap this other v o st (Q : unit → State → Prop) E :
  objs st !! this = Some v → objs st !! other = Some o →
  (∀ st', objs st' = <[this := o]> (<[other := v]> (objs st)) →
     stats st' = stats st → (∀ p, cell st' p = cell st p) → Q tt st') →
  wp (Swap this other) st Q E.
Proof.
  intros Hv Ho HQ. unfold Swap.
  apply wp_bind, (wp_vec _ _ _ _ _ Hv). apply wp_bind, (wp_vec _ _ _ _ _ Ho).
  apply wp_bind, wp_set_vec. intros st1 Ho1 Hs1 Hc1.
  apply wp_set_vec. intros st2 Ho2 Hs2 Hc2.
  apply HQ; [congruence|congruence|]. intros p. by rewrite Hc2, Hc1.
Qed.

Lemma wp_local_vec st (Q : nat → State → Prop) E :
  (∀ tmp, objs st !! tmp = None → Q tmp st) → wp local_vec st Q E.
Proof.
  intros HQ. unfold wp, local_vec. apply HQ.
  apply not_elem_of_dom, is_fresh.
Qed.

(** X5.  [Swap] exchanges the blocks, the capacities and the lengths of two
    distinct vectors.  It touches no element and no memory, and a second
    [Swap] restores the state exactly. *)
Theorem Swap_exchanges this other b xs cap b' ys cap' st :
  this ≠ other →
  owns st this b xs cap → owns st other b' ys cap' →
  ∃ st', Swap this other st = (Ok tt, st') ∧
    owns st' this b' ys cap' ∧ owns st' other b xs cap ∧
    stats st' = stats st ∧ blocks st' = blocks st ∧
    Swap this other st' = (Ok tt, st).
Proof.
  intros Hne (Hv & Hle & Hz & Hc) (Hv' & Hle' & Hz' & Hc').
  eexists. split.
  { unfold Swap, mbind, M_bind, vec. rewrite Hv, Hv'. reflexivity. }
  split_and!; [| |done|done|].
  - split_and!; [|done..]. simpl. by rewrite lookup_insert_eq.
  - split_and!; [|done..]. simpl.
    rewrite lookup_insert_ne by done. by rewrite lookup_insert_eq.
  - unfold Swap, mbind, M_bind, vec, set_vec. simpl.
    rewrite lookup_insert_eq. simpl.
    rewrite lookup_insert_ne by done. rewrite lookup_insert_eq. simpl.
    destruct st as [bl ob s]. simpl in *. do 2 f_equal.
    apply map_eq. intros k.
    destruct (decide (k = this)) as [->|Hk]; [by rewrite lookup_insert_eq|].
    rewrite lookup_insert_ne by done.
    destruct (decide (k = other)) as [->|Hk']; [by rewrite lookup_insert_eq|].
    by rewrite !lookup_insert_ne by done.
Qed.

(** X6.  Move assignment from a distinct vector is a [Swap]: the target
    takes over the block and the elements of the source, and the source is
    left holding the former block and elements of the target, which are
    not destroyed by the assignment.  Nothing is constructed, assigned,
    destroyed, allocated or released. *)
Theorem assign_move_swaps this rhs b xs cap b' ys cap' st :
  this ≠ rhs →
  owns st this b xs cap → owns st rhs b' ys cap' →
  ∃ st', assign_move this rhs st = (Ok this, st') ∧
    owns st' this b' ys cap' ∧ owns st' rhs b xs cap ∧
    stats st' = stats st ∧ blocks st' = blocks st.
Proof.
  intros Hne Hown Hown'.
  destruct (Swap_owns _ _ _ _ _ _ _ _ _ Hne Hown Hown')
    as (st' & Hrun & Hs & Ho1 & Ho2).
  exists st'. split_and!; [|done..|].
  - unfold assign_move. rewrite decide_True by done.
    unfold mbind, M_bind. by rewrite Hrun.
  - destruct Hown as (Hv & _), Hown' as (Hv' & _).
    unfold Swap, mbind, M_bind, vec, set_vec in Hrun. rewrite Hv, Hv' in Hrun.
    by simplify_eq.
Qed.

(** [std::copy] from one block into another *)
Lemma wp_copy_across a b n : ∀ s d st (Q : unit → State → Prop) E,
  (n ≠ 0 → a ≠ b) →
  (∀ j, j < n → ∃ x, cell st (mkPtr a (s + j)) = Some (Some x)) →
  (∀ j, j < n → ∃ y, cell st (mkPtr b (d + j)) = Some (Some y)) →
  (∀ st', mem_post st st' (stats_scale n d_assign_copy) (λ p,
      if decide (blk p = b ∧ d ≤ off p < d + n)
      then cell st (mkPtr a (s + (off p - d)))
      else cell st p) → Q tt st') →
  wp (assign_forward copy_assign (mkPtr a s) n (mkPtr b d)) st Q E.
Proof.
  induction n as [|n IH]; intros s d st Q E Hab Hsrc Hdst HQ; simpl.
  - apply wp_ret, HQ. split_and!; [done|stats_solve|].
    intros p. goal_decide; [lia|done].
  - assert (Hne : a ≠ b) by (by apply Hab).
    destruct (Hsrc 0) as [x Hx]; [lia|]. rewrite Nat.add_0_r in Hx.
    destruct (Hdst 0) as [y Hy]; [lia|]. rewrite Nat.add_0_r in Hy.
    apply wp_bind.
    apply (copy_assign_transfers _ _ x); [done|by exists y| |intros ?? [=]].
    intros st1 (Ho1 & Hs1 & Hc1). simpl in Hc1. unfold ptr_add; simpl.
    apply IH.
    + done.
    + intros j Hj. destruct (Hsrc (S j)) as [z Hz]; [lia|]. exists z.
      rewrite Hc1. simpl. rewrite decide_False by lia.
      rewrite decide_False by (intros [? _]; done).
      rewrite <- Hz. f_equal; f_equal; lia.
    + intros j Hj. destruct (Hdst (S j)) as [z Hz]; [lia|]. exists z.
      rewrite Hc1. simpl. rewrite decide_False by (intros [? _]; done).
      rewrite decide_False by lia.
      rewrite <- Hz. f_equal; f_equal; lia.
    + intros st2 (Ho2 & Hs2 & Hc2). apply HQ. clear HQ. split_and!.
      * congruence.
      * stats_solve.
      * intros [pb po]. rewrite Hc2. simpl. rewrite !Hc1. simpl.
        repeat goal_decide; simpl in *; destruct_and?; simplify_eq;
          try done; try lia.
        all: try (rewrite <- Hx; f_equal; f_equal; lia).
        all: try (by rewrite Hx).
        all: cell_index.
Qed.

(** [operator=(const Vector& rhs)] from a distinct vector *)
Lemma wp_assign_copy this rhs b xs cap b' ys cap' st (Q : nat → State → Prop) E :
  owns st this b xs cap → owns st rhs b' ys cap' →
  this ≠ rhs → (b ≠ 0 → b' ≠ b) →
  (∀ b1 st',
     owns st' this b1 ys (if decide (cap < length ys) then length ys else cap) →
     owns st' rhs b' ys cap' →
     (length ys ≤ cap →
        b1 = b ∧
        stats st' = stats st
          ⊕ stats_scale (length xs `min` length ys) d_assign_copy
          ⊕ stats_scale (length xs - length ys) d_dtor
          ⊕ stats_scale (length ys - length xs) (d_copy_call ⊕ d_ctor_copy)) →
     (cap < length ys →
        b1 ≠ b ∧
        stats st' = stats st ⊕ d_alloc
          ⊕ stats_scale (length ys) (d_copy_call ⊕ d_ctor_copy)
          ⊕ stats_scale (length xs) d_dtor ⊕ release_stats cap) →
     Q this st') →
  (∀ st', fired → owns st' rhs b' ys cap' →
     (cap < length ys ∧ owns st' this b xs cap ∧
      live_elements (stats st) (stats st') = 0%Z ∧
      live_blocks (stats st) (stats st') = 0%Z)
     ∨ (length xs < length ys ≤ cap ∧
        owns st' this b (take (length xs) ys) cap ∧
        live_elements (stats st) (stats st') = 0%Z ∧
        live_blocks (stats st) (stats st') = 0%Z) →
     E st') →
  wp (assign_copy this rhs) st Q E.
Proof.
  intros Hown Hown' Hne Hsep HQ HE.
  pose proof Hown as (Hv & Hle & Hz & Hc).
  pose proof Hown' as (Hv' & Hle' & Hz' & Hc').
  unfold assign_copy. rewrite decide_True by done.
  apply wp_bind, wp_bind, (wp_vec _ _ _ _ _ Hv').
  apply wp_bind, (wp_vec _ _ _ _ _ Hv). simpl.
  destruct (decide (cap < length ys)) as [Hgrow|Hroom].
  - (* copy and swap *)
    apply wp_bind, wp_local_vec. intros tmp Htmp.
    assert (Htmp1 : tmp ≠ this) by congruence.
    assert (Htmp2 : tmp ≠ rhs) by congruence.
    apply wp_bind, (wp_Vector_copy _ _ _ _ _ _ _ _ Hown').
    + intros b1 st1 Hb1 Hfresh Ho1 Hs1 Hc1.
      assert (Hnz : b1 ≠ 0) by (intros ->; assert (length ys = 0) by tauto; lia).
      destruct (Hfresh Hnz) as [Hne1 Hfr].
      assert (Hne2 : b1 ≠ b).
      { apply (fresh_block_ne _ _ _ _ _ _ Hown Hnz Hfr). }
      apply wp_bind, (wp_Swap _ _ (mkVec (mkRaw (mkPtr b 0) cap) (length xs))
                         (mkVec (mkRaw (mkPtr b1 0) (length ys)) (length ys))).
      { by rewrite Ho1, lookup_insert_ne. }
      { by rewrite Ho1, lookup_insert_eq. }
      intros st2 Ho2 Hs2 Hc2.
      assert (Hown2 : owns st2 tmp b xs cap).
      { split_and!; [|done..|].
        - rewrite Ho2, lookup_insert_ne by done. by rewrite lookup_insert_eq.
        - intros i Hi. rewrite Hc2, Hc1. simpl.
          rewrite decide_False by (intros [? _]; done). by apply Hc. }
      apply (wp_Vector_dtor _ _ _ _ _ _ _ Hown2).
      intros st3 Ho3 Hs3 Hc3. apply wp_ret.
      apply (HQ b1); [| |intros; lia|].
      * split_and!.
        -- rewrite Ho3, lookup_delete_ne by done. by rewrite Ho2, lookup_insert_eq.
        -- done.
        -- split; [lia|done].
        -- intros i Hi. rewrite Hc3. simpl.
           rewrite decide_False by (intros [? _]; done).
           rewrite Hc2, Hc1. simpl. rewrite decide_True by done.
           apply Hc'. clear -Hi Hle'. lia.
      * split_and!; [|done..|].
        -- rewrite Ho3, lookup_delete_ne by done.
           rewrite Ho2, !lookup_insert_ne by done.
           rewrite Ho1, lookup_insert_ne by done. done.
        -- intros i Hi. rewrite Hc3. simpl.
           rewrite decide_False by (intros [-> ?]; by apply Hsep).
           rewrite Hc2, Hc1. simpl.
           rewrite decide_False by (intros [-> _]; done). by apply Hc'.
      * intros _. split; [done|]. rewrite Hs3, Hs2, Hs1.
        rewrite decide_False by lia. done.
    + intros st1 k Hf Hk Ho1 Hs1 Hc1. apply HE; [done| |left].
      * apply (owns_frame _ _ _ _ _ _ Hown'); [by rewrite Ho1|by intros].
      * split_and!; [done| | |].
        -- apply (owns_frame _ _ _ _ _ _ Hown); [by rewrite Ho1|by intros].
        -- unfold live_elements, constructions. rewrite Hs1. stats_fields. lia.
        -- unfold live_blocks. rewrite Hs1. stats_fields. lia.
  - (* in place *)
    assert (Hlen : length ys ≤ cap) by lia.
    unfold std_copy, ptr_add; simpl.
    destruct (decide (length ys ≤ length xs)) as [Hshrink|Hmore].
    + (* [rhs] is not longer: assign, then destroy the tail *)
      apply wp_bind, wp_bind, wp_bind, wp_ptr_diff; simpl; [done|lia|].
      rewrite Nat.sub_0_r.
      apply (wp_copy_across b' b (length ys) 0 0).
      { intros Hn. apply Hsep. intros ->. assert (cap = 0) by tauto. lia. }
      { intros j Hj. destruct (owns_live _ _ _ _ _ j Hown' Hj) as (x & _ & Hx).
        by exists x. }
      { intros j Hj. destruct (owns_live _ _ _ _ _ j Hown) as (x & _ & Hx); [lia|].
        by exists x. }
      intros st1 (Ho1 & Hs1 & Hc1).
      apply (wp_destroy_n b (length xs - length ys) (length ys)).
      { intros j Hj.
        destruct (owns_live _ _ _ _ _ (length ys + j) Hown) as (x & _ & Hx); [lia|].
        exists x. rewrite Hc1. simpl. by rewrite decide_False by lia. }
      intros st2 (Ho2 & Hs2 & Hc2).
      apply (wp_set_size _ (mkVec (mkRaw (mkPtr b 0) cap) (length xs))).
      { congruence. }
      intros st3 Ho3 Hs3 Hc3. apply wp_ret.
      assert (Hsame : length ys ≠ 0 → b' ≠ b).
      { intros Hn. apply Hsep. intros ->. assert (cap = 0) by tauto. lia. }
      apply (HQ b); [| | |intros; lia].
      * split_and!; [|done..|].
        -- rewrite Ho3, lookup_insert_eq. done.
        -- clear HQ HE. intros i Hi. rewrite Hc3, Hc2. simpl. rewrite !Hc1. simpl.
           repeat goal_decide; destruct_and?; simplify_eq; try lia.
           ++ f_equal. symmetry. apply lookup_ge_None. lia.
           ++ rewrite Nat.sub_0_r. apply Hc'. lia.
           ++ rewrite Hc by done. f_equal.
              rewrite (proj2 (lookup_ge_None xs i)) by lia.
              symmetry. apply lookup_ge_None. lia.
      * split_and!; [|done..|].
        -- rewrite Ho3, lookup_insert_ne by done. rewrite Ho2, Ho1. done.
        -- clear HQ HE. intros i Hi. rewrite Hc3, Hc2. simpl. rewrite !Hc1. simpl.
           assert (b' ≠ b ∨ (b' = b ∧ length xs = 0 ∧ length ys = 0)) as [Hd|(-> & Hx0 & Hy0)].
           { destruct (decide (b' = b)) as [->|]; [right|by left].
             split; [done|]. destruct (decide (b = 0)) as [->|Hb].
             - assert (cap = 0) by tauto. lia.
             - exfalso. by apply Hsep. }
           ++ rewrite !decide_False by (intros [? _]; done). by apply Hc'.
           ++ rewrite !decide_False by lia. by apply Hc'.
      * intros _. split; [done|]. rewrite Hs3, Hs2, Hs1.
        replace (length xs `min` length ys) with (length ys) by lia.
        replace (length ys - length xs) with 0 by lia.
        apply stats_eq; stats_fields; lia.
    + (* [rhs] is longer: assign, then construct the tail *)
      assert (Hnb : b ≠ 0) by (intros ->; assert (cap = 0) by tauto; lia).
      assert (Hd : b' ≠ b) by (by apply Hsep).
      apply wp_bind, wp_bind, wp_bind, wp_ptr_diff; simpl; [done|lia|].
      rewrite Nat.sub_0_r.
      apply (wp_copy_across b' b (length xs) 0 0).
      { done. }
      { intros j Hj. destruct (owns_live _ _ _ _ _ j Hown') as (x & _ & Hx); [lia|].
        by exists x. }
      { intros j Hj. destruct (owns_live _ _ _ _ _ j Hown Hj) as (x & _ & Hx).
        by exists x. }
      intros st1 (Ho1 & Hs1 & Hc1).
      apply (wp_uninitialized_copy_n b' (length xs) b (length xs)).
      { intros j Hj.
        destruct (owns_live _ _ _ _ _ (length xs + j) Hown') as (x & _ & Hx); [lia|].
        exists x. rewrite Hc1. simpl. by rewrite decide_False by (intros [? _]; done). }
      { intros j Hj. rewrite Hc1. simpl. rewrite decide_False by lia.
        apply (owns_valid _ _ _ _ _ _ Hown). lia. }
      { by left. }
      * intros st2 (Ho2 & Hs2 & Hc2).
        apply (wp_set_size _ (mkVec (mkRaw (mkPtr b 0) cap) (length xs))).
        { congruence. }
        intros st3 Ho3 Hs3 Hc3. apply wp_ret.
        apply (HQ b); [| | |intros; lia].
        -- split_and!; [|done..|].
           ++ rewrite Ho3, lookup_insert_eq. done.
           ++ clear HQ HE. intros i Hi. rewrite Hc3, Hc2. simpl. rewrite !Hc1. simpl.
              repeat goal_decide; destruct_and?; simplify_eq; try lia.
              ** rewrite <- Hc' by lia. f_equal; f_equal; lia.
              ** rewrite Nat.sub_0_r. apply Hc'. lia.
              ** rewrite Hc by done. f_equal.
                 rewrite (proj2 (lookup_ge_None xs i)) by lia.
                 symmetry. apply lookup_ge_None. lia.
        -- split_and!; [|done..|].
           ++ rewrite Ho3, lookup_insert_ne by done. rewrite Ho2, Ho1. done.
           ++ clear HQ HE. intros i Hi. rewrite Hc3, Hc2. simpl. rewrite !Hc1. simpl.
              rewrite !decide_False by (intros [? _]; done). by apply Hc'.
        -- intros _. split; [done|]. rewrite Hs3, Hs2, Hs1.
           replace (length xs `min` length ys) with (length xs) by lia.
           replace (length xs - length ys) with 0 by lia.
           apply stats_eq; stats_fields; lia.
      * intros st2 k Hk (Ho2 & Hs2 & Hc2) Hf. apply HE; [done| |right].
        -- apply (owns_frame _ _ _ _ _ _ Hown'); [by rewrite Ho2, Ho1|].
           clear HQ HE. intros i Hi. rewrite Hc2. simpl. rewrite !Hc1. simpl.
           by rewrite !decide_False by (intros [? _]; done).
        -- split_and!; [lia|lia| | |].
           ++ split_and!; [| |done|].
              ** rewrite Ho2, Ho1, Hv. do 2 f_equal. rewrite length_take. lia.
              ** rewrite length_take. lia.
              ** clear HQ HE. intros i Hi. rewrite Hc2. simpl. rewrite !Hc1. simpl.
                 repeat goal_decide; destruct_and?; simplify_eq; try lia.
                 --- f_equal. symmetry. apply lookup_ge_None. rewrite length_take. lia.
                 --- rewrite Nat.sub_0_r, Hc' by lia. f_equal.
                     symmetry. by apply lookup_take_lt.
                 --- rewrite Hc by done. f_equal.
                     rewrite (proj2 (lookup_ge_None xs i)) by lia.
                     symmetry. apply lookup_ge_None. rewrite length_take. lia.
           ++ unfold live_elements, constructions. rewrite Hs2, Hs1. stats_fields. lia.
           ++ unfold live_blocks. rewrite Hs2, Hs1. stats_fields. lia.
Qed.

(** X7.  Copy assignment from a distinct vector that returns leaves the
    target with the elements of [rhs], and [rhs] as it was.  When the
    length of [rhs] exceeds the capacity of the target, the target gets a
    new block whose capacity is that length, filled by copy construction,
    and the old elements are destroyed and the old block released.
    Otherwise block and capacity are kept and nothing is allocated: the
    common prefix is copy-assigned and the rest is destroyed or
    copy-constructed. *)
Theorem assign_copy_copies this rhs b xs cap b' ys cap' st r st' :
  owns st this b xs cap → owns st rhs b' ys cap' →
  this ≠ rhs → (b ≠ 0 → b' ≠ b) →
  assign_copy this rhs st = (r, st') →
  (r = Ok this ∧ owns st' rhs b' ys cap' ∧
   ∃ b1, owns st' this b1 ys (if decide (cap < length ys) then length ys else cap) ∧
     (length ys ≤ cap →
        b1 = b ∧
        stats st' = stats st
          ⊕ stats_scale (length xs `min` length ys) d_assign_copy
          ⊕ stats_scale (length xs - length ys) d_dtor
          ⊕ stats_scale (length ys - length xs) (d_copy_call ⊕ d_ctor_copy)) ∧
     (cap < length ys →
        b1 ≠ b ∧
        stats st' = stats st ⊕ d_alloc
          ⊕ stats_scale (length ys) (d_copy_call ⊕ d_ctor_copy)
          ⊕ stats_scale (length xs) d_dtor ⊕ release_stats cap))
  ∨ (r = Throw ∧ fired).
Proof.
  intros Hown Hown' Hne Hsep Hrun.
  assert (Hwp : wp (assign_copy this rhs) st
    (λ a st1, a = this ∧ owns st1 rhs b' ys cap' ∧
       ∃ b1, owns st1 this b1 ys (if decide (cap < length ys) then length ys else cap) ∧
         (length ys ≤ cap →
            b1 = b ∧
            stats st1 = stats st
              ⊕ stats_scale (length xs `min` length ys) d_assign_copy
              ⊕ stats_scale (length xs - length ys) d_dtor
              ⊕ stats_scale (length ys - length xs) (d_copy_call ⊕ d_ctor_copy)) ∧
         (cap < length ys →
            b1 ≠ b ∧
            stats st1 = stats st ⊕ d_alloc
              ⊕ stats_scale (length ys) (d_copy_call ⊕ d_ctor_copy)
              ⊕ stats_scale (length xs) d_dtor ⊕ release_stats cap))
    (λ _, fired)).
  { apply (wp_assign_copy _ _ _ _ _ _ _ _ _ _ _ Hown Hown' Hne Hsep); [|by intros].
    intros b1 st1 H1 H2 H3 H4. split_and!; [done..|]. by exists b1. }
  destruct (wp_run _ _ _ _ _ _ Hwp Hrun) as [(a & -> & -> & H)|[-> H]];
    [by left|by right].
Qed.

(** X8.  Copy assignment that throws leaves [rhs] as it was and leaks
    nothing: what it constructed it destroyed, what it allocated it
    released.  When it had to reallocate (the length of [rhs] exceeds the
    capacity of the target), the target is as it was.  When it assigned in
    place, the target keeps its block, its capacity and its length, and
    still holds that many live elements, but not necessarily the ones it
    held before. *)
Theorem assign_copy_throw this rhs b xs cap b' ys cap' st st' :
  owns st this b xs cap → owns st rhs b' ys cap' →
  this ≠ rhs → (b ≠ 0 → b' ≠ b) →
  assign_copy this rhs st = (Throw, st') →
  owns st' rhs b' ys cap' ∧
  live_elements (stats st) (stats st') = 0%Z ∧
  live_blocks (stats st) (stats st') = 0%Z ∧
  (cap < length ys → owns st' this b xs cap) ∧
  (length ys ≤ cap → ∃ zs, length zs = length xs ∧ owns st' this b zs cap).
Proof.
  intros Hown Hown' Hne Hsep Hrun.
  assert (Hwp : wp (assign_copy this rhs) st (λ _ _, True)
    (λ st1, owns st1 rhs b' ys cap' ∧
       live_elements (stats st) (stats st1) = 0%Z ∧
       live_blocks (stats st) (stats st1) = 0%Z ∧
       ((cap < length ys ∧ owns st1 this b xs cap)
        ∨ (length xs < length ys ≤ cap ∧
           owns st1 this b (take (length xs) ys) cap)))).
  { apply (wp_assign_copy _ _ _ _ _ _ _ _ _ _ _ Hown Hown' Hne Hsep); [done|].
    intros st1 Hf Hrhs [(H1 & H2 & H3 & H4)|(H1 & H2 & H3 & H4)].
    - split_and!; [done..|]. by left.
    - split_and!; [done..|]. by right. }
  destruct (wp_run _ _ _ _ _ _ Hwp Hrun)
    as [(? & [=] & _)|[_ (Hrhs & Hel & Hbl & Hthis)]].
  split_and!; [done..| |].
  - intros Hlt. destruct Hthis as [[_ H]|[[_ Hle] _]]; [done|lia].
  - intros Hle. destruct Hthis as [[Hlt _]|[[Hlt _] H]]; [lia|].
    exists (take (length xs) ys). split; [|done].
    rewrite length_take. lia.
Qed.

End Assignment.

(** ** Element access, removal and insertion within the capacity *)

Section Access.
Context {T : Type} {ET : ElementType T}.
Implicit Types (st : @State T) (p q : Ptr) (xs ys : list T).

(** X9.  [operator[]] at an index below the length yields the address
    [begin() + index], which holds the element of that index; at an index
    at or above the length its assertion fails, also when the index is
    below the capacity. *)
Theorem subscript_bounds this b xs cap i st :
  owns st this b xs cap →
  (∀ x, xs !! i = Some x →
     subscript this i st = (Ok (mkPtr b i), st) ∧
     load (mkPtr b i) st = (Ok x, st)) ∧
  (length xs ≤ i → subscript this i st = (Undef, st)).
Proof.
  intros (Hv & Hle & Hz & Hc). split.
  - intros x Hx. pose proof (lookup_lt_Some _ _ _ Hx) as Hi. split.
    + unfold subscript, mbind, M_bind, vec. rewrite Hv. simpl.
      rewrite decide_True by done. unfold RawMemory_at. simpl.
      by rewrite decide_True by lia.
    + unfold load. rewrite Hc by lia. by rewrite Hx.
  - intros Hi. unfold subscript, mbind, M_bind, vec. rewrite Hv. simpl.
    by rewrite decide_False by lia.
Qed.

(** X10.  [PopBack] on a non-empty vector destroys the last element and
    nothing else: the other elements, the block and the capacity stay, and
    one destructor call is all that is counted. *)
Theorem PopBack_removes_last this b xs cap st :
  owns st this b xs cap → 0 < length xs →
  ∃ st', PopBack this st = (Ok tt, st') ∧
    owns st' this b (take (length xs - 1) xs) cap ∧
    stats st' = stats st ⊕ d_dtor.
Proof.
  intros Hown Hpos. destruct (PopBack this st) as [r st'] eqn:Hrun.
  assert (Hwp : wp (PopBack this) st
    (λ _ st1, owns st1 this b (take (length xs - 1) xs) cap ∧
       stats st1 = stats st ⊕ d_dtor)
    (λ _, False)).
  { by apply (wp_PopBack _ _ _ _ _ _ _ Hown Hpos). }
  destruct (wp_run _ _ _ _ _ _ Hwp Hrun) as [([] & -> & H)|[_ []]].
  by exists st'.
Qed.

(** X11.  [PopBack] has no guard: on an empty vector, whatever its
    capacity, it steps before the start of the block, which is undefined
    behaviour. *)
Theorem PopBack_empty_undefined this b cap st :
  owns st this b [] cap → PopBack this st = (Undef, st).
Proof.
  intros (Hv & _). unfold PopBack, end_, mbind, M_bind, vec. rewrite Hv. simpl.
  reflexivity.
Qed.

(** X12.  [Erase] at [end()], and so any [Erase] on an empty vector, is
    undefined behaviour: the range [pos + 1 .. end()) it shifts starts
    after its end. *)
Theorem Erase_at_end_undefined this b xs cap st :
  owns st this b xs cap → Erase this (mkPtr b (length xs)) st = (Undef, st).
Proof.
  intros (Hv & _).
  unfold Erase, begin_, end_, std_move, std_copy, mbind, M_bind, vec.
  rewrite Hv. simpl. unfold ptr_diff. simpl.
  rewrite decide_True by (split; [done|lia]). simpl. rewrite Hv. simpl.
  destruct move_if_safe; simpl; by rewrite decide_False by lia.
Qed.

(** X13.  [Erase] at index [i] of a vector of length [L] keeps the block
    and the capacity, allocates nothing and constructs nothing: it assigns
    [L - 1 - i] times, by move when the type is transplanted by move and
    by copy otherwise, and destroys one element, the last. *)
Theorem Erase_cost this b xs cap i st r st' :
  owns st this b xs cap → i < length xs →
  Erase this (mkPtr b i) st = (r, st') →
  begin_ this st' = (Ok (mkPtr b 0), st') ∧
  Capacity this st' = (Ok cap, st') ∧
  stats st' = stats st
    ⊕ stats_scale (length xs - 1 - i)
        (if move_if_safe then d_assign_move else d_assign_copy)
    ⊕ d_dtor.
Proof.
  intros Hown Hi Hrun.
  assert (Hwp : wp (Erase this (mkPtr b i)) st
    (λ _ st1, begin_ this st1 = (Ok (mkPtr b 0), st1) ∧
       Capacity this st1 = (Ok cap, st1) ∧
       stats st1 = stats st
         ⊕ stats_scale (length xs - 1 - i)
             (if move_if_safe then d_assign_move else d_assign_copy)
         ⊕ d_dtor)
    (λ _, False)).
  { apply (wp_Erase _ _ _ _ _ _ _ _ Hown Hi). intros st1 Hown1 Hs1.
    split_and!; [|by apply (owns_Capacity _ _ _ _ _ Hown1)|done].
    by apply (owns_begin _ _ _ _ _ Hown1). }
  destruct (wp_run _ _ _ _ _ _ Hwp Hrun) as [(it & -> & H)|[_ []]]. done.
Qed.

(** X14.  [Emplace] on a vector with spare capacity never reallocates: if
    it returns, block and capacity are the ones before, so iterators
    before the insert position stay valid, and no allocation is counted. *)
Theorem Emplace_in_place this b xs cap i (a : Arg) st r st' :
  owns st this b xs cap → i ≤ length xs → length xs < cap →
  Emplace this (mkPtr b i) a st = (r, st') →
  (r = Ok (mkPtr b i) ∧
   owns st' this b (take i xs ++ arg_value a :: drop i xs) cap ∧
   n_alloc (stats st') = n_alloc (stats st) ∧
   n_dealloc (stats st') = n_dealloc (stats st))
  ∨ (r = Throw ∧ fired).
Proof.
  intros Hown Hi Hroom Hrun.
  assert (Hwp : wp (Emplace this (mkPtr b i) a) st
    (λ it st1, it = mkPtr b i ∧
       owns st1 this b (take i xs ++ arg_value a :: drop i xs) cap ∧
       n_alloc (stats st1) = n_alloc (stats st) ∧
       n_dealloc (stats st1) = n_dealloc (stats st))
    (λ _, fired)).
  { apply (wp_Emplace _ _ _ _ _ _ _ _ _ Hown Hi); [intros; lia| |by intros].
    intros b1 cap1 st1 Hown1 Hin _. destruct (Hin Hroom) as (-> & -> & Hs).
    split_and!; [done..| |].
    - rewrite Hs. unfold emplace_in_place_stats.
      destruct a, move_if_safe; case_decide; stats_fields; lia.
    - rewrite Hs. unfold emplace_in_place_stats.
      destruct a, move_if_safe; case_decide; stats_fields; lia. }
  destruct (wp_run _ _ _ _ _ _ Hwp Hrun) as [(it & -> & -> & H)|[-> H]];
    [by left|by right].
Qed.

(** X15.  [Emplace] strictly before the end of a vector with spare
    capacity, for a type that is shifted by copy, constructs exactly three
    elements (the temporary and two copies of the last element at
    [end()]) and destroys exactly one (the temporary), while the vector
    grows by one element: one construction at [end()] is overwritten
    without a destructor call. *)
Theorem in_place_copy_insert_leaks this b xs cap i (a : Arg) st p st' :
  owns st this b xs cap → i < length xs → length xs < cap →
  move_if_safe = false →
  Emplace this (mkPtr b i) a st = (Ok p, st') →
  Size this st' = (Ok (S (length xs)), st') ∧
  constructions (stats st') = constructions (stats st) + 3 ∧
  n_dtor (stats st') = n_dtor (stats st) + 1 ∧
  n_ctor_copy (stats st') =
    n_ctor_copy (stats st) + n_ctor_copy (arg_stats a) + 2 ∧
  live_elements (stats st) (stats st') = 2%Z.
Proof.
  intros Hown Hi Hroom Hm Hrun.
  assert (Hwp : wp (Emplace this (mkPtr b i) a) st
    (λ _ st1, Size this st1 = (Ok (S (length xs)), st1) ∧
       constructions (stats st1) = constructions (stats st) + 3 ∧
       n_dtor (stats st1) = n_dtor (stats st) + 1 ∧
       n_ctor_copy (stats st1) =
         n_ctor_copy (stats st) + n_ctor_copy (arg_stats a) + 2 ∧
       live_elements (stats st) (stats st1) = 2%Z)
    (λ _, True)).
  { apply (wp_Emplace _ _ _ _ _ _ _ _ _ Hown); [lia|intros; lia| |done].
    intros b1 cap1 st1 Hown1 Hin _. destruct (Hin Hroom) as (-> & -> & Hs).
    split_and!.
    - rewrite (owns_Size _ _ _ _ _ Hown1). do 2 f_equal.
      rewrite length_app, length_take. simpl. rewrite length_drop. lia.
    - unfold constructions. rewrite Hs.
      unfold emplace_in_place_stats. rewrite Hm, decide_False by lia.
      destruct a; stats_fields; lia.
    - rewrite Hs. unfold emplace_in_place_stats. rewrite Hm, decide_False by lia.
      destruct a; stats_fields; lia.
    - rewrite Hs. unfold emplace_in_place_stats. rewrite Hm, decide_False by lia.
      destruct a; stats_fields; lia.
    - unfold live_elements, constructions. rewrite Hs.
      unfold emplace_in_place_stats. rewrite Hm, decide_False by lia.
      destruct a; stats_fields; lia. }
  destruct (wp_run _ _ _ _ _ _ Hwp Hrun) as [(? & _ & H)|[[=] _]]. done.
Qed.

(** X16.  [EmplaceBack] that returns yields the address of the last
    element of the resulting vector: the slot before [end()], which holds
    the new element behind the old ones.  [EmplaceBack] that throws leaves
    the vector as it was, for an element type that is copy-constructible
    or whose move constructor does not throw. *)
Theorem EmplaceBack_returns_last this b xs cap (a : Arg) st r st' :
  owns st this b xs cap → fits (2 * length xs) →
  EmplaceBack this a st = (r, st') →
  (∃ p, r = Ok p ∧
     end_ this st' = (Ok (p +ₚ 1), st') ∧
     load p st' = (Ok (arg_value a), st') ∧
     contents st' this = Some (xs ++ [arg_value a]))
  ∨ (r = Throw ∧
     (is_copy_constructible = true ∨ is_nothrow_move_constructible = true →
      owns st' this b xs cap)).
Proof.
  intros Hown Hfit Hrun.
  assert (Hwp : wp (EmplaceBack this a) st
    (λ p st1, end_ this st1 = (Ok (p +ₚ 1), st1) ∧
       load p st1 = (Ok (arg_value a), st1) ∧
       contents st1 this = Some (xs ++ [arg_value a]))
    (λ st1, owns st1 this b xs cap)).
  { apply (wp_EmplaceBack _ _ _ _ _ _ _ _ Hown); [by intros <-| |by intros].
    intros b1 cap1 st1 Hown1 _ _. split_and!.
    - rewrite (owns_end _ _ _ _ _ Hown1). unfold ptr_add. simpl.
      do 3 f_equal. rewrite length_app. simpl. lia.
    - destruct Hown1 as (_ & Hle1 & _ & Hc1). unfold load.
      rewrite length_app in Hle1. simpl in Hle1. rewrite Hc1 by lia.
      rewrite lookup_snoc, decide_False, decide_True by lia. done.
    - by apply (owns_contents _ _ _ _ _ Hown1). }
  destruct (wp_run _ _ _ _ _ _ Hwp Hrun) as [(p & -> & H)|[-> H]];
    [left; by exists p|right; by split].
Qed.

End Access.

(** ** Sequences of operations *)

Section Sequences.
Context {T : Type} {ET : ElementType T}.
Implicit Types (st : @State T) (p q : Ptr) (xs ys : list T).

(** One mutator: the vector it leaves and what it adds to the counters *)
Lemma wp_run_op this b xs cap (op : Op) st :
  owns st this b xs cap → op_defined op (length xs) → fits (2 * length xs) →
  wp (run_op this op) st
    (λ _ st', ∃ b' xs',
       owns st' this b' xs' (op_capacity op (length xs) cap) ∧
       length xs' = op_length op (length xs) ∧
       (op_capacity op (length xs) cap = cap → b' = b) ∧
       live_elements (stats st) (stats st') =
         (Z.of_nat (length xs') - Z.of_nat (length xs)
          + Z.of_nat (op_leak op (length xs) cap))%Z ∧
       live_blocks (stats st) (stats st') =
         (blocks_held (op_capacity op (length xs) cap) - blocks_held cap)%Z)
    (λ _, fired).
Proof.
  intros Hown Hdef Hfit.
  assert (Hfit' : length xs = cap → fits (2 * cap)) by (by intros <-).
  pose proof Hown as (Hv & Hle & Hz & Hc).
  destruct op as [a|a|i a|i| |n|n]; simpl in *.
  - apply (wp_PushBackImpl _ _ _ _ _ _ _ _ Hown Hfit'); [|by intros].
    intros b1 cap1 st1 Hown1 Hroom Hfull.
    exists b1, (xs ++ [arg_value a]). rewrite length_app. simpl.
    destruct (decide (length xs = cap)) as [He|He].
    + destruct (Hfull He) as (Hb & -> & Hs).
      split_and!; [done|lia|clear Hs; case_decide; lia| |]; ledger.
    + destruct Hroom as (-> & -> & Hs); [lia|].
      split_and!; [done|lia|done| |]; ledger.
  - apply wp_bind, (wp_EmplaceBack _ _ _ _ _ _ _ _ Hown Hfit'); [|by intros].
    intros b1 cap1 st1 Hown1 Hroom Hfull. apply wp_ret.
    exists b1, (xs ++ [arg_value a]). rewrite length_app. simpl.
    destruct (decide (length xs = cap)) as [He|He].
    + destruct (Hfull He) as (Hb & -> & Hs).
      split_and!; [done|lia|clear Hs; case_decide; lia| |]; ledger.
    + destruct Hroom as (-> & -> & Hs); [lia|].
      split_and!; [done|lia|done| |]; ledger.
  - apply wp_bind. unfold wp at 1. rewrite (owns_begin _ _ _ _ _ Hown).
    unfold ptr_add; simpl.
    apply wp_bind, (wp_Emplace _ _ _ _ _ _ _ _ _ Hown Hdef Hfit'); [|by intros].
    intros b1 cap1 st1 Hown1 Hroom Hfull. apply wp_ret.
    exists b1, (take i xs ++ arg_value a :: drop i xs).
    assert (Hlen : length (take i xs ++ arg_value a :: drop i xs) = S (length xs)).
    { rewrite length_app, length_take. simpl. rewrite length_drop. lia. }
    rewrite Hlen.
    destruct (decide (length xs = cap)) as [He|He].
    + destruct (Hfull He) as (Hb & -> & Hs).
      split_and!; [done|lia|clear Hs; case_decide; lia| |]; ledger.
    + destruct Hroom as (-> & -> & Hs); [lia|].
      split_and!; [done|lia|done| |]; ledger.
  - apply wp_bind. unfold wp at 1. rewrite (owns_begin _ _ _ _ _ Hown).
    unfold ptr_add; simpl.
    apply wp_bind, (wp_Erase _ _ _ _ _ _ _ _ Hown Hdef).
    intros st1 Hown1 Hs. apply wp_ret.
    exists b, (take i xs ++ drop (S i) xs).
    assert (Hlen : length (take i xs ++ drop (S i) xs) = length xs - 1).
    { rewrite length_app, length_take, length_drop. lia. }
    rewrite Hlen. split_and!; [done|lia|done| |]; ledger.
  - apply (wp_PopBack _ _ _ _ _ _ _ Hown Hdef). intros st1 Hown1 Hs.
    exists b, (take (length xs - 1) xs). rewrite length_take.
    split_and!; [done|lia|done| |]; ledger.
  - assert (Hlen : length (take n xs ++ replicate (n - length xs) value_init) = n).
    { rewrite length_app, length_take, length_replicate. lia. }
    unfold Resize. apply wp_bind.
    destruct (decide (n ≤ cap)) as [Hn|Hn].
    + unfold wp at 1. rewrite (Reserve_enough _ _ _ _ Hv) by done.
      apply (wp_Resize_tail _ _ _ _ _ _ _ _ Hown Hn). intros st1 Hown1 Hs.
      exists b, (take n xs ++ replicate (n - length xs) value_init). rewrite Hlen.
      split_and!; [done|lia|done| |]; ledger.
    + apply (wp_Reserve_grow _ _ _ _ _ _ _ _ Hown); [lia| |by intros].
      intros b1 st1 Hne Hown1 Hs1.
      apply (wp_Resize_tail _ _ _ _ _ _ _ _ Hown1); [lia|]. intros st2 Hown2 Hs2.
      exists b1, (take n xs ++ replicate (n - length xs) value_init). rewrite Hlen.
      split_and!; [done|lia|lia| |]; ledger.
  - destruct (decide (n ≤ cap)) as [Hn|Hn].
    + unfold wp. rewrite (Reserve_enough _ _ _ _ Hv) by done.
      exists b, xs. split_and!; [done|lia|done| |]; ledger.
    + apply (wp_Reserve_grow _ _ _ _ _ _ _ _ Hown); [lia| |by intros].
      intros b1 st1 Hne Hown1 Hs1.
      exists b1, xs. split_and!; [done|lia|lia| |]; ledger.
Qed.

Lemma op_capacity_ge (op : @Op T) len cap : cap ≤ op_capacity op len cap.
Proof. destruct op; simpl; repeat case_decide; lia. Qed.

Lemma ops_capacity_ge (ops : list (@Op T)) : ∀ len cap, cap ≤ ops_capacity ops len cap.
Proof.
  induction ops as [|op ops IH]; intros len cap; simpl; [done|].
  etrans; [apply (op_capacity_ge op len)|apply IH].
Qed.

Lemma ops_leaks_moving (ops : list (@Op T)) :
  move_if_safe = true → ∀ len cap, ops_leaks ops len cap = 0.
Proof.
  intros Hm. induction ops as [|op ops IH]; intros len cap; simpl; [done|].
  rewrite IH. destruct op; simpl; try done. rewrite Hm. by case_decide.
Qed.

(** A sequence of mutators: the vector it leaves and what it adds to the
    counters *)
Lemma wp_run_ops this (ops : list Op) : ∀ b xs cap st,
  owns st this b xs cap → ops_defined ops (length xs) →
  wp (run_ops this ops) st
    (λ _ st', ∃ b' xs',
       owns st' this b' xs' (ops_capacity ops (length xs) cap) ∧
       length xs' = ops_length ops (length xs) ∧
       live_elements (stats st) (stats st') =
         (Z.of_nat (length xs') - Z.of_nat (length xs)
          + Z.of_nat (ops_leaks ops (length xs) cap))%Z ∧
       live_blocks (stats st) (stats st') =
         (blocks_held (ops_capacity ops (length xs) cap) - blocks_held cap)%Z)
    (λ _, fired).
Proof.
  induction ops as [|op ops IH]; intros b xs cap st Hown Hdef; simpl.
  - apply wp_ret. exists b, xs.
    split_and!; [done|done|unfold live_elements; lia|unfold live_blocks; lia].
  - destruct Hdef as (Hd & Hfit & Hrest). apply wp_bind.
    eapply wp_mono; [apply (wp_run_op _ _ _ _ op _ Hown Hd Hfit)| |done].
    clear Hfit.
    intros [] st1 (b1 & xs1 & Hown1 & Hlen1 & _ & Hel1 & Hbl1). simpl.
    rewrite <- Hlen1 in Hrest.
    eapply wp_mono; [apply (IH _ _ _ _ Hown1 Hrest)| |done].
    intros [] st2 (b2 & xs2 & Hown2 & Hlen2 & Hel2 & Hbl2). simpl.
    exists b2, xs2. rewrite <- Hlen1. split_and!; [done|done| |].
    + clear Hrest. unfold live_elements in *. lia.
    + clear Hrest. unfold live_blocks in *. lia.
Qed.

(** X18.  Over any sequence of mutators that returns, constructions minus
    destructions equal the growth of the length plus one for each
    [Emplace] strictly before the end of a vector with spare capacity when
    the type is shifted by copy; allocations minus releases equal the
    change in the number of blocks held (one if the capacity is not 0). *)
Theorem mutators_ledger this b xs cap (ops : list Op) st st' :
  owns st this b xs cap → ops_defined ops (length xs) →
  run_ops this ops st = (Ok tt, st') →
  live_elements (stats st) (stats st') =
    (Z.of_nat (ops_length ops (length xs)) - Z.of_nat (length xs)
     + Z.of_nat (ops_leaks ops (length xs) cap))%Z ∧
  live_blocks (stats st) (stats st') =
    (blocks_held (ops_capacity ops (length xs) cap) - blocks_held cap)%Z.
Proof.
  intros Hown Hdef Hrun.
  destruct (wp_run _ _ _ _ _ _ (wp_run_ops _ ops _ _ _ _ Hown Hdef) Hrun)
    as [([] & _ & b' & xs' & Hown' & Hlen & Hel & Hbl)|[[=] _]].
  by rewrite <- Hlen.
Qed.

(** X19.  A vector that is default-constructed, goes through any sequence
    of mutators that returns and is destroyed has released every block it
    allocated, and is gone.  Its constructions exceed its destructions by
    the number of inserts strictly before the end made with spare
    capacity under the copy policy; for a type that is transplanted by
    move they balance. *)
Theorem whole_life_balanced this (ops : list Op) st r st' :
  ops_defined ops 0 →
  whole_life this ops st = (r, st') →
  (r = Ok tt ∧ objs st' !! this = None ∧
   live_blocks (stats st) (stats st') = 0%Z ∧
   live_elements (stats st) (stats st') = Z.of_nat (ops_leaks ops 0 0) ∧
   (move_if_safe = true → live_elements (stats st) (stats st') = 0%Z))
  ∨ (r = Throw ∧ fired).
Proof.
  intros Hdef Hrun.
  assert (Hwp : wp (whole_life this ops) st
    (λ _ st1, objs st1 !! this = None ∧
       live_blocks (stats st) (stats st1) = 0%Z ∧
       live_elements (stats st) (stats st1) = Z.of_nat (ops_leaks ops 0 0) ∧
       (move_if_safe = true → live_elements (stats st) (stats st1) = 0%Z))
    (λ _, fired)).
  { unfold whole_life. apply wp_bind.
    destruct (Vector_default_owns this st) as (st0 & Hrun0 & Hown0 & Hs0).
    unfold wp at 1. rewrite Hrun0. apply wp_bind.
    eapply wp_mono; [apply (wp_run_ops _ ops _ _ _ _ Hown0 Hdef)| |done].
    intros [] st1 (b1 & xs1 & Hown1 & Hlen1 & Hel1 & Hbl1). simpl in *.
    apply (wp_Vector_dtor _ _ _ _ _ _ _ Hown1). intros st2 Ho2 Hs2 Hc2.
    assert (Hel : live_elements (stats st) (stats st2)
                  = Z.of_nat (ops_leaks ops 0 0)).
    { clear Hdef. rewrite <- Hs0. unfold live_elements, constructions in *.
      rewrite Hs2. unfold release_stats. goal_decide; stats_fields; lia. }
    split_and!; [by rewrite Ho2, lookup_delete_eq| |done|].
    - clear Hdef. rewrite <- Hs0.
      unfold live_blocks, blocks_held, release_stats in *.
      rewrite Hs2. clear Hc2. repeat case_decide; stats_fields; lia.
    - intros Hm. by rewrite Hel, (ops_leaks_moving _ Hm). }
  destruct (wp_run _ _ _ _ _ _ Hwp Hrun) as [([] & -> & H)|[-> H]];
    [by left|by right].
Qed.

End Sequences.

(** ** Appends, growth and round trips *)

Section Growth.
Context {T : Type} {ET : ElementType T}.
Implicit Types (st : @State T) (p q : Ptr) (xs ys : list T).

(** Appends that fit into the capacity *)
Lemma wp_appends_room this b cap (ops : list Append) : ∀ xs st,
  owns st this b xs cap → length xs + length ops ≤ cap →
  wp (appends this ops) st
     (λ _ st', owns st' this b (xs ++ (append_value <$> ops)) cap ∧
        n_alloc (stats st') = n_alloc (stats st))
     (λ _, fired).
Proof.
  induction ops as [|a ops IH]; intros xs st Hown Hlen; simpl.
  - apply wp_ret. by rewrite app_nil_r.
  - simpl in Hlen. apply wp_bind.
    assert (∃ arg, do_append this a = PushBackImpl this arg ∧
                   arg_value arg = append_value a) as (arg & -> & Harg).
    { destruct a as [x|x]; [by exists (CopyOf x)|by exists (MoveOf x)]. }
    apply (wp_PushBackImpl _ _ _ _ _ _ _ _ Hown); [intros; lia| |by intros].
    intros b' cap' st' Hown' Hroom _. rewrite Harg in Hown'.
    destruct Hroom as (-> & -> & Hs); [lia|].
    eapply wp_mono; [apply (IH _ _ Hown')| |done].
    { rewrite length_app. simpl. lia. }
    intros _ st'' [Hown'' Ha]. rewrite <- app_assoc in Hown''. split; [done|].
    rewrite Ha, Hs. destruct arg; stats_fields; lia.
Qed.

(** Appends to a vector whose capacity is a power of two that its length
    exceeds by less than half *)
Lemma wp_appends_doubling this (ops : list Append) : ∀ b xs k st,
  owns st this b xs (2 ^ k) → 2 ^ k < 2 * length xs →
  fits (2 * (length xs + length ops)) →
  wp (appends this ops) st
     (λ _ st', ∃ b' k',
        owns st' this b' (xs ++ (append_value <$> ops)) (2 ^ k') ∧
        2 ^ k' < 2 * (length xs + length ops) ∧
        n_alloc (stats st') + k = n_alloc (stats st) + k')
     (λ _, fired).
Proof.
  induction ops as [|a ops IH]; intros b xs k st Hown Hhalf Hfit; simpl.
  - apply wp_ret. exists b, k. rewrite app_nil_r. split_and!; [done|lia|lia].
  - apply wp_bind.
    assert (∃ arg, do_append this a = PushBackImpl this arg ∧
                   arg_value arg = append_value a) as (arg & -> & Harg).
    { destruct a as [x|x]; [by exists (CopyOf x)|by exists (MoveOf x)]. }
    pose proof Hown as (_ & Hle & _).
    assert (Hpos : 2 ^ k ≠ 0) by (apply Nat.pow_nonzero; lia).
    apply (wp_PushBackImpl _ _ _ _ _ _ _ _ Hown); [| |by intros].
    { intros <-. apply (fits_le _ _ Hfit). simpl. lia. }
    intros b' cap' st' Hown' Hroom Hfull. rewrite Harg in Hown'.
    assert (Hfit' : fits (2 * (length (xs ++ [append_value a]) + length ops))).
    { apply (fits_le _ _ Hfit). rewrite length_app. simpl. lia. }
    destruct (decide (length xs = 2 ^ k)) as [He|He].
    + destruct (Hfull He) as (_ & -> & Hs). rewrite decide_False in Hown' by done.
      replace (2 ^ k * 2) with (2 ^ S k) in Hown' by (rewrite Nat.pow_succ_r'; lia).
      eapply wp_mono; [apply (IH _ _ _ _ Hown')| |done].
      * rewrite length_app, Nat.pow_succ_r'. simpl. lia.
      * done.
      * intros _ st'' (b'' & k'' & Hown'' & Hlt & Ha).
        rewrite <- app_assoc in Hown''. exists b'', k''.
        rewrite length_app in Hlt. simpl in Hlt.
        split_and!; [done|lia|]. clear Hfit Hfit'.
        assert (n_alloc (stats st') = S (n_alloc (stats st))) as Hn.
        { rewrite Hs. unfold transplant_stats, release_stats.
          destruct move_if_safe, arg; case_decide; stats_fields; lia. }
        lia.
    + destruct Hroom as (-> & -> & Hs); [lia|].
      eapply wp_mono; [apply (IH _ _ _ _ Hown')| |done].
      * rewrite length_app. simpl. lia.
      * done.
      * intros _ st'' (b'' & k'' & Hown'' & Hlt & Ha).
        rewrite <- app_assoc in Hown''. exists b'', k''.
        rewrite length_app in Hlt. simpl in Hlt.
        split_and!; [done|lia|]. clear Hfit Hfit'.
        assert (n_alloc (stats st') = n_alloc (stats st)) as Hn.
        { rewrite Hs. destruct arg; stats_fields; lia. }
        lia.
Qed.

(** X21.  Appends to a default-constructed vector grow the capacity
    through the powers of two: after [N ≥ 1] appends that return, the
    capacity is the power of two [2 ^ k] with [N ≤ 2 ^ k < 2 * N], and
    [k + 1] blocks have been allocated. *)
Theorem appends_capacity_power_of_two this (ops : list Append) st0 r st :
  owns st0 this 0 [] 0 → ops ≠ [] → fits (2 * length ops) →
  appends this ops st0 = (r, st) →
  (r = Ok tt ∧
   ∃ k, Capacity this st = (Ok (2 ^ k), st) ∧
        length ops ≤ 2 ^ k < 2 * length ops ∧
        n_alloc (stats st) = n_alloc (stats st0) + S k)
  ∨ (r = Throw ∧ fired).
Proof.
  intros Hown Hne Hfit Hrun. destruct ops as [|a ops]; [done|]. clear Hne.
  assert (Hwp : wp (appends this (a :: ops)) st0
    (λ _ st1, ∃ k, Capacity this st1 = (Ok (2 ^ k), st1) ∧
        length (a :: ops) ≤ 2 ^ k < 2 * length (a :: ops) ∧
        n_alloc (stats st1) = n_alloc (stats st0) + S k)
    (λ _, fired)).
  { simpl. apply wp_bind.
    assert (∃ arg, do_append this a = PushBackImpl this arg ∧
                   arg_value arg = append_value a) as (arg & -> & Harg).
    { destruct a as [x|x]; [by exists (CopyOf x)|by exists (MoveOf x)]. }
    apply (wp_PushBackImpl _ _ _ _ _ _ _ _ Hown); [by intros| |by intros].
    intros b' cap' st' Hown' _ Hfull. simpl in Hown'.
    destruct (Hfull eq_refl) as (_ & -> & Hs). simpl in Hown'.
    eapply wp_mono; [apply (wp_appends_doubling _ ops _ _ 0 _ Hown')| |done].
    - simpl. lia.
    - apply (fits_le _ _ Hfit). simpl. lia.
    - intros _ st'' (b'' & k'' & Hown'' & Hlt & Ha). exists k''.
      pose proof Hown'' as (_ & Hle'' & _).
      rewrite length_app, length_fmap in Hle''. simpl in *.
      split_and!; [by apply (owns_Capacity _ _ _ _ _ Hown'')|lia|lia|].
      clear Hfit.
      assert (n_alloc (stats st') = S (n_alloc (stats st0))) as Hn.
      { rewrite Hs. unfold transplant_stats, release_stats.
        destruct move_if_safe, arg; simpl; lia. }
      lia. }
  destruct (wp_run _ _ _ _ _ _ Hwp Hrun) as [([] & -> & H)|[-> H]];
    [by left|by right].
Qed.

(** X22.  [Emplace] followed by [Erase] at the iterator it returned
    restores the elements of the vector, whether or not the insert had to
    reallocate. *)
Theorem Emplace_then_Erase this b xs cap i (a : Arg) st r st' :
  owns st this b xs cap → i ≤ length xs → fits (2 * length xs) →
  (it ← Emplace this (mkPtr b i) a; Erase this it) st = (r, st') →
  (∃ p, r = Ok p ∧ contents st' this = Some xs ∧
        Size this st' = (Ok (length xs), st'))
  ∨ (r = Throw ∧ fired).
Proof.
  intros Hown Hi Hfit Hrun.
  assert (Hwp : wp (it ← Emplace this (mkPtr b i) a; Erase this it) st
    (λ _ st1, contents st1 this = Some xs ∧
       Size this st1 = (Ok (length xs), st1))
    (λ _, fired)).
  { apply wp_bind.
    apply (wp_Emplace _ _ _ _ _ _ _ _ _ Hown Hi); [by intros <-| |by intros].
    intros b1 cap1 st1 Hown1 _ _.
    assert (Hlen : length (take i xs ++ arg_value a :: drop i xs) = S (length xs)).
    { rewrite length_app, length_take. simpl. rewrite length_drop. lia. }
    apply (wp_Erase _ _ _ _ _ _ _ _ Hown1); [lia|].
    intros st2 Hown2 _.
    assert (Hback : take i (take i xs ++ arg_value a :: drop i xs)
                    ++ drop (S i) (take i xs ++ arg_value a :: drop i xs) = xs).
    { assert (Hti : length (take i xs) = i) by (rewrite length_take; lia).
      rewrite take_app_length' by done.
      rewrite drop_app_ge by lia. rewrite Hti.
      replace (S i - i) with 1 by lia. simpl. rewrite drop_0.
      apply take_drop. }
    rewrite Hback in Hown2. split.
    - by apply (owns_contents _ _ _ _ _ Hown2).
    - by apply (owns_Size _ _ _ _ _ Hown2). }
  destruct (wp_run _ _ _ _ _ _ Hwp Hrun) as [(p & -> & H)|[-> H]];
    [left; by exists p|by right].
Qed.

(** X23.  [PushBack] followed by [PopBack] restores the elements of the
    vector; the capacity may have grown. *)
Theorem PushBack_then_PopBack this b xs cap (a : Arg) st r st' :
  owns st this b xs cap → fits (2 * length xs) →
  (PushBackImpl this a;; PopBack this) st = (r, st') →
  (r = Ok tt ∧ contents st' this = Some xs ∧ vector_invariant st' this ∧
   live_elements (stats st) (stats st') = 0%Z)
  ∨ (r = Throw ∧ fired).
Proof.
  intros Hown Hfit Hrun.
  assert (Hwp : wp (PushBackImpl this a;; PopBack this) st
    (λ _ st1, contents st1 this = Some xs ∧ vector_invariant st1 this ∧
       live_elements (stats st) (stats st1) = 0%Z)
    (λ _, fired)).
  { apply wp_bind.
    apply (wp_PushBackImpl _ _ _ _ _ _ _ _ Hown); [by intros <-| |by intros].
    intros b1 cap1 st1 Hown1 Hroom Hfull.
    apply (wp_PopBack _ _ _ _ _ _ _ Hown1).
    { rewrite length_app. simpl. lia. }
    intros st2 Hown2 Hs2.
    replace (take (length (xs ++ [arg_value a]) - 1) (xs ++ [arg_value a]))
      with xs in Hown2.
    2:{ rewrite length_app. simpl.
        replace (length xs + 1 - 1) with (length xs) by lia.
        by rewrite take_app_length. }
    split_and!; [by apply (owns_contents _ _ _ _ _ Hown2)|by exists b1, xs, cap1|].
    pose proof Hown as (_ & Hle & _). clear Hfit.
    destruct (decide (length xs = cap)) as [He|He].
    - destruct (Hfull He) as (_ & _ & Hs1). ledger.
    - destruct Hroom as (_ & _ & Hs1); [lia|]. ledger. }
  destruct (wp_run _ _ _ _ _ _ Hwp Hrun) as [([] & -> & H)|[-> H]];
    [by left|by right].
Qed.

(** X24.  [Resize(n)] within the capacity keeps block and capacity and
    allocates nothing: it destroys the elements from index [n] on, or
    value-constructs the missing ones.  Beyond the capacity it
    reallocates to capacity exactly [n]; there is no geometric growth. *)
Theorem Resize_capacity this b xs cap n st st' :
  owns st this b xs cap →
  Resize this n st = (Ok tt, st') →
  Capacity this st' = (Ok (if decide (n ≤ cap) then cap else n), st') ∧
  (n ≤ cap →
     begin_ this st' = (Ok (mkPtr b 0), st') ∧
     stats st' = stats st ⊕ stats_scale (length xs - n) d_dtor
                   ⊕ stats_scale (n - length xs) d_ctor_value).
Proof.
  intros Hown Hrun.
  assert (Hwp : wp (Resize this n) st
    (λ _ st1,
       Capacity this st1 = (Ok (if decide (n ≤ cap) then cap else n), st1) ∧
       (n ≤ cap →
          begin_ this st1 = (Ok (mkPtr b 0), st1) ∧
          stats st1 = stats st ⊕ stats_scale (length xs - n) d_dtor
                        ⊕ stats_scale (n - length xs) d_ctor_value))
    (λ _, True)).
  { apply (wp_Resize _ _ _ _ _ _ _ _ Hown); [|done].
    intros b1 cap1 st1 Hown1 Hin Hout. split.
    - rewrite (owns_Capacity _ _ _ _ _ Hown1). do 2 f_equal.
      destruct (decide (n ≤ cap)) as [Hn|Hn].
      + by destruct (Hin Hn) as (_ & -> & _).
      + destruct Hout as (_ & ->); [lia|done].
    - intros Hn. destruct (Hin Hn) as (-> & -> & Hs). split; [|done].
      by apply (owns_begin _ _ _ _ _ Hown1). }
  destruct (wp_run _ _ _ _ _ _ Hwp Hrun) as [([] & _ & H)|[[=] _]]. done.
Qed.

(** X25.  [RawMemory(n)] followed by its destructor leaves the memory as
    it was; a block is allocated and released when [n] is not 0, and no
    allocation function is called at all when [n] is 0. *)
Theorem RawMemory_round_trip n st :
  ∃ st', (rm ← RawMemory_new n; RawMemory_delete rm) st = (Ok tt, st') ∧
    blocks st' = blocks st ∧ objs st' = objs st ∧
    stats st' = stats st ⊕ (if decide (n = 0) then stats_zero else d_alloc ⊕ d_dealloc).
Proof.
  unfold RawMemory_new, RawMemory_delete, Allocate, Deallocate, mbind, M_bind,
    mret, M_ret.
  destruct (decide (n = 0)) as [->|Hn]; simpl.
  - eexists. split; [reflexivity|]. split_and!; [done..|]. stats_solve.
  - rewrite decide_True by done. simpl.
    set (b := fresh ({[0]} ∪ dom (blocks st))).
    assert (Hfresh : b ∉ ({[0]} ∪ dom (blocks st) : gset nat)) by apply is_fresh.
    assert (Hb0 : b ≠ 0) by set_solver.
    assert (HbN : blocks st !! b = None) by (apply not_elem_of_dom; set_solver).
    rewrite decide_False by (unfold nullptr; congruence).
    rewrite lookup_insert_eq. simpl.
    eexists. split; [reflexivity|]. simpl. split_and!; [|done|].
    + rewrite delete_insert_eq. by apply delete_id.
    + by rewrite stats_add_assoc.
Qed.

End Growth.

(** ** [RawMemory] objects handed to one another *)

Section Ownership.
Implicit Types (rs : gmap nat RawMemory).

Lemma eta_RawMemory (r : RawMemory) : mkRaw (buffer_ r) (capacity_ r) = r.
Proof. by destruct r. Qed.

(** X30.  [RawMemory] cannot be copied, and its move constructor, its move
    assignment and its [Swap] hand blocks over without duplicating one:
    when no block is held by two objects before, none is afterwards.  The
    move constructor gives the new object what [other] held and leaves
    [other] with the null pointer and capacity 0; the move assignment and
    [Swap] exchange what the two objects hold, and a move assignment to
    itself changes nothing. *)
Theorem RawMemory_moves_keep_owners this other rs :
  unique_owners rs →
  (∀ rs', this ≠ other → RawMemory_move_ctor this other rs = Some rs' →
     unique_owners rs' ∧ rs' !! this = rs !! other ∧
     rs' !! other = Some (mkRaw nullptr 0)) ∧
  (∀ rs', RawMemory_Swap this other rs = Some rs' →
     unique_owners rs' ∧ rs' !! this = rs !! other ∧ rs' !! other = rs !! this) ∧
  (∀ rs', RawMemory_move_assign this other rs = Some rs' →
     unique_owners rs' ∧ rs' !! this = rs !! other ∧ rs' !! other = rs !! this) ∧
  (this = other → ∀ rs', RawMemory_move_assign this other rs = Some rs' → rs' = rs).
Proof.
  intros Huniq.
  assert (Hswap : ∀ rs', RawMemory_Swap this other rs = Some rs' →
     unique_owners rs' ∧ rs' !! this = rs !! other ∧ rs' !! other = rs !! this).
  { intros rs' Hrun. unfold RawMemory_Swap in Hrun.
    destruct (rs !! this) as [a|] eqn:Ha; [|done].
    destruct (rs !! other) as [o|] eqn:Ho; [|done].
    cbv [mbind option_bind] in Hrun. rewrite !eta_RawMemory in Hrun.
    injection Hrun as <-.
    split_and!.
    - intros x y rx ry Hxy Hx Hy Hnn.
      destruct (decide (x = other)) as [->|Hxo];
        [rewrite lookup_insert_eq in Hx
        |rewrite lookup_insert_ne in Hx by done;
         destruct (decide (x = this)) as [->|Hxt];
           [rewrite lookup_insert_eq in Hx
           |rewrite lookup_insert_ne in Hx by done]];
      (destruct (decide (y = other)) as [->|Hyo];
        [rewrite lookup_insert_eq in Hy
        |rewrite lookup_insert_ne in Hy by done;
         destruct (decide (y = this)) as [->|Hyt];
           [rewrite lookup_insert_eq in Hy
           |rewrite lookup_insert_ne in Hy by done]]);
      simplify_eq; try done;
      first [ by eapply (Huniq this other)
            | by eapply (Huniq other this)
            | by eapply (Huniq this y)
            | by eapply (Huniq other y)
            | by eapply (Huniq x this)
            | by eapply (Huniq x other)
            | by eapply (Huniq x y) ].
    - destruct (decide (this = other)) as [->|Hne].
      + rewrite lookup_insert_eq. congruence.
      + rewrite lookup_insert_ne by done. by rewrite lookup_insert_eq.
    - by rewrite lookup_insert_eq. }
  split_and!; [|done| |].
  - intros rs' Hne Hrun. unfold RawMemory_move_ctor in Hrun.
    destruct (rs !! other) as [o|] eqn:Ho; [|done].
    cbv [mbind option_bind] in Hrun. rewrite eta_RawMemory in Hrun.
    injection Hrun as <-.
    split_and!.
    + intros x y rx ry Hxy Hx Hy Hnn.
      destruct (decide (x = other)) as [->|Hxo];
        [rewrite lookup_insert_eq in Hx
        |rewrite lookup_insert_ne in Hx by done;
         destruct (decide (x = this)) as [->|Hxt];
           [rewrite lookup_insert_eq in Hx
           |rewrite lookup_insert_ne in Hx by done]];
      (destruct (decide (y = other)) as [->|Hyo];
        [rewrite lookup_insert_eq in Hy
        |rewrite lookup_insert_ne in Hy by done;
         destruct (decide (y = this)) as [->|Hyt];
           [rewrite lookup_insert_eq in Hy
           |rewrite lookup_insert_ne in Hy by done]]);
      simplify_eq; try done;
      first [ by eapply (Huniq other y)
            | by eapply (Huniq x other)
            | by eapply (Huniq x y) ].
    + rewrite lookup_insert_ne by done. by rewrite lookup_insert_eq.
    + by rewrite lookup_insert_eq.
  - intros rs' Hrun. unfold RawMemory_move_assign in Hrun.
    destruct (decide (this ≠ other)) as [Hne|Heq]; [by apply Hswap|].
    assert (this = other) as <- by (destruct (decide (this = other)); [done|tauto]).
    destruct (rs !! this) eqn:Ha; [|done]. cbv [mbind option_bind] in Hrun.
    by simplify_eq.
  - intros <- rs' Hrun. unfold RawMemory_move_assign in Hrun.
    rewrite decide_False in Hrun by (intros H; by apply H).
    destruct (rs !! this); [|done]. cbv [mbind option_bind] in Hrun.
    by simplify_eq.
Qed.

End Ownership.

(** * Allocation *)

(** ** Requests that [operator new] serves, and requests it refuses *)

Section Allocation.
Context {T : Type} {ET : ElementType T} {alloc : @Allocator T}.
Implicit Types (st : @State T) (p q : Ptr) (xs ys : list T).

(** A request that is served in full is allocated as by the allocator
    without bound. *)
Lemma Allocate_served n st :
  (n ≠ 0 → operator_new st n = Some n) →
  Allocate n st = Allocate (alloc := unbounded) n st.
Proof.
  intros Hs. unfold Allocate. case_decide; [|done]. by rewrite Hs.
Qed.

Lemma RawMemory_new_served n st :
  (n ≠ 0 → operator_new st n = Some n) →
  RawMemory_new n st = RawMemory_new (alloc := unbounded) n st.
Proof.
  intros Hs. unfold RawMemory_new, mbind, M_bind. by rewrite Allocate_served.
Qed.

(** A request that is refused: [std::bad_alloc] leaves the constructor of
    [RawMemory] before anything has changed. *)
Lemma RawMemory_new_refused n st :
  n ≠ 0 → operator_new st n = None → RawMemory_new n st = (Throw, st).
Proof.
  intros Hn Hs. unfold RawMemory_new, mbind, M_bind, Allocate.
  rewrite decide_True by done. by rewrite Hs.
Qed.

Lemma Reserve_served this v c st :
  objs st !! this = Some v →
  (capacity_ (data_ v) < c → operator_new st c = Some c) →
  Reserve this c st = Reserve (alloc := unbounded) this c st.
Proof.
  intros Hv Hs. unfold Reserve, mbind, M_bind, vec. rewrite Hv.
  case_decide; [done|]. rewrite RawMemory_new_served; [done|].
  intros _. apply Hs. lia.
Qed.

Lemma Reserve_refused this v c st :
  objs st !! this = Some v → capacity_ (data_ v) < c →
  operator_new st c = None →
  Reserve this c st = (Throw, st).
Proof.
  intros Hv Hc Hs. unfold Reserve, mbind, M_bind, vec. rewrite Hv.
  rewrite decide_False by lia. rewrite RawMemory_new_refused; [done|lia|done].
Qed.

Lemma Resize_served this v n st :
  objs st !! this = Some v →
  (capacity_ (data_ v) < n → operator_new st n = Some n) →
  Resize this n st = Resize (alloc := unbounded) this n st.
Proof.
  intros Hv Hs. unfold Resize, mbind, M_bind.
  by rewrite (Reserve_served _ _ _ _ Hv Hs).
Qed.

Lemma Resize_refused this v n st :
  objs st !! this = Some v → capacity_ (data_ v) < n →
  operator_new st n = None →
  Resize this n st = (Throw, st).
Proof.
  intros Hv Hc Hs. unfold Resize, mbind, M_bind.
  by rewrite (Reserve_refused _ _ _ _ Hv Hc Hs).
Qed.

Lemma Vector_sized_served this n st :
  (n ≠ 0 → operator_new st n = Some n) →
  Vector_sized this n st = Vector_sized (alloc := unbounded) this n st.
Proof.
  intros Hs. unfold Vector_sized, mbind, M_bind.
  by rewrite RawMemory_new_served.
Qed.

Lemma PushBackImpl_served this v (a : Arg) st :
  objs st !! this = Some v →
  served st (OpPushBack a) (size_ v) (capacity_ (data_ v)) →
  PushBackImpl this a st = PushBackImpl (alloc := unbounded) this a st.
Proof.
  intros Hv Hs. unfold PushBackImpl, Capacity, mbind, M_bind, vec, mret, M_ret.
  repeat (rewrite Hv; cbv beta iota). case_decide as He; [|done].
  rewrite RawMemory_new_served; [done|]. intros _. apply Hs. simpl.
  by rewrite decide_True.
Qed.

Lemma EmplaceBack_served this v (a : Arg) st :
  objs st !! this = Some v →
  served st (OpEmplaceBack a) (size_ v) (capacity_ (data_ v)) →
  EmplaceBack this a st = EmplaceBack (alloc := unbounded) this a st.
Proof.
  intros Hv Hs. unfold EmplaceBack, Capacity, mbind, M_bind, vec, mret, M_ret.
  repeat (rewrite Hv; cbv beta iota). case_decide as He; [|done].
  rewrite RawMemory_new_served; [done|]. intros _. apply Hs. simpl.
  by rewrite decide_True.
Qed.

Lemma Emplace_served this v i (a : Arg) pos st :
  objs st !! this = Some v →
  served st (OpEmplace i a) (size_ v) (capacity_ (data_ v)) →
  Emplace this pos a st = Emplace (alloc := unbounded) this pos a st.
Proof.
  intros Hv Hs.
  unfold Emplace, begin_, end_, Capacity, mbind, M_bind, vec, mret, M_ret.
  repeat (rewrite Hv; cbv beta iota).
  destruct (ptr_diff pos (buffer_ (data_ v)) st) as [[k| |] st1] eqn:Hd;
    [|done..].
  assert (st1 = st) as ->.
  { unfold ptr_diff, mret, M_ret, undef in Hd. case_decide; by simplify_eq. }
  repeat (rewrite Hv; cbv beta iota). case_decide as He; [done|].
  rewrite RawMemory_new_served; [done|]. intros _. apply Hs. simpl.
  by rewrite decide_False.
Qed.

Lemma run_op_served this b xs cap (op : Op) st :
  owns st this b xs cap → served st op (length xs) cap →
  run_op this op st = run_op (alloc := unbounded) this op st.
Proof.
  intros Hown Hs. pose proof Hown as (Hv & _).
  destruct op as [a|a|i a|i| |n|n]; simpl.
  - by apply (PushBackImpl_served _ _ _ _ Hv).
  - unfold mbind, M_bind. by rewrite (EmplaceBack_served _ _ _ _ Hv).
  - unfold mbind, M_bind. rewrite (owns_begin _ _ _ _ _ Hown).
    by rewrite (Emplace_served _ _ i _ _ _ Hv).
  - done.
  - done.
  - apply (Resize_served _ _ _ _ Hv). simpl. intros Hn. apply Hs. simpl.
    by rewrite decide_False by lia.
  - apply (Reserve_served _ _ _ _ Hv). simpl. intros Hn. apply Hs. simpl.
    by rewrite decide_False by lia.
Qed.

(** A mutator whose request is refused throws before anything has
    changed. *)
Lemma run_op_refused this b xs cap (op : Op) n st :
  owns st this b xs cap → fits (2 * length xs) →
  op_request op (length xs) cap = Some n → operator_new st n = None →
  run_op this op st = (Throw, st).
Proof.
  intros Hown Hfit Hreq Hno. pose proof Hown as (Hv & _).
  assert (Hnz : ∀ len, len = length xs →
    (if decide (len = 0) then 1 else size_t_mul len 2) ≠ 0).
  { intros len ->. case_decide; [done|]. rewrite doubling_fits by done. lia. }
  destruct op as [a|a|i a|i| |m|m]; simpl in Hreq; simpl.
  - case_decide as He; [|done]. simplify_eq.
    unfold PushBackImpl, Capacity, mbind, M_bind, vec, mret, M_ret.
    repeat (rewrite Hv; cbv beta iota). simpl. rewrite decide_True by done.
    rewrite RawMemory_new_refused; [done|by apply Hnz|done].
  - case_decide as He; [|done]. simplify_eq.
    unfold EmplaceBack, Capacity, mbind, M_bind, vec, mret, M_ret.
    repeat (rewrite Hv; cbv beta iota). simpl. rewrite decide_True by done.
    rewrite RawMemory_new_refused; [done|by apply Hnz|done].
  - case_decide as He; [done|]. simplify_eq.
    unfold mbind, M_bind. rewrite (owns_begin _ _ _ _ _ Hown).
    unfold Emplace, begin_, end_, Capacity, mbind, M_bind, vec, mret, M_ret.
    repeat (rewrite Hv; cbv beta iota). simpl.
    destruct (ptr_diff (mkPtr b 0 +ₚ i) (mkPtr b 0) st) as [[k| |] st1] eqn:Hd.
    + assert (st1 = st) as ->.
      { unfold ptr_diff, mret, M_ret, undef in Hd. case_decide; by simplify_eq. }
      repeat (rewrite Hv; cbv beta iota). simpl. rewrite decide_False by done.
      rewrite RawMemory_new_refused; [done|by apply Hnz|done].
    + unfold ptr_diff, mret, M_ret, undef in Hd. case_decide; by simplify_eq.
    + unfold ptr_diff, mret, M_ret, undef in Hd. simpl in Hd.
      rewrite decide_True in Hd by (split; [done|lia]). done.
  - done.
  - done.
  - case_decide as He; [done|]. simplify_eq.
    apply (Resize_refused _ _ _ _ Hv); [simpl; lia|done].
  - case_decide as He; [done|]. simplify_eq.
    apply (Reserve_refused _ _ _ _ Hv); [simpl; lia|done].
Qed.

Lemma run_ops_served this (ops : list Op) : ∀ b xs cap st,
  owns st this b xs cap → ops_defined ops (length xs) →
  ops_served ops (length xs) cap →
  run_ops this ops st = run_ops (alloc := unbounded) this ops st.
Proof.
  induction ops as [|op ops IH]; intros b xs cap st Hown Hdef Hserved; [done|].
  destruct Hdef as (Hd & Hfit & Hrest). destruct Hserved as [Hs Hsrest].
  simpl. unfold mbind, M_bind. rewrite (run_op_served _ _ _ _ _ _ Hown (Hs st)).
  destruct (run_op (alloc := unbounded) this op st) as [[[]| |] st1] eqn:Hrun;
    [|done..].
  destruct (wp_run _ _ _ _ _ _ (wp_run_op _ _ _ _ op _ Hown Hd Hfit) Hrun)
    as [([] & _ & b1 & xs1 & Hown1 & Hlen1 & _)|[[=] _]].
  apply (IH _ _ _ _ Hown1); by rewrite Hlen1.
Qed.

(** Appends that fit into the capacity make no request. *)
Lemma appends_room_served this b cap (ops : list Append) : ∀ xs st,
  owns st this b xs cap → length xs + length ops ≤ cap →
  appends this ops st = appends (alloc := unbounded) this ops st.
Proof.
  induction ops as [|a ops IH]; intros xs st Hown Hlen; [done|].
  simpl in Hlen. pose proof Hown as (Hv & _).
  assert (∃ arg, do_append this a = PushBackImpl this arg ∧
                 do_append (alloc := unbounded) this a
                 = PushBackImpl (alloc := unbounded) this arg)
    as (arg & Hl & Hr).
  { destruct a as [x|x]; [by exists (CopyOf x)|by exists (MoveOf x)]. }
  simpl. unfold mbind, M_bind. rewrite Hl, Hr.
  rewrite (PushBackImpl_served _ _ _ _ Hv).
  2:{ intros n Hn. simpl in Hn. rewrite decide_False in Hn by lia. done. }
  destruct (PushBackImpl (alloc := unbounded) this arg st) as [[[]| |] st1] eqn:Hrun;
    [|done..].
  assert (Hwp : wp (PushBackImpl (alloc := unbounded) this arg) st
    (λ _ st', owns st' this b (xs ++ [arg_value arg]) cap) (λ _, True)).
  { apply (wp_PushBackImpl _ _ _ _ _ _ _ _ Hown); [intros; lia| |done].
    intros b' cap' st' Hown' Hroom _. by destruct Hroom as (-> & -> & _); [lia|]. }
  destruct (wp_run _ _ _ _ _ _ Hwp Hrun) as [(_ & _ & Hown1)|[[=] _]].
  apply (IH _ _ Hown1). rewrite length_app. simpl. lia.
Qed.

(** ** The operations whose request the caller chooses *)

(** C7.  [Reserve(c)] with [c] at most the capacity changes nothing at all,
    allocation counters included.  With [c] above the capacity it asks
    [operator new] for [c] elements.  When that request is served in full,
    it either ends with a throwing copy constructor or returns after
    exactly one more allocation, with capacity [c] and the same elements
    in the same order.  When [operator new] throws, so does [Reserve], and
    nothing has changed. *)
Theorem Reserve_spec this b xs cap c st r st' :
  owns st this b xs cap →
  Reserve this c st = (r, st') →
  (c ≤ cap → r = Ok tt ∧ st' = st) ∧
  (cap < c → operator_new st c = Some c →
     (r = Ok tt ∧
      n_alloc (stats st') = S (n_alloc (stats st)) ∧
      Capacity this st' = (Ok c, st') ∧
      Size this st' = (Ok (length xs), st') ∧
      contents st' this = Some xs)
     ∨ (r = Throw ∧ fired)) ∧
  (cap < c → operator_new st c = None → r = Throw ∧ st' = st).
Proof.
  intros Hown Hrun. pose proof Hown as (Hv & _). split_and!.
  - intros Hc. rewrite (Reserve_served _ _ _ _ Hv) in Hrun by (simpl; lia).
    rewrite (Reserve_enough _ _ _ _ Hv) in Hrun by done. by simplify_eq.
  - intros Hc Hs. rewrite (Reserve_served _ _ _ _ Hv) in Hrun by done.
    assert (Hwp : wp (Reserve (alloc := unbounded) this c) st
      (λ _ st1, ∃ b1, owns st1 this b1 xs c ∧
         n_alloc (stats st1) = S (n_alloc (stats st)))
      (λ _, fired)).
    { apply (wp_Reserve_grow _ _ _ _ _ _ _ _ Hown Hc); [|by intros].
      intros b1 st1 _ Hown1 Hs1. exists b1. split; [done|].
      rewrite Hs1. unfold release_stats, transplant_stats.
      case_decide; destruct move_if_safe; stats_fields; lia. }
    destruct (wp_run _ _ _ _ _ _ Hwp Hrun) as [([] & -> & b1 & Hown1 & Ha)|[-> Hf]];
      [left|by right].
    split_and!; [done|done|..].
    + by apply (owns_Capacity _ _ _ _ _ Hown1).
    + by apply (owns_Size _ _ _ _ _ Hown1).
    + by apply (owns_contents _ _ _ _ _ Hown1).
  - intros Hc Hs. rewrite (Reserve_refused _ _ _ _ Hv) in Hrun by done.
    by simplify_eq.
Qed.

(** C6.  [Resize(n)] asks [operator new] for [n] elements when [n] exceeds
    the capacity.  When that request is served in full, or none is made,
    it either ends with a throwing copy constructor, which needs a
    reallocation, or returns with length [n]: below the old length the
    first [n] elements remain, above it the old elements are followed by
    value-initialised ones, and at the old length nothing changes.  When
    [operator new] throws, so does [Resize], and nothing has changed. *)
Theorem Resize_spec this b xs cap n st r st' :
  owns st this b xs cap →
  Resize this n st = (r, st') →
  ((cap < n → operator_new st n = Some n) →
     (r = Ok tt ∧
      Size this st' = (Ok n, st') ∧
      (n < length xs → contents st' this = Some (take n xs)) ∧
      (length xs < n →
         contents st' this = Some (xs ++ replicate (n - length xs) value_init)) ∧
      (n = length xs → st' = st))
     ∨ (r = Throw ∧ fired ∧ cap < n)) ∧
  (cap < n → operator_new st n = None → r = Throw ∧ st' = st).
Proof.
  intros Hown Hrun. pose proof Hown as (Hv & _). split.
  - intros Hs. rewrite (Resize_served _ _ _ _ Hv) in Hrun by done.
    assert (Hwp : wp (Resize (alloc := unbounded) this n) st
      (λ _ st1, ∃ b1 cap1,
         owns st1 this b1 (take n xs ++ replicate (n - length xs) value_init) cap1)
      (λ _, fired ∧ cap < n)).
    { apply (wp_Resize _ _ _ _ _ _ _ _ Hown); [|by intros].
      intros b1 cap1 st1 Hown1 _ _. by exists b1, cap1. }
    destruct (wp_run _ _ _ _ _ _ Hwp Hrun)
      as [([] & -> & b1 & cap1 & Hown1)|[-> Hf]]; [left|by right].
    split_and!; [done|..].
    + rewrite (owns_Size _ _ _ _ _ Hown1). do 2 f_equal.
      rewrite length_app, length_take, length_replicate. lia.
    + intros Hn. rewrite (owns_contents _ _ _ _ _ Hown1).
      replace (n - length xs) with 0 by lia. simpl. by rewrite app_nil_r.
    + intros Hn. rewrite (owns_contents _ _ _ _ _ Hown1).
      by rewrite take_ge by lia.
    + intros ->. rewrite (Resize_same _ _ _ _ _ Hown) in Hrun. by simplify_eq.
  - intros Hc Hs. rewrite (Resize_refused _ _ _ _ Hv) in Hrun by done.
    by simplify_eq.
Qed.

(** X1.  [Vector(n)] asks [operator new] for [n] elements, unless [n] is
    0.  When that request is served in full, it returns a vector of length
    and capacity [n] whose elements are all value-initialised, having
    allocated one block, none when [n] is 0, and run [n] value
    constructions and nothing else; every other vector is as it was.  When
    [operator new] throws, so does the constructor, and nothing has
    changed. *)
Theorem Vector_sized_spec this n st :
  ((n ≠ 0 → operator_new st n = Some n) →
   ∃ b st', Vector_sized this n st = (Ok tt, st') ∧
     owns st' this b (replicate n value_init) n ∧
     stats st' = stats st ⊕ (if decide (n = 0) then stats_zero else d_alloc)
                   ⊕ stats_scale n d_ctor_value ∧
     ∀ other b0 ys cap0,
       other ≠ this → owns st other b0 ys cap0 → owns st' other b0 ys cap0) ∧
  (n ≠ 0 → operator_new st n = None → Vector_sized this n st = (Throw, st)).
Proof.
  split.
  - intros Hserved. rewrite (Vector_sized_served _ _ _ Hserved).
    destruct (Vector_sized (alloc := unbounded) this n st) as [r st'] eqn:Hrun.
    assert (Hwp : wp (Vector_sized (alloc := unbounded) this n) st
      (λ _ st1, ∃ b, owns st1 this b (replicate n value_init) n ∧
         stats st1 = stats st ⊕ (if decide (n = 0) then stats_zero else d_alloc)
                       ⊕ stats_scale n d_ctor_value ∧
         ∀ other b0 ys cap0,
           other ≠ this → owns st other b0 ys cap0 → owns st1 other b0 ys cap0)
      (λ _, False)).
    { apply wp_Vector_sized. intros b st1 Hb Hfresh Ho Hs Hc. exists b.
      split_and!; [|done|].
      - split_and!.
        + by rewrite Ho, lookup_insert_eq, length_replicate.
        + by rewrite length_replicate.
        + done.
        + intros i Hi. rewrite Hc. simpl. rewrite decide_True by done.
          by rewrite lookup_replicate_2.
      - intros other b0 ys cap0 Hne Hown0.
        apply (owns_frame _ _ _ _ _ _ Hown0).
        + by rewrite Ho, lookup_insert_ne.
        + intros i Hi. rewrite Hc. simpl. goal_decide; [|done].
          destruct_and?. subst b0. exfalso.
          apply (owns_apart _ _ _ _ _ b i Hown0 Hi); [|done].
          apply Hfresh. intros ->. assert (n = 0) by tauto. lia. }
    destruct (wp_run _ _ _ _ _ _ Hwp Hrun) as [([] & -> & b & H)|[_ []]].
    by exists b, st'.
  - intros Hn Hs. unfold Vector_sized, mbind, M_bind.
    by rewrite RawMemory_new_refused.
Qed.

(** X17.  Any sequence of mutators, each applied within its precondition
    and each request it makes of [operator new] served in full, that
    returns leaves a vector that satisfies the data-model invariant, whose
    length is the one the operations determine and whose capacity,
    likewise determined, is not below the capacity at the start: no
    mutator shrinks the capacity. *)
Theorem mutators_keep_invariant this b xs cap (ops : list Op) st r st' :
  owns st this b xs cap → ops_defined ops (length xs) →
  ops_served ops (length xs) cap →
  run_ops this ops st = (r, st') →
  (r = Ok tt ∧ vector_invariant st' this ∧
   Size this st' = (Ok (ops_length ops (length xs)), st') ∧
   Capacity this st' = (Ok (ops_capacity ops (length xs) cap), st') ∧
   cap ≤ ops_capacity ops (length xs) cap)
  ∨ (r = Throw ∧ fired).
Proof.
  intros Hown Hdef Hserved Hrun.
  rewrite (run_ops_served _ _ _ _ _ _ Hown Hdef Hserved) in Hrun.
  destruct (wp_run _ _ _ _ _ _ (wp_run_ops _ ops _ _ _ _ Hown Hdef) Hrun)
    as [([] & -> & b' & xs' & Hown' & Hlen & _)|[-> Hf]]; [left|by right].
  split_and!; [done| | | |].
  - by exists b', xs', (ops_capacity ops (length xs) cap).
  - rewrite (owns_Size _ _ _ _ _ Hown'). by rewrite Hlen.
  - by apply (owns_Capacity _ _ _ _ _ Hown').
  - apply ops_capacity_ge.
Qed.

(** X20.  After a [Reserve(n)] whose request, if it makes one, is served in
    full, appends that keep the length within [n] and return never
    reallocate: the whole run allocates once if [n] exceeds the capacity
    and not at all otherwise, and the capacity at the end is the larger of
    [n] and the capacity at the start. *)
Theorem Reserve_then_appends this b xs cap n (ops : list Append) st r st' :
  owns st this b xs cap → length xs + length ops ≤ n →
  (cap < n → operator_new st n = Some n) →
  (Reserve this n;; appends this ops) st = (r, st') →
  (r = Ok tt ∧
   ∃ b', owns st' this b' (xs ++ (append_value <$> ops)) (cap `max` n) ∧
         n_alloc (stats st') =
           n_alloc (stats st) + (if decide (n ≤ cap) then 0 else 1))
  ∨ (r = Throw ∧ fired).
Proof.
  intros Hown Hlen Hserved Hrun. pose proof Hown as (Hv & _).
  assert (Hsame : (Reserve this n;; appends this ops) st
                  = (Reserve (alloc := unbounded) this n;;
                     appends (alloc := unbounded) this ops) st).
  { unfold mbind, M_bind. rewrite (Reserve_served _ _ _ _ Hv) by done.
    destruct (Reserve (alloc := unbounded) this n st) as [[[]| |] st1] eqn:Hres;
      [|done..].
    destruct (decide (n ≤ cap)) as [Hn|Hn].
    - rewrite (Reserve_enough _ _ _ _ Hv) in Hres by done. simplify_eq.
      apply (appends_room_served _ _ _ _ _ _ Hown). lia.
    - assert (Hwp : wp (Reserve (alloc := unbounded) this n) st
        (λ _ st2, ∃ b1, owns st2 this b1 xs n) (λ _, True)).
      { apply (wp_Reserve_grow _ _ _ _ _ _ _ _ Hown); [lia| |done].
        intros b1 st2 _ Hown2 _. by exists b1. }
      destruct (wp_run _ _ _ _ _ _ Hwp Hres) as [(_ & _ & b1 & Hown1)|[[=] _]].
      apply (appends_room_served _ _ _ _ _ _ Hown1). lia. }
  rewrite Hsame in Hrun. clear Hsame Hserved.
  assert (Hwp : wp (Reserve (alloc := unbounded) this n;;
                    appends (alloc := unbounded) this ops) st
    (λ _ st1, ∃ b', owns st1 this b' (xs ++ (append_value <$> ops)) (cap `max` n) ∧
         n_alloc (stats st1) =
           n_alloc (stats st) + (if decide (n ≤ cap) then 0 else 1))
    (λ _, fired)).
  { apply wp_bind. destruct (decide (n ≤ cap)) as [Hn|Hn].
    - unfold wp at 1.
      rewrite (Reserve_enough _ _ _ _ Hv) by done.
      replace (cap `max` n) with cap by lia.
      eapply wp_mono; [apply (wp_appends_room _ _ _ ops _ _ Hown); lia| |done].
      intros _ st1 [Hown1 Ha]. exists b. split; [done|lia].
    - apply (wp_Reserve_grow _ _ _ _ _ _ _ _ Hown); [lia| |by intros].
      intros b1 st1 _ Hown1 Hs1.
      replace (cap `max` n) with n by lia.
      eapply wp_mono; [apply (wp_appends_room _ _ _ ops _ _ Hown1); lia| |done].
      intros _ st2 [Hown2 Ha]. exists b1. split; [done|].
      rewrite Ha, Hs1. unfold transplant_stats, release_stats.
      destruct move_if_safe; case_decide; stats_fields; lia. }
  destruct (wp_run _ _ _ _ _ _ Hwp Hrun) as [([] & -> & H)|[-> H]];
    [by left|by right].
Qed.

(** X26.  Every mutator of one vector, applied within its precondition,
    whose request of [operator new], if it makes one, is served in full or
    refused, keeps the data-model invariant when it returns; when it
    throws, because a copy constructor or [operator new] does, it keeps
    the invariant too, unless it is an [Emplace] strictly before the end
    of a vector with spare capacity. *)
Lemma invariant_step this b xs cap (op : Op) st r st' :
  owns st this b xs cap → op_defined op (length xs) → fits (2 * length xs) →
  served_or_refused st op (length xs) cap →
  run_op this op st = (r, st') →
  (r = Ok tt ∧ vector_invariant st' this)
  ∨ (r = Throw ∧
     (vector_invariant st' this ∨ inserts_in_place op (length xs) cap)).
Proof.
  intros Hown Hdef Hfit Hanswer Hrun.
  assert (Hcases : served st op (length xs) cap
                   ∨ ∃ n, op_request op (length xs) cap = Some n ∧
                          operator_new st n = None).
  { destruct (op_request op (length xs) cap) as [n|] eqn:Hreq.
    - destruct (Hanswer n Hreq) as [Hs|Hno]; [left|right; by exists n].
      intros m Hm. by simplify_eq.
    - left. intros m Hm. rewrite Hreq in Hm. done. }
  destruct Hcases as [Hserved|(n & Hreq & Hno)].
  2:{ rewrite (run_op_refused _ _ _ _ _ _ _ Hown Hfit Hreq Hno) in Hrun.
      simplify_eq. right. split; [done|]. left. by exists b, xs, cap. }
  rewrite (run_op_served _ _ _ _ _ _ Hown Hserved) in Hrun. clear Hserved Hanswer.
  assert (Hfit' : length xs = cap → fits (2 * cap)) by (by intros <-).
  assert (Hwp : wp (run_op (alloc := unbounded) this op) st
    (λ _ st1, vector_invariant st1 this)
    (λ st1, owns st1 this b xs cap ∨ inserts_in_place op (length xs) cap)).
  { destruct op as [a|a|i a|i| |n|n]; simpl in *.
    - apply (wp_PushBackImpl _ _ _ _ _ _ _ _ Hown Hfit'); [|by auto].
      intros b1 cap1 st1 Hown1 _ _. by exists b1, (xs ++ [arg_value a]), cap1.
    - apply wp_bind, (wp_EmplaceBack _ _ _ _ _ _ _ _ Hown Hfit'); [|by auto].
      intros b1 cap1 st1 Hown1 _ _. apply wp_ret.
      by exists b1, (xs ++ [arg_value a]), cap1.
    - apply wp_bind. unfold wp at 1. rewrite (owns_begin _ _ _ _ _ Hown).
      unfold ptr_add; simpl.
      apply wp_bind, (wp_Emplace _ _ _ _ _ _ _ _ _ Hown Hdef Hfit').
      + intros b1 cap1 st1 Hown1 _ _. apply wp_ret.
        by exists b1, (take i xs ++ arg_value a :: drop i xs), cap1.
      + intros st1 Hf [Hown1|(_ & Hlt & _)]; auto.
    - apply wp_bind. unfold wp at 1. rewrite (owns_begin _ _ _ _ _ Hown).
      unfold ptr_add; simpl.
      apply wp_bind, (wp_Erase _ _ _ _ _ _ _ _ Hown Hdef).
      intros st1 Hown1 _. apply wp_ret.
      by exists b, (take i xs ++ drop (S i) xs), cap.
    - apply (wp_PopBack _ _ _ _ _ _ _ Hown Hdef).
      intros st1 Hown1 _. by exists b, (take (length xs - 1) xs), cap.
    - apply (wp_Resize _ _ _ _ _ _ _ _ Hown); [|by auto].
      intros b1 cap1 st1 Hown1 _ _.
      by exists b1, (take n xs ++ replicate (n - length xs) value_init), cap1.
    - destruct (decide (n ≤ cap)) as [Hn|Hn].
      + destruct Hown as (Hv & Hrest). unfold wp.
        rewrite (Reserve_enough _ _ _ _ Hv) by done. by exists b, xs, cap.
      + apply (wp_Reserve_grow _ _ _ _ _ _ _ _ Hown); [lia| |by auto].
        intros b1 st1 _ Hown1 _. by exists b1, xs, n. }
  destruct (wp_run _ _ _ _ _ _ Hwp Hrun)
    as [([] & -> & Hinv)|(-> & [Hown'|Hin])].
  - by left.
  - right. split; [done|]. left. by exists b, xs, cap.
  - right. by auto.
Qed.

End Allocation.

(** ** The machine allocator *)

Section Machine.
Context {T : Type} {ET : ElementType T}.
Implicit Types (st : @State T).

(** [LP64] serves in full a request whose byte count is a value of
    [size_t] within the limit, *)
Lemma LP64_serves sizeof_T max_request st n :
  0 < sizeof_T → fits (n * sizeof_T) → n * sizeof_T ≤ max_request →
  operator_new (Allocator := LP64 sizeof_T max_request) st n = Some n.
Proof.
  intros Hpos Hfit Hle. simpl. rewrite size_t_mul_small by done.
  rewrite decide_True by done. f_equal. apply Nat.div_mul. lia.
Qed.

(** and refuses one whose byte count is beyond the limit. *)
Lemma LP64_refuses sizeof_T max_request st n :
  fits (n * sizeof_T) → max_request < n * sizeof_T →
  operator_new (Allocator := LP64 sizeof_T max_request) st n = None.
Proof.
  intros Hfit Hlt. simpl. rewrite size_t_mul_small by done.
  by rewrite decide_False by lia.
Qed.

(** The byte count is not checked for overflow: with elements of 8 bytes,
    the request of [2 ^ 61 + 1] elements is a request of 8 bytes, and the
    block it gets has room for one element. *)
Lemma LP64_wraps max_request st n :
  N.of_nat n = (2 ^ 61 + 1)%N → 8 ≤ max_request →
  operator_new (Allocator := LP64 8 max_request) st n = Some 1.
Proof.
  intros Hn Hmax. simpl. unfold size_t_mul. rewrite Hn.
  replace (((2 ^ 61 + 1) * N.of_nat 8) mod 2 ^ SIZE_T_BITS)%N with 8%N
    by (by vm_compute).
  change (N.to_nat 8) with 8. rewrite decide_True by done. reflexivity.
Qed.

(** [RawMemory] records the capacity it asked for, not the room it was
    given: on that machine [Reserve(2 ^ 61 + 1)] on an empty vector returns
    with [Capacity()] equal to [2 ^ 61 + 1] over a block with room for one
    element, and the data-model invariant is lost.  This is why the
    statements about [Reserve], [Resize] and [Vector(n)] assume their
    request served in full. *)
Example Reserve_wraps this st n max_request :
  owns st this 0 [] 0 → N.of_nat n = (2 ^ 61 + 1)%N → 8 ≤ max_request →
  ∃ b st', Reserve (alloc := LP64 8 max_request) this n st = (Ok tt, st') ∧
    Capacity this st' = (Ok n, st') ∧
    begin_ this st' = (Ok (mkPtr b 0), st') ∧
    blocks st' !! b = Some [None] ∧
    ¬ vector_invariant st' this.
Proof.
  intros (Hv & _) Hn Hmax.
  assert (Hbig : 1 < n).
  { assert (N.of_nat n = 2305843009213693953%N) as Hlit by (by rewrite Hn).
    clear Hn. lia. }
  set (b := fresh ({[0]} ∪ dom (blocks st))).
  exists b. eexists. split_and!.
  - unfold Reserve, mbind, M_bind, vec. rewrite Hv. simpl.
    rewrite decide_False by lia.
    unfold RawMemory_new, mbind, M_bind, Allocate.
    rewrite decide_True by lia. rewrite (LP64_wraps _ _ _ Hn Hmax).
    fold b. cbv beta iota zeta. unfold mret, M_ret. cbv beta iota.
    unfold on_throw, uninitialized_move_n, uninitialized_copy_n.
    destruct move_if_safe; simpl; unfold data_Swap, mbind, M_bind, vec; simpl;
      rewrite Hv; simpl; unfold RawMemory_delete, Deallocate; simpl; reflexivity.
  - unfold Capacity, mbind, M_bind, vec. simpl. by rewrite lookup_insert_eq.
  - unfold begin_, mbind, M_bind, vec. simpl. by rewrite lookup_insert_eq.
  - simpl. by rewrite lookup_insert_eq.
  - intros (b' & xs & cap & Hv' & _ & _ & Hc). simpl in Hv'.
    rewrite lookup_insert_eq in Hv'. injection Hv' as <- <- Hlen.
    specialize (Hc 1 Hbig). unfold cell in Hc. simpl in Hc.
    rewrite lookup_insert_eq in Hc. simpl in Hc. discriminate Hc.
Qed.

End Machine.

(** ** Further scenarios *)

Lemma two_vectors_owns_1 : owns (two_vectors Copying) 1 1 [10; 20; 30] 4.
Proof.
  split_and!; [by vm_compute|simpl; lia|split; intros; lia|].
  intros i Hi. destruct i as [|[|[|[|i]]]]; try lia; by vm_compute.
Qed.

Lemma two_vectors_owns_2 : owns (two_vectors Copying) 2 2 [7] 4.
Proof.
  split_and!; [by vm_compute|simpl; lia|split; intros; lia|].
  intros i Hi. destruct i as [|[|[|[|i]]]]; try lia; by vm_compute.
Qed.

Lemma two_vectors_throwing_owns_1 :
  owns (two_vectors (Throwing 1)) 1 1 [10; 20; 30] 4.
Proof.
  split_and!; [by vm_compute|simpl; lia|split; intros; lia|].
  intros i Hi. destruct i as [|[|[|[|i]]]]; try lia; by vm_compute.
Qed.

Lemma two_vectors_throwing_owns_2 : owns (two_vectors (Throwing 1)) 2 2 [7] 4.
Proof.
  split_and!; [by vm_compute|simpl; lia|split; intros; lia|].
  intros i Hi. destruct i as [|[|[|[|i]]]]; try lia; by vm_compute.
Qed.

Lemma three_of_four_throwing_owns :
  owns (three_of_four (Throwing 1)) 1 1 [10; 20; 30] 4.
Proof.
  split_and!; [by vm_compute|simpl; lia|split; intros; lia|].
  intros i Hi. destruct i as [|[|[|[|i]]]]; try lia; by vm_compute.
Qed.

Lemma sample_ops_defined : ops_defined sample_ops 0.
Proof. simpl. repeat split; try lia; reflexivity. Qed.

Lemma sample_ops_served : ops_served (alloc := machine) sample_ops 0 0.
Proof.
  simpl. split_and!; try done; intros st n Hn; vm_compute in Hn; simplify_eq;
    by vm_compute.
Qed.

Lemma two_buffers_unique : unique_owners two_buffers.
Proof.
  intros a b ra rb Hab Ha Hb Hnn. unfold two_buffers in *.
  rewrite !lookup_insert_Some, lookup_empty in Ha, Hb.
  repeat (destruct_or! || destruct_and! || simplify_eq); simpl in *; congruence.
Qed.

(** ** The further theorems at concrete inputs *)

Lemma Reserve_spec_witness :
  let st := three_of_four Copying in
  owns st 1 1 [10; 20; 30] 4 ∧
  operator_new (Allocator := machine) st 8 = Some 8 ∧
  Reserve (ET := Copying) (alloc := machine) 1 8 st = (Ok tt, after_reserve) ∧
  n_alloc (stats after_reserve) = S (n_alloc (stats st)) ∧
  Capacity 1 after_reserve = (Ok 8, after_reserve) ∧
  Size 1 after_reserve = (Ok 3, after_reserve) ∧
  contents after_reserve 1 = Some [10; 20; 30] ∧
  operator_new (Allocator := machine) st 200 = None ∧
  Reserve (ET := Copying) (alloc := machine) 1 200 st = (Throw, st).
Proof.
  intros st.
  assert (Hserved : operator_new (Allocator := machine) st 8 = Some 8)
    by (by vm_compute).
  assert (Hrefused : operator_new (Allocator := machine) st 200 = None)
    by (by vm_compute).
  assert (Hrun : Reserve (ET := Copying) (alloc := machine) 1 8 st
                 = (Ok tt, after_reserve)) by (by vm_compute).
  destruct (Reserve_spec (ET := Copying) (alloc := machine) 1 1 [10; 20; 30] 4 8
              st (Ok tt) after_reserve three_of_four_owns Hrun) as (_ & Hgrow & _).
  destruct (Hgrow ltac:(lia) Hserved)
    as [(_ & Halloc & Hcap & Hsize & Hcont)|[Hthrow _]]; [|discriminate Hthrow].
  destruct (Reserve (ET := Copying) (alloc := machine) 1 200 st)
    as [r2 st2] eqn:Hrun2.
  destruct (Reserve_spec (ET := Copying) (alloc := machine) 1 1 [10; 20; 30] 4 200
              st r2 st2 three_of_four_owns Hrun2) as (_ & _ & Hno).
  destruct (Hno ltac:(lia) Hrefused) as [-> ->].
  split_and!; [exact three_of_four_owns|exact Hserved|exact Hrun|exact Halloc
              |exact Hcap|exact Hsize|exact Hcont|exact Hrefused|reflexivity].
Defined.

Lemma Resize_spec_witness :
  let st := three_of_four Copying in
  owns st 1 1 [10; 20; 30] 4 ∧
  operator_new (Allocator := machine) st 5 = Some 5 ∧
  Resize (ET := Copying) (alloc := machine) 1 5 st = (Ok tt, after_resize) ∧
  Size 1 after_resize = (Ok 5, after_resize) ∧
  contents after_resize 1 = Some [10; 20; 30; 0; 0] ∧
  operator_new (Allocator := machine) st 200 = None ∧
  Resize (ET := Copying) (alloc := machine) 1 200 st = (Throw, st).
Proof.
  intros st.
  assert (Hserved : operator_new (Allocator := machine) st 5 = Some 5)
    by (by vm_compute).
  assert (Hrefused : operator_new (Allocator := machine) st 200 = None)
    by (by vm_compute).
  assert (Hrun : Resize (ET := Copying) (alloc := machine) 1 5 st
                 = (Ok tt, after_resize)) by (by vm_compute).
  destruct (Resize_spec (ET := Copying) (alloc := machine) 1 1 [10; 20; 30] 4 5
              st (Ok tt) after_resize three_of_four_owns Hrun) as (Hgrow & _).
  destruct (Hgrow (λ _, Hserved))
    as [(_ & Hsize & _ & Hmore & _)|[Hthrow _]]; [|discriminate Hthrow].
  destruct (Resize (ET := Copying) (alloc := machine) 1 200 st)
    as [r2 st2] eqn:Hrun2.
  destruct (Resize_spec (ET := Copying) (alloc := machine) 1 1 [10; 20; 30] 4 200
              st r2 st2 three_of_four_owns Hrun2) as (_ & Hno).
  destruct (Hno ltac:(simpl; lia) Hrefused) as [-> ->].
  split_and!; [exact three_of_four_owns|exact Hserved|exact Hrun|exact Hsize
              | |exact Hrefused|reflexivity].
  exact (Hmore ltac:(simpl; lia)).
Defined.

Lemma Vector_sized_spec_witness :
  let st := three_of_four Copying in
  operator_new (Allocator := machine) st 3 = Some 3 ∧
  (∃ b st', Vector_sized (ET := Copying) (alloc := machine) 2 3 st = (Ok tt, st') ∧
     owns st' 2 b [0; 0; 0] 3 ∧ owns st' 1 1 [10; 20; 30] 4) ∧
  operator_new (Allocator := machine) st 200 = None ∧
  Vector_sized (ET := Copying) (alloc := machine) 2 200 st = (Throw, st).
Proof.
  intros st.
  assert (Hserved : operator_new (Allocator := machine) st 3 = Some 3)
    by (by vm_compute).
  assert (Hrefused : operator_new (Allocator := machine) st 200 = None)
    by (by vm_compute).
  destruct (Vector_sized_spec (ET := Copying) (alloc := machine) 2 3 st)
    as (Hok & _).
  destruct (Hok (λ _, Hserved)) as (b & st' & Hrun & Hown & _ & Hothers).
  destruct (Vector_sized_spec (ET := Copying) (alloc := machine) 2 200 st)
    as (_ & Hno).
  split_and!; [exact Hserved| |exact Hrefused|].
  - exists b, st'. split_and!; [exact Hrun|exact Hown|].
    exact (Hothers 1 1 [10; 20; 30] 4 ltac:(lia) three_of_four_owns).
  - exact (Hno ltac:(lia) Hrefused).
Defined.

Lemma Vector_copy_spec_witness :
  let st := two_vectors Copying in
  let st' := snd (Vector_copy (ET := Copying) 3 1 st) in
  owns st 1 1 [10; 20; 30] 4 ∧ 3 ≠ 1 ∧
  Vector_copy (ET := Copying) 3 1 st = (Ok tt, st') ∧
  ∃ b1, owns st' 3 b1 [10; 20; 30] 3 ∧ owns st' 1 1 [10; 20; 30] 4 ∧ b1 ≠ 1.
Proof.
  intros st st'.
  assert (Hne : 3 ≠ 1) by lia.
  assert (Hrun : Vector_copy (ET := Copying) 3 1 st = (Ok tt, st'))
    by (by vm_compute).
  destruct (Vector_copy_spec (ET := Copying) 3 1 1 [10; 20; 30] 4 st (Ok tt) st'
              two_vectors_owns_1 Hne Hrun)
    as [(_ & b1 & H1 & H2 & H3 & _)|[Hthrow _]]; [|discriminate Hthrow].
  split_and!; [exact two_vectors_owns_1|exact Hne|exact Hrun|].
  exists b1. split_and!; [exact H1|exact H2|]. apply H3. discriminate.
Defined.

Lemma Vector_move_spec_witness :
  let st := two_vectors Copying in
  owns st 1 1 [10; 20; 30] 4 ∧ 3 ≠ 1 ∧
  ∃ st', Vector_move 3 1 st = (Ok tt, st') ∧
    owns st' 3 1 [10; 20; 30] 4 ∧ owns st' 1 0 [] 0 ∧
    stats st' = stats st ∧ blocks st' = blocks st.
Proof.
  intros st.
  assert (Hne : 3 ≠ 1) by lia.
  split_and!; [exact two_vectors_owns_1|exact Hne|].
  exact (Vector_move_spec 3 1 1 [10; 20; 30] 4 st two_vectors_owns_1 Hne).
Defined.

Lemma Vector_dtor_spec_witness :
  let st := three_of_four Copying in
  owns st 1 1 [10; 20; 30] 4 ∧
  ∃ st', Vector_dtor 1 st = (Ok tt, st') ∧
    objs st' !! 1 = None ∧
    (1 ≠ 0 → ∀ i, cell st' (mkPtr 1 i) = None) ∧
    stats st' = stats st ⊕ stats_scale 3 d_dtor ⊕ d_dealloc.
Proof.
  intros st. split; [exact three_of_four_owns|].
  exact (Vector_dtor_spec 1 1 [10; 20; 30] 4 st three_of_four_owns).
Defined.

Lemma Swap_exchanges_witness :
  let st := two_vectors Copying in
  1 ≠ 2 ∧ owns st 1 1 [10; 20; 30] 4 ∧ owns st 2 2 [7] 4 ∧
  ∃ st', Swap 1 2 st = (Ok tt, st') ∧
    owns st' 1 2 [7] 4 ∧ owns st' 2 1 [10; 20; 30] 4 ∧
    stats st' = stats st ∧ blocks st' = blocks st ∧
    Swap 1 2 st' = (Ok tt, st).
Proof.
  intros st.
  assert (Hne : 1 ≠ 2) by lia.
  split_and!; [exact Hne|exact two_vectors_owns_1|exact two_vectors_owns_2|].
  exact (Swap_exchanges 1 2 1 [10; 20; 30] 4 2 [7] 4 st Hne
           two_vectors_owns_1 two_vectors_owns_2).
Defined.

Lemma assign_move_swaps_witness :
  let st := two_vectors Copying in
  1 ≠ 2 ∧ owns st 1 1 [10; 20; 30] 4 ∧ owns st 2 2 [7] 4 ∧
  ∃ st', assign_move 1 2 st = (Ok 1, st') ∧
    owns st' 1 2 [7] 4 ∧ owns st' 2 1 [10; 20; 30] 4 ∧
    stats st' = stats st ∧ blocks st' = blocks st.
Proof.
  intros st.
  assert (Hne : 1 ≠ 2) by lia.
  split_and!; [exact Hne|exact two_vectors_owns_1|exact two_vectors_owns_2|].
  exact (assign_move_swaps 1 2 1 [10; 20; 30] 4 2 [7] 4 st Hne
           two_vectors_owns_1 two_vectors_owns_2).
Defined.

Lemma assign_copy_copies_witness :
  let st := two_vectors Copying in
  let st' := snd (assign_copy (ET := Copying) 2 1 st) in
  owns st 2 2 [7] 4 ∧ owns st 1 1 [10; 20; 30] 4 ∧ 2 ≠ 1 ∧ (2 ≠ 0 → 1 ≠ 2) ∧
  assign_copy (ET := Copying) 2 1 st = (Ok 2, st') ∧
  owns st' 1 1 [10; 20; 30] 4 ∧ owns st' 2 2 [10; 20; 30] 4 ∧
  n_alloc (stats st') = n_alloc (stats st).
Proof.
  intros st st'.
  assert (Hne : 2 ≠ 1) by lia.
  assert (Hsep : 2 ≠ 0 → 1 ≠ 2) by lia.
  assert (Hrun : assign_copy (ET := Copying) 2 1 st = (Ok 2, st'))
    by (by vm_compute).
  destruct (assign_copy_copies (ET := Copying) 2 1 2 [7] 4 1 [10; 20; 30] 4
              st (Ok 2) st' two_vectors_owns_2 two_vectors_owns_1 Hne Hsep Hrun)
    as [(_ & Hrhs & b1 & Hthis & Hin & _)|[Hthrow _]]; [|discriminate Hthrow].
  assert (Hle : length [10; 20; 30] ≤ 4) by (simpl; lia).
  destruct (Hin Hle) as [Hb Hs]. rewrite Hb in Hthis.
  split_and!; [exact two_vectors_owns_2|exact two_vectors_owns_1|exact Hne
              |exact Hsep|exact Hrun|exact Hrhs|exact Hthis|].
  rewrite Hs. reflexivity.
Defined.

Lemma assign_copy_throw_witness :
  let st := two_vectors (Throwing 1) in
  let st' := snd (assign_copy (ET := Throwing 1) 2 1 st) in
  owns st 2 2 [7] 4 ∧ owns st 1 1 [10; 20; 30] 4 ∧ 2 ≠ 1 ∧ (2 ≠ 0 → 1 ≠ 2) ∧
  assign_copy (ET := Throwing 1) 2 1 st = (Throw, st') ∧
  owns st' 1 1 [10; 20; 30] 4 ∧
  live_elements (stats st) (stats st') = 0%Z ∧
  live_blocks (stats st) (stats st') = 0%Z ∧
  ∃ zs, length zs = 1 ∧ owns st' 2 2 zs 4.
Proof.
  intros st st'.
  assert (Hne : 2 ≠ 1) by lia.
  assert (Hsep : 2 ≠ 0 → 1 ≠ 2) by lia.
  assert (Hrun : assign_copy (ET := Throwing 1) 2 1 st = (Throw, st'))
    by (by vm_compute).
  destruct (assign_copy_throw (ET := Throwing 1) 2 1 2 [7] 4 1 [10; 20; 30] 4
              st st' two_vectors_throwing_owns_2 two_vectors_throwing_owns_1
              Hne Hsep Hrun)
    as (Hrhs & Hel & Hbl & _ & Hthis).
  split_and!; [exact two_vectors_throwing_owns_2|exact two_vectors_throwing_owns_1
              |exact Hne|exact Hsep|exact Hrun|exact Hrhs|exact Hel|exact Hbl
              |exact (Hthis ltac:(simpl; lia))].
Defined.

Lemma subscript_bounds_witness :
  let st := three_of_four Copying in
  owns st 1 1 [10; 20; 30] 4 ∧
  subscript 1 1 st = (Ok (mkPtr 1 1), st) ∧
  load (mkPtr 1 1) st = (Ok 20, st) ∧
  subscript 1 3 st = (Undef, st).
Proof.
  intros st.
  destruct (subscript_bounds 1 1 [10; 20; 30] 4 1 st three_of_four_owns)
    as [Hin _].
  destruct (subscript_bounds 1 1 [10; 20; 30] 4 3 st three_of_four_owns)
    as [_ Hout].
  destruct (Hin 20 eq_refl) as [H1 H2].
  split_and!; [exact three_of_four_owns|exact H1|exact H2|].
  apply Hout. simpl. lia.
Defined.

Lemma PopBack_removes_last_witness :
  let st := three_of_four Copying in
  owns st 1 1 [10; 20; 30] 4 ∧ 0 < length [10; 20; 30] ∧
  ∃ st', PopBack 1 st = (Ok tt, st') ∧
    owns st' 1 1 [10; 20] 4 ∧ stats st' = stats st ⊕ d_dtor.
Proof.
  intros st.
  assert (Hpos : 0 < length [10; 20; 30]) by (simpl; lia).
  split_and!; [exact three_of_four_owns|exact Hpos|].
  exact (PopBack_removes_last 1 1 [10; 20; 30] 4 st three_of_four_owns Hpos).
Defined.

Lemma PopBack_empty_undefined_witness :
  owns empty_vector 1 0 [] 0 ∧
  PopBack 1 empty_vector = (Undef, empty_vector).
Proof.
  split; [exact empty_vector_owns|].
  exact (PopBack_empty_undefined 1 0 0 empty_vector empty_vector_owns).
Defined.

Lemma Erase_at_end_undefined_witness :
  let st := three_of_four Copying in
  owns st 1 1 [10; 20; 30] 4 ∧
  Erase (ET := Copying) 1 (mkPtr 1 3) st = (Undef, st).
Proof.
  intros st. split; [exact three_of_four_owns|].
  exact (Erase_at_end_undefined (ET := Copying) 1 1 [10; 20; 30] 4 st
           three_of_four_owns).
Defined.

Lemma Erase_cost_witness :
  let st := three_of_four Copying in
  owns st 1 1 [10; 20; 30] 4 ∧ 1 < length [10; 20; 30] ∧
  Erase (ET := Copying) 1 (mkPtr 1 1) st = (Ok (mkPtr 1 1), after_erase) ∧
  begin_ 1 after_erase = (Ok (mkPtr 1 0), after_erase) ∧
  Capacity 1 after_erase = (Ok 4, after_erase) ∧
  stats after_erase = stats st ⊕ stats_scale 1 d_assign_copy ⊕ d_dtor.
Proof.
  intros st.
  assert (Hi : 1 < length [10; 20; 30]) by (simpl; lia).
  assert (Hrun : Erase (ET := Copying) 1 (mkPtr 1 1) st
                 = (Ok (mkPtr 1 1), after_erase)) by (by vm_compute).
  split_and!; [exact three_of_four_owns|exact Hi|exact Hrun|..];
    apply (Erase_cost (ET := Copying) 1 1 [10; 20; 30] 4 1 st
             (Ok (mkPtr 1 1)) after_erase three_of_four_owns Hi Hrun).
Defined.

Lemma Emplace_in_place_witness :
  let st := three_of_four Copying in
  owns st 1 1 [10; 20; 30] 4 ∧ 1 ≤ length [10; 20; 30] ∧
  length [10; 20; 30] < 4 ∧
  Emplace (ET := Copying) 1 (mkPtr 1 1) (CopyOf 15) st
    = (Ok (mkPtr 1 1), after_insert) ∧
  owns after_insert 1 1 [10; 15; 20; 30] 4 ∧
  n_alloc (stats after_insert) = n_alloc (stats st) ∧
  n_dealloc (stats after_insert) = n_dealloc (stats st).
Proof.
  intros st.
  assert (Hi : 1 ≤ length [10; 20; 30]) by (simpl; lia).
  assert (Hroom : length [10; 20; 30] < 4) by (simpl; lia).
  assert (Hrun : Emplace (ET := Copying) 1 (mkPtr 1 1) (CopyOf 15) st
                 = (Ok (mkPtr 1 1), after_insert)) by (by vm_compute).
  destruct (Emplace_in_place (ET := Copying) 1 1 [10; 20; 30] 4 1 (CopyOf 15)
              st (Ok (mkPtr 1 1)) after_insert three_of_four_owns Hi Hroom Hrun)
    as [(_ & Hown & Ha & Hd)|[Hthrow _]]; [|discriminate Hthrow].
  split_and!; [exact three_of_four_owns|exact Hi|exact Hroom|exact Hrun
              |exact Hown|exact Ha|exact Hd].
Defined.

Lemma in_place_copy_insert_leaks_witness :
  let st := three_of_four Copying in
  owns st 1 1 [10; 20; 30] 4 ∧ 1 < length [10; 20; 30] ∧
  length [10; 20; 30] < 4 ∧ move_if_safe (ET := Copying) = false ∧
  Emplace (ET := Copying) 1 (mkPtr 1 1) (CopyOf 15) st
    = (Ok (mkPtr 1 1), after_insert) ∧
  Size 1 after_insert = (Ok 4, after_insert) ∧
  constructions (stats after_insert) = constructions (stats st) + 3 ∧
  n_dtor (stats after_insert) = n_dtor (stats st) + 1 ∧
  n_ctor_copy (stats after_insert) = n_ctor_copy (stats st) + 1 + 2 ∧
  live_elements (stats st) (stats after_insert) = 2%Z.
Proof.
  intros st.
  assert (Hi : 1 < length [10; 20; 30]) by (simpl; lia).
  assert (Hroom : length [10; 20; 30] < 4) by (simpl; lia).
  assert (Hm : move_if_safe (ET := Copying) = false) by reflexivity.
  assert (Hrun : Emplace (ET := Copying) 1 (mkPtr 1 1) (CopyOf 15) st
                 = (Ok (mkPtr 1 1), after_insert)) by (by vm_compute).
  split_and!; [exact three_of_four_owns|exact Hi|exact Hroom|exact Hm|exact Hrun|..];
    apply (in_place_copy_insert_leaks (ET := Copying) 1 1 [10; 20; 30] 4 1
             (CopyOf 15) st (mkPtr 1 1) after_insert three_of_four_owns
             Hi Hroom Hm Hrun).
Defined.

Lemma EmplaceBack_returns_last_witness :
  let st := three_of_four Copying in
  let st' := snd (EmplaceBack (ET := Copying) 1 (FromArgs 40) st) in
  owns st 1 1 [10; 20; 30] 4 ∧ fits (2 * length [10; 20; 30]) ∧
  EmplaceBack (ET := Copying) 1 (FromArgs 40) st = (Ok (mkPtr 1 3), st') ∧
  end_ 1 st' = (Ok (mkPtr 1 4), st') ∧
  load (mkPtr 1 3) st' = (Ok 40, st') ∧
  contents st' 1 = Some [10; 20; 30; 40] ∧
  let full := two_of_two (Throwing 1) in
  let failed := snd (EmplaceBack (ET := Throwing 1) 1 (FromArgs 15) full) in
  EmplaceBack (ET := Throwing 1) 1 (FromArgs 15) full = (Throw, failed) ∧
  owns failed 1 2 [10; 20] 2.
Proof.
  intros st st'.
  assert (Hfit : fits (2 * length [10; 20; 30])) by reflexivity.
  assert (Hrun : EmplaceBack (ET := Copying) 1 (FromArgs 40) st
                 = (Ok (mkPtr 1 3), st')) by (by vm_compute).
  destruct (EmplaceBack_returns_last (ET := Copying) 1 1 [10; 20; 30] 4
              (FromArgs 40) st (Ok (mkPtr 1 3)) st' three_of_four_owns Hfit Hrun)
    as [(p & Hp & He & Hl & Hc)|[Hthrow _]]; [|discriminate Hthrow].
  injection Hp as <-.
  split_and!; [exact three_of_four_owns|exact Hfit|exact Hrun|exact He|exact Hl
              |exact Hc|].
  intros full failed.
  assert (Hfit2 : fits (2 * length [10; 20])) by reflexivity.
  assert (Hrun2 : EmplaceBack (ET := Throwing 1) 1 (FromArgs 15) full
                  = (Throw, failed)) by (by vm_compute).
  destruct (EmplaceBack_returns_last (ET := Throwing 1) 1 2 [10; 20] 2
              (FromArgs 15) full Throw failed two_of_two_throwing_owns Hfit2 Hrun2)
    as [(p & Hp & _)|[_ Hkept]]; [discriminate Hp|].
  split; [exact Hrun2|]. apply Hkept. left. reflexivity.
Defined.

Lemma mutators_keep_invariant_witness :
  let st' := snd (run_ops (ET := Copying) (alloc := machine) 1 sample_ops
                    empty_vector) in
  owns empty_vector 1 0 [] 0 ∧ ops_defined sample_ops 0 ∧
  ops_served (alloc := machine) sample_ops 0 0 ∧
  run_ops (ET := Copying) (alloc := machine) 1 sample_ops empty_vector
    = (Ok tt, st') ∧
  vector_invariant st' 1 ∧
  Size 1 st' = (Ok 4, st') ∧ Capacity 1 st' = (Ok 5, st').
Proof.
  intros st'.
  assert (Hrun : run_ops (ET := Copying) (alloc := machine) 1 sample_ops
                   empty_vector = (Ok tt, st')) by (by vm_compute).
  destruct (mutators_keep_invariant (ET := Copying) (alloc := machine) 1 0 [] 0
              sample_ops empty_vector (Ok tt) st' empty_vector_owns
              sample_ops_defined sample_ops_served Hrun)
    as [(_ & Hinv & Hsize & Hcap & _)|[Hthrow _]]; [|discriminate Hthrow].
  split_and!; [exact empty_vector_owns|exact sample_ops_defined
              |exact sample_ops_served|exact Hrun|exact Hinv|exact Hsize
              |exact Hcap].
Defined.

Lemma mutators_ledger_witness :
  let st' := snd (run_ops (ET := Copying) 1 sample_ops empty_vector) in
  owns empty_vector 1 0 [] 0 ∧ ops_defined sample_ops 0 ∧
  run_ops (ET := Copying) 1 sample_ops empty_vector = (Ok tt, st') ∧
  live_elements (stats empty_vector) (stats st') = 5%Z ∧
  live_blocks (stats empty_vector) (stats st') = 1%Z.
Proof.
  intros st'.
  assert (Hrun : run_ops (ET := Copying) 1 sample_ops empty_vector = (Ok tt, st'))
    by (by vm_compute).
  split_and!; [exact empty_vector_owns|exact sample_ops_defined|exact Hrun|..];
    apply (mutators_ledger (ET := Copying) 1 0 [] 0 sample_ops empty_vector st'
             empty_vector_owns sample_ops_defined Hrun).
Defined.

Lemma whole_life_balanced_witness :
  let st' := snd (whole_life (ET := Movable) 1 sample_ops (initial_state (T := nat))) in
  ops_defined sample_ops 0 ∧
  whole_life (ET := Movable) 1 sample_ops (initial_state (T := nat)) = (Ok tt, st') ∧
  objs st' !! 1 = None ∧
  live_blocks (stats (initial_state (T := nat))) (stats st') = 0%Z ∧
  live_elements (stats (initial_state (T := nat))) (stats st') = 0%Z.
Proof.
  intros st'.
  assert (Hrun : whole_life (ET := Movable) 1 sample_ops (initial_state (T := nat))
                 = (Ok tt, st')) by (by vm_compute).
  destruct (whole_life_balanced (ET := Movable) 1 sample_ops (initial_state (T := nat))
              (Ok tt) st' sample_ops_defined Hrun)
    as [(_ & Hgone & Hbl & _ & Hel)|[Hthrow _]]; [|discriminate Hthrow].
  split_and!; [exact sample_ops_defined|exact Hrun|exact Hgone|exact Hbl|].
  apply Hel. reflexivity.
Defined.

Lemma Reserve_then_appends_witness :
  let ops := [ByCopy 5; ByMove 6; ByCopy 7] in
  let st' := snd ((Reserve (ET := Copying) (alloc := machine) 1 4;;
                   appends (ET := Copying) (alloc := machine) 1 ops) empty_vector) in
  owns empty_vector 1 0 [] 0 ∧ length (@nil nat) + length ops ≤ 4 ∧
  operator_new (Allocator := machine) empty_vector 4 = Some 4 ∧
  (Reserve (ET := Copying) (alloc := machine) 1 4;;
   appends (ET := Copying) (alloc := machine) 1 ops) empty_vector = (Ok tt, st') ∧
  ∃ b', owns st' 1 b' [5; 6; 7] 4 ∧
        n_alloc (stats st') = n_alloc (stats empty_vector) + 1.
Proof.
  intros ops st'.
  assert (Hlen : length (@nil nat) + length ops ≤ 4) by (simpl; lia).
  assert (Hserved : operator_new (Allocator := machine) empty_vector 4 = Some 4)
    by (by vm_compute).
  assert (Hrun : (Reserve (ET := Copying) (alloc := machine) 1 4;;
                  appends (ET := Copying) (alloc := machine) 1 ops) empty_vector
                 = (Ok tt, st')) by (by vm_compute).
  destruct (Reserve_then_appends (ET := Copying) (alloc := machine) 1 0 [] 0 4 ops
              empty_vector (Ok tt) st' empty_vector_owns Hlen (λ _, Hserved) Hrun)
    as [(_ & b' & Hown & Ha)|[Hthrow _]]; [|discriminate Hthrow].
  split_and!; [exact empty_vector_owns|exact Hlen|exact Hserved|exact Hrun|].
  exists b'. split; [exact Hown|exact Ha].
Defined.

Lemma appends_capacity_power_of_two_witness :
  let ops := [ByCopy 5; ByMove 6; ByCopy 7] in
  owns empty_vector 1 0 [] 0 ∧ ops ≠ [] ∧ fits (2 * length ops) ∧
  appends (ET := Copying) 1 ops empty_vector = (Ok tt, after_appends) ∧
  ∃ k, Capacity 1 after_appends = (Ok (2 ^ k), after_appends) ∧
       length ops ≤ 2 ^ k < 2 * length ops ∧
       n_alloc (stats after_appends) = n_alloc (stats empty_vector) + S k.
Proof.
  intros ops.
  assert (Hne : ops ≠ []) by discriminate.
  assert (Hfit : fits (2 * length ops)) by reflexivity.
  assert (Hrun : appends (ET := Copying) 1 ops empty_vector = (Ok tt, after_appends))
    by (by vm_compute).
  destruct (appends_capacity_power_of_two (ET := Copying) 1 ops empty_vector
              (Ok tt) after_appends empty_vector_owns Hne Hfit Hrun)
    as [(_ & H)|[Hthrow _]]; [|discriminate Hthrow].
  split_and!; [exact empty_vector_owns|exact Hne|exact Hfit|exact Hrun|exact H].
Defined.

Lemma Emplace_then_Erase_witness :
  let st := three_of_four Copying in
  let m := (it ← Emplace (ET := Copying) 1 (mkPtr 1 1) (CopyOf 15); Erase (ET := Copying) 1 it) in
  owns st 1 1 [10; 20; 30] 4 ∧ 1 ≤ length [10; 20; 30] ∧
  fits (2 * length [10; 20; 30]) ∧
  fst (m st) = Ok (mkPtr 1 1) ∧
  contents (snd (m st)) 1 = Some [10; 20; 30] ∧
  Size 1 (snd (m st)) = (Ok 3, snd (m st)).
Proof.
  intros st m.
  assert (Hi : 1 ≤ length [10; 20; 30]) by (simpl; lia).
  assert (Hfit : fits (2 * length [10; 20; 30])) by reflexivity.
  assert (Hrun : m st = (Ok (mkPtr 1 1), snd (m st))) by (by vm_compute).
  destruct (Emplace_then_Erase (ET := Copying) 1 1 [10; 20; 30] 4 1 (CopyOf 15)
              st (Ok (mkPtr 1 1)) (snd (m st)) three_of_four_owns Hi Hfit Hrun)
    as [(p & _ & Hc & Hs)|[Hthrow _]]; [|discriminate Hthrow].
  split_and!; [exact three_of_four_owns|exact Hi|exact Hfit|by vm_compute
              |exact Hc|exact Hs].
Defined.

Lemma PushBack_then_PopBack_witness :
  let st := two_of_two Copying in
  let m := (PushBackImpl (ET := Copying) 1 (CopyOf 30);; PopBack 1) in
  owns st 1 2 [10; 20] 2 ∧ fits (2 * length [10; 20]) ∧
  fst (m st) = Ok tt ∧
  contents (snd (m st)) 1 = Some [10; 20] ∧
  vector_invariant (snd (m st)) 1 ∧
  live_elements (stats st) (stats (snd (m st))) = 0%Z.
Proof.
  intros st m.
  assert (Hfit : fits (2 * length [10; 20])) by reflexivity.
  assert (Hrun : m st = (Ok tt, snd (m st))) by (by vm_compute).
  destruct (PushBack_then_PopBack (ET := Copying) 1 2 [10; 20] 2 (CopyOf 30)
              st (Ok tt) (snd (m st)) two_of_two_owns Hfit Hrun)
    as [(_ & Hc & Hinv & Hel)|[Hthrow _]]; [|discriminate Hthrow].
  split_and!; [exact two_of_two_owns|exact Hfit|by vm_compute|exact Hc|exact Hinv
              |exact Hel].
Defined.

Lemma Resize_capacity_witness :
  let st := three_of_four Copying in
  owns st 1 1 [10; 20; 30] 4 ∧
  Resize (ET := Copying) 1 5 st = (Ok tt, after_resize) ∧
  Capacity 1 after_resize = (Ok 5, after_resize).
Proof.
  intros st.
  assert (Hrun : Resize (ET := Copying) 1 5 st = (Ok tt, after_resize))
    by (by vm_compute).
  destruct (Resize_capacity (ET := Copying) 1 1 [10; 20; 30] 4 5 st after_resize
              three_of_four_owns Hrun) as [Hcap _].
  split_and!; [exact three_of_four_owns|exact Hrun|exact Hcap].
Defined.

Lemma invariant_step_witness :
  let st := three_of_four Copying in
  owns st 1 1 [10; 20; 30] 4 ∧
  op_defined (T := nat) (OpResize 5) 3 ∧ op_defined (T := nat) (OpReserve 200) 3 ∧
  fits (2 * length [10; 20; 30]) ∧
  served_or_refused (alloc := machine) st (OpResize 5) 3 4 ∧
  served_or_refused (alloc := machine) st (OpReserve 200) 3 4 ∧
  run_op (ET := Copying) (alloc := machine) 1 (OpResize 5) st
    = (Ok tt, after_resize) ∧
  vector_invariant after_resize 1 ∧
  run_op (ET := Copying) (alloc := machine) 1 (OpReserve 200) st = (Throw, st) ∧
  vector_invariant st 1.
Proof.
  intros st.
  assert (Hdef : op_defined (T := nat) (OpResize 5) (length [10; 20; 30]))
    by exact I.
  assert (Hdef2 : op_defined (T := nat) (OpReserve 200) (length [10; 20; 30]))
    by exact I.
  assert (Hfit : fits (2 * length [10; 20; 30])) by reflexivity.
  assert (Hanswer : served_or_refused (alloc := machine) st (OpResize 5)
                      (length [10; 20; 30]) 4).
  { intros n Hn. vm_compute in Hn. injection Hn as <-. left. by vm_compute. }
  assert (Hanswer2 : served_or_refused (alloc := machine) st (OpReserve 200)
                       (length [10; 20; 30]) 4).
  { intros n Hn. vm_compute in Hn. injection Hn as <-. right. by vm_compute. }
  assert (Hrun : run_op (ET := Copying) (alloc := machine) 1 (OpResize 5) st
                 = (Ok tt, after_resize)) by (by vm_compute).
  assert (Hrun2 : run_op (ET := Copying) (alloc := machine) 1 (OpReserve 200) st
                  = (Throw, st)) by (by vm_compute).
  destruct (invariant_step (ET := Copying) (alloc := machine) 1 1 [10; 20; 30] 4
              (OpResize 5) st (Ok tt) after_resize three_of_four_owns Hdef Hfit
              Hanswer Hrun)
    as [(_ & Hinv)|[Hthrow _]]; [|discriminate Hthrow].
  destruct (invariant_step (ET := Copying) (alloc := machine) 1 1 [10; 20; 30] 4
              (OpReserve 200) st Throw st three_of_four_owns Hdef2 Hfit
              Hanswer2 Hrun2)
    as [(Hok & _)|(_ & [Hinv2|Hin])]; [discriminate Hok| |destruct Hin].
  split_and!; [exact three_of_four_owns|exact Hdef|exact Hdef2|exact Hfit
              |exact Hanswer|exact Hanswer2|exact Hrun|exact Hinv|exact Hrun2
              |exact Hinv2].
Defined.

Lemma growth_throw_keeps_vector_witness :
  let st := two_of_two (Throwing 1) in
  owns st 1 2 [10; 20] 2 ∧
  reallocates (T := nat) (DoPushBack (MoveOf 30)) 2 2 ∧
  is_copy_constructible (ElementType := Throwing 1) = true ∧
  run_growth (ET := Throwing 1) 1 (DoPushBack (MoveOf 30)) st
    = (Throw, after_failed_push) ∧
  owns after_failed_push 1 2 [10; 20] 2.
Proof.
  intros st.
  assert (Hcopy : is_copy_constructible (ElementType := Throwing 1) = true)
    by reflexivity.
  assert (Hre : reallocates (T := nat) (DoPushBack (MoveOf 30)) (length [10; 20]) 2)
    by (split; reflexivity).
  assert (Hrun : run_growth (ET := Throwing 1) 1 (DoPushBack (MoveOf 30)) st
                 = (Throw, after_failed_push)) by (by vm_compute).
  split_and!; [exact two_of_two_throwing_owns|exact Hre|exact Hcopy|exact Hrun|].
  exact (growth_throw_keeps_vector (ET := Throwing 1) 1 2 [10; 20] 2
           (DoPushBack (MoveOf 30)) st after_failed_push
           two_of_two_throwing_owns Hre (or_introl Hcopy) Hrun).
Defined.

Lemma Reserve_throw_balanced_witness :
  let st := three_of_four (Throwing 1) in
  let st' := snd (Reserve (ET := Throwing 1) 1 8 st) in
  owns st 1 1 [10; 20; 30] 4 ∧
  Reserve (ET := Throwing 1) 1 8 st = (Throw, st') ∧
  constructions (stats st') + n_dtor (stats st) =
    constructions (stats st) + n_dtor (stats st') ∧
  n_alloc (stats st') + n_dealloc (stats st) =
    n_alloc (stats st) + n_dealloc (stats st').
Proof.
  intros st st'.
  assert (Hrun : Reserve (ET := Throwing 1) 1 8 st = (Throw, st'))
    by (by vm_compute).
  split_and!; [exact three_of_four_throwing_owns|exact Hrun|..];
    apply (Reserve_throw_balanced (ET := Throwing 1) 1 1 [10; 20; 30] 4 8 st st'
             three_of_four_throwing_owns Hrun).
Defined.

Lemma PushBackImpl_throw_unbalanced_witness :
  let st := two_of_two (Throwing 1) in
  owns st 1 2 [10; 20] 2 ∧ fits (2 * length [10; 20]) ∧
  is_copy_constructible (ElementType := Throwing 1) = true ∧
  PushBackImpl (ET := Throwing 1) 1 (MoveOf 30) st = (Throw, after_failed_push) ∧
  owns after_failed_push 1 2 [10; 20] 2 ∧
  constructions (stats after_failed_push) + n_dtor (stats st) =
    constructions (stats st) + n_dtor (stats after_failed_push) + 1.
Proof.
  intros st.
  assert (Hfit : fits (2 * length [10; 20])) by reflexivity.
  assert (Hrun : PushBackImpl (ET := Throwing 1) 1 (MoveOf 30) st
                 = (Throw, after_failed_push)) by (by vm_compute).
  assert (Hcopy : is_copy_constructible (ElementType := Throwing 1) = true)
    by reflexivity.
  destruct (PushBackImpl_throw_unbalanced (ET := Throwing 1) 1 2 [10; 20] 2
              (MoveOf 30) st after_failed_push two_of_two_throwing_owns Hfit
              (or_introl Hcopy) Hrun)
    as [Hown [Hbal|(_ & _ & Hleak)]].
  - exfalso. revert Hbal. by vm_compute.
  - split_and!; [exact two_of_two_throwing_owns|exact Hfit|exact Hcopy|exact Hrun
                |exact Hown|exact Hleak].
Defined.

Lemma RawMemory_moves_keep_owners_witness :
  let rs' := <[1 := mkRaw nullptr 0]> (<[3 := mkRaw (mkPtr 1 0) 4]> two_buffers) in
  unique_owners two_buffers ∧ 3 ≠ 1 ∧
  RawMemory_move_ctor 3 1 two_buffers = Some rs' ∧
  unique_owners rs' ∧
  rs' !! 3 = two_buffers !! 1 ∧
  rs' !! 1 = Some (mkRaw nullptr 0).
Proof.
  intros rs'.
  assert (Hne : 3 ≠ 1) by lia.
  assert (Hrun : RawMemory_move_ctor 3 1 two_buffers = Some rs') by (by vm_compute).
  destruct (RawMemory_moves_keep_owners 3 1 two_buffers two_buffers_unique)
    as (Hctor & _).
  destruct (Hctor rs' Hne Hrun) as (H1 & H2 & H3).
  split_and!; [exact two_buffers_unique|exact Hne|exact Hrun|exact H1|exact H2
              |exact H3].
Defined.
